(** * sweet_parser / lalr: the grammar front-end and the LR item

    A shallow embedding of [GrammarParser.cpp] (the recursive-descent parser
    of grammar source text) and of [Item.cpp] (an LR item with its lookahead
    set), with the properties of both that the specification states.  The
    table generator itself is not among the sources; the part of it that the
    precedence test exercises is modelled from the specification in the
    module [Generator]. *)

From Stdlib Require Import ZArith NArith Ascii String List Bool Lia.
From stdpp Require Import gmap.
Import ListNotations.

Local Open Scope Z_scope.

(** ** Characters

    [const char*] ranges are lists of [ascii]; the [<cctype>] predicates are
    those of the "C" locale, in which no byte above 127 is classified. *)

Definition code (c : ascii) : N := N_of_ascii c.

Definition isdigit (c : ascii) : bool :=
  (N.leb 48 (code c) && N.leb (code c) 57)%bool.

Definition isupper (c : ascii) : bool :=
  (N.leb 65 (code c) && N.leb (code c) 90)%bool.

Definition islower (c : ascii) : bool :=
  (N.leb 97 (code c) && N.leb (code c) 122)%bool.

Definition isalpha (c : ascii) : bool := (isupper c || islower c)%bool.

Definition isalnum (c : ascii) : bool := (isalpha c || isdigit c)%bool.

Definition isspace (c : ascii) : bool :=
  (N.eqb (code c) 32 || (N.leb 9 (code c) && N.leb (code c) 13))%bool.

Definition char_newline : ascii := ascii_of_N 10.
Definition char_return : ascii := ascii_of_N 13.
Definition char_quote : ascii := ascii_of_N 39.
Definition char_dquote : ascii := ascii_of_N 34.
Definition char_backslash : ascii := ascii_of_N 92.
Definition char_star : ascii := ascii_of_N 42.
Definition char_slash : ascii := ascii_of_N 47.
Definition char_underscore : ascii := ascii_of_N 95.
Definition char_nul : ascii := ascii_of_N 0.

(** A string literal of the source, as the characters before its NUL. *)
Definition chars (s : string) : list ascii := list_ascii_of_string s.

(** [std::string::c_str()] handed to a [const char*] parameter: the callee
    sees the characters up to the first NUL. *)
Fixpoint c_str (s : list ascii) : list ascii :=
  match s with
  | [] => []
  | c :: s' => if Ascii.eqb c char_nul then [] else c :: c_str s'
  end.

(** ** The type [int]

    A 32 bit integer in two's complement, held as an integer of [Z].
    [++] on [INT_MAX] is taken to give [INT_MIN], which is what the
    machines the library is built for do. *)

Definition INT_MIN : Z := -2147483648.
Definition INT_MAX : Z := 2147483647.

Definition int_wrap (z : Z) : Z :=
  (z + 2147483648) mod 4294967296 - 2147483648.

(** [++i] on an [int]. *)
Definition increment (i : Z) : Z := int_wrap (i + 1).

(** ** Collaborators

    [ErrorCode.hpp], [ErrorPolicy.hpp] and [Grammar.hpp] are not among the
    sources.  A collaborator is the sequence of calls it has received. *)

(** Modelled from the spec: the error kinds of [ErrorCode.hpp], of which
    the parser uses these two. *)
Inductive error_code : Type :=
| LALR_ERROR_SYNTAX
| LALR_ERROR_UNTERMINATED_LITERAL.

(** Modelled from the spec: the one operation of the error collaborator,
    [ErrorPolicy::lalr_error], as a record of its arguments: line, column,
    error kind, and the format with what is to be put into it. *)
Record error_report : Type := mk_error_report {
  report_line : Z;
  report_column : Z;
  report_error : error_code;
  report_format : string;
  report_args : list (list ascii)
}.

(** Modelled from the spec: the operations of the builder facade of
    [Grammar] (section 4.A) that the parser calls, with their arguments. *)
Inductive grammar_call : Type :=
| call_grammar (identifier : list ascii)
| call_left (line : Z)
| call_right (line : Z)
| call_none (line : Z)
| call_whitespace
| call_precedence
| call_production (identifier : list ascii) (line : Z)
| call_end_production
| call_end_expression (line : Z)
| call_error (line : Z)
| call_action (identifier : list ascii) (line : Z)
| call_literal (lexeme : list ascii) (line : Z)
| call_regex (lexeme : list ascii) (line : Z)
| call_identifier (lexeme : list ascii) (line : Z).

(** ** The parser object

    [position_] and [end_] delimit the unread input; the pair is kept as the
    list of characters in the range [position_, end_), so [position_ == end_]
    is the empty list.  [error_policy_] may be null; [grammar_] is asserted
    non-null by [parse].  The [int] members [line_] and [errors_] are held
    as integers between [INT_MIN] and [INT_MAX]; [++] on them is
    [increment], which wraps around. *)

Record GrammarParser : Type := mk_GrammarParser {
  error_policy_ : option (list error_report);
  grammar_ : list grammar_call;
  position_ : list ascii;
  line_ : Z;
  lexeme_ : list ascii;
  errors_ : Z
}.

Definition set_position (p : list ascii) (self : GrammarParser) : GrammarParser :=
  mk_GrammarParser (error_policy_ self) (grammar_ self) p (line_ self)
    (lexeme_ self) (errors_ self).

Definition set_line (n : Z) (self : GrammarParser) : GrammarParser :=
  mk_GrammarParser (error_policy_ self) (grammar_ self) (position_ self) n
    (lexeme_ self) (errors_ self).

Definition set_lexeme (l : list ascii) (self : GrammarParser) : GrammarParser :=
  mk_GrammarParser (error_policy_ self) (grammar_ self) (position_ self)
    (line_ self) l (errors_ self).

(** The number of characters left in [position_, end_). *)
Definition remaining (self : GrammarParser) : nat := length (position_ self).

(** ** Outcomes and the parser monad

    A member function either returns, or reads through a pointer that was
    stepped beyond [end_] (which [match_block_comment] can do), or is cut off
    because the bound given to one of its loops was too small.  The last
    never happens with the bounds used below ([parse_deterministic]). *)

Inductive outcome (A : Type) : Type :=
| Returns (a : A) (self : GrammarParser)
| ReadsPastEnd
| OutOfFuel.

Arguments Returns {A} a self.
Arguments ReadsPastEnd {A}.
Arguments OutOfFuel {A}.

Definition M (A : Type) : Type := GrammarParser -> outcome A.

Definition ret {A : Type} (a : A) : M A := fun self => Returns a self.

Definition bind {A B : Type} (m : M A) (k : A -> M B) : M B :=
  fun self =>
    match m self with
    | Returns a self' => k a self'
    | ReadsPastEnd => ReadsPastEnd
    | OutOfFuel => OutOfFuel
    end.

Notation "x <- m ;; k" := (bind m (fun x => k))
  (at level 100, m at next level, right associativity).
Notation "m ;; k" := (bind m (fun _ => k))
  (at level 100, right associativity).

Definition get : M GrammarParser := fun self => Returns self self.

Definition modify (f : GrammarParser -> GrammarParser) : M unit :=
  fun self => Returns tt (f self).

(** [a || b] and [a && b] of C++, which evaluate [b] only when needed. *)
Definition orelse (a b : M bool) : M bool :=
  x <- a ;; if x then ret true else b.

Definition andalso (a b : M bool) : M bool :=
  x <- a ;; if x then b else ret false.

(** [while ( cond() ) { }]: runs [cond] until it returns false. *)
Fixpoint while_ (fuel : nat) (cond : M bool) : M unit :=
  match fuel with
  | O => fun _ => OutOfFuel
  | S fuel' => x <- cond ;; if x then while_ fuel' cond else ret tt
  end.

(** A loop whose condition consumes input each time it holds needs at most
    one round per remaining character, and one more to fail. *)
Definition while_consuming (cond : M bool) : M unit :=
  fun self => while_ (S (remaining self)) cond self.

(** A call on [grammar_]. *)
Definition grammar (c : grammar_call) : M unit :=
  modify (fun self =>
    mk_GrammarParser (error_policy_ self) (grammar_ self ++ [c])
      (position_ self) (line_ self) (lexeme_ self) (errors_ self)).

(** [GrammarParser::error]: counts the error and, when there is an error
    policy, hands it the report. *)
Definition error (line column : Z) (e : error_code) (format : string)
    (args : list (list ascii)) : M unit :=
  modify (fun self =>
    mk_GrammarParser
      (match error_policy_ self with
       | Some reports =>
           Some (reports ++ [mk_error_report line column e format args])
       | None => None
       end)
      (grammar_ self) (position_ self) (line_ self) (lexeme_ self)
      (increment (errors_ self))).

Definition is_newline (character : ascii) : bool :=
  (Ascii.eqb character char_newline || Ascii.eqb character char_return)%bool.

(** ** Scanning loops

    Each local [const char* position] walks the same range, so a loop is a
    recursion over the characters still ahead of it.  The loops return the
    pointer they stop at (as the rest of the range) and, where the source
    assigns [lexeme_] from [position_] to that pointer, the characters in
    between. *)

(** The loop of [match_without_skipping_whitespace]: steps through the range
    and the keyword while they agree. *)
Fixpoint keyword_loop (position lexeme : list ascii)
    : list ascii * list ascii :=
  match position, lexeme with
  | c :: position', k :: lexeme' =>
      if Ascii.eqb c k then keyword_loop position' lexeme'
      else (position, lexeme)
  | _, _ => (position, lexeme)
  end.

(** The loop of [match_whitespace]; [newline] is false again at the end of
    every round, so each line feed and each carriage return adds a line. *)
Fixpoint whitespace_loop (newline : bool) (line : Z) (position : list ascii)
    : Z * list ascii :=
  match position with
  | c :: position' =>
      if isspace c then
        let line' :=
          if (negb newline &&
              (Ascii.eqb c char_newline || Ascii.eqb c char_return))%bool
          then increment line else line in
        whitespace_loop false line' position'
      else (line, position)
  | [] => (line, position)
  end.

(** The loop of [match_line_comment]: stops behind the first line end. *)
Fixpoint line_comment_loop (done : bool) (position : list ascii)
    : list ascii :=
  match position with
  | c :: position' =>
      if done then position
      else line_comment_loop
             (Ascii.eqb c char_newline || Ascii.eqb c char_return)%bool
             position'
  | [] => position
  end.

(** What [match_line_comment] does behind its loop. *)
Definition line_comment_end (position : list ascii) : list ascii :=
  match position with
  | c :: position' =>
      if Ascii.eqb c char_newline then
        match position' with
        | d :: position'' =>
            if Ascii.eqb d char_return then position'' else position'
        | [] => position'
        end
      else if Ascii.eqb c char_return then
        match position' with
        | d :: position'' =>
            if Ascii.eqb d char_newline then position'' else position'
        | [] => position'
        end
      else position
  | [] => position
  end.

(** The loop of [match_block_comment].  On a star it steps to the next
    character, tests it for a slash, and steps again whatever it was; when
    the star is the last character the second step leaves the range and the
    loop test reads there: the result is [None]. *)
Fixpoint block_comment_loop (done : bool) (position : list ascii)
    : option (list ascii) :=
  match position with
  | c :: position1 =>
      if done then Some position
      else if Ascii.eqb c char_star then
        match position1 with
        | d :: position2 =>
            block_comment_loop (Ascii.eqb d char_slash) position2
        | [] => None
        end
      else block_comment_loop false position1
  | [] => Some position
  end.

(** The loop of [match_literal]: stops at an unescaped quote, at a line end,
    or at [end_]. *)
Fixpoint literal_loop (escaped : bool) (position : list ascii)
    : list ascii * list ascii :=
  match position with
  | c :: position' =>
      if ((negb (Ascii.eqb c char_quote) || escaped) &&
          negb (is_newline c))%bool
      then
        let (scanned, stop) :=
          literal_loop (Ascii.eqb c char_backslash) position' in
        (c :: scanned, stop)
      else ([], position)
  | [] => ([], position)
  end.

(** The loop of [match_regex]: stops at an unescaped double quote or at
    [end_]. *)
Fixpoint regex_loop (escaped : bool) (position : list ascii)
    : list ascii * list ascii :=
  match position with
  | c :: position' =>
      if (negb (Ascii.eqb c char_dquote) || escaped)%bool
      then
        let (scanned, stop) :=
          regex_loop (Ascii.eqb c char_backslash) position' in
        (c :: scanned, stop)
      else ([], position)
  | [] => ([], position)
  end.

(** The loop of [match_identifier]. *)
Fixpoint identifier_loop (position : list ascii) : list ascii * list ascii :=
  match position with
  | c :: position' =>
      if (isalnum c || isdigit c || Ascii.eqb c char_underscore)%bool
      then
        let (scanned, stop) := identifier_loop position' in
        (c :: scanned, stop)
      else ([], position)
  | [] => ([], position)
  end.

(** ** The member functions of [GrammarParser], leaves first *)

Definition match_without_skipping_whitespace (lexeme : list ascii) : M bool :=
  fun self =>
    let (position, lexeme') := keyword_loop (position_ self) lexeme in
    match lexeme' with
    | [] => Returns true (set_position position self)
    | _ :: _ => Returns false self
    end.

Definition match_whitespace : M bool :=
  fun self =>
    match position_ self with
    | c :: _ =>
        if isspace c then
          let (line, position) :=
            whitespace_loop false (line_ self) (position_ self) in
          Returns true (set_position position (set_line line self))
        else Returns false self
    | [] => Returns false self
    end.

Definition match_line_comment : M bool :=
  b <- match_without_skipping_whitespace (chars "//") ;;
  if b then
    modify (fun self =>
      set_position
        (line_comment_end (line_comment_loop false (position_ self))) self) ;;
    ret true
  else ret false.

Definition match_block_comment : M bool :=
  b <- match_without_skipping_whitespace (chars "/*") ;;
  if b then
    fun self =>
      match block_comment_loop false (position_ self) with
      | Some position => Returns true (set_position position self)
      | None => ReadsPastEnd
      end
  else ret false.

Definition match_whitespace_and_comments : M bool :=
  while_consuming
    (orelse match_whitespace (orelse match_line_comment match_block_comment)) ;;
  ret true.

Definition match_end : M bool :=
  match_whitespace_and_comments ;;
  self <- get ;;
  ret (match position_ self with [] => true | _ :: _ => false end).

Definition match_ (keyword : list ascii) : M bool :=
  match_whitespace_and_comments ;;
  match_without_skipping_whitespace keyword.

Definition expect (lexeme : list ascii) : M bool :=
  b <- match_ lexeme ;;
  if b then ret true
  else
    modify (set_position []) ;;
    self <- get ;;
    error (line_ self) 0 LALR_ERROR_SYNTAX "expected '%s' not found" [lexeme] ;;
    ret false.

Definition match_identifier : M bool :=
  match_whitespace_and_comments ;;
  self <- get ;;
  match position_ self with
  | c :: position1 =>
      if (isalnum c || Ascii.eqb c char_underscore)%bool then
        let (scanned, position) := identifier_loop position1 in
        modify (set_lexeme (c :: scanned)) ;;
        modify (set_position position) ;;
        ret true
      else ret false
  | [] => ret false
  end.

Definition match_regex : M bool :=
  match_whitespace_and_comments ;;
  b <- match_ [char_dquote] ;;
  if b then
    self <- get ;;
    let (scanned, position) := regex_loop false (position_ self) in
    modify (set_lexeme scanned) ;;
    modify (set_position position) ;;
    expect [char_dquote] ;;
    ret true
  else ret false.

Definition match_literal : M bool :=
  match_whitespace_and_comments ;;
  b <- match_ [char_quote] ;;
  if b then
    self <- get ;;
    let (scanned, position) := literal_loop false (position_ self) in
    if match position with
       | [] => true
       | c :: _ => negb (is_newline c)
       end
    then
      modify (set_lexeme scanned) ;;
      modify (set_position position) ;;
      expect [char_quote] ;;
      ret true
    else
      error (line_ self) 0 LALR_ERROR_UNTERMINATED_LITERAL
        "unterminated literal" [] ;;
      ret false
  else ret false.

Definition match_error : M bool := match_ (chars "error").

(** The current lexeme and line, as passed to a call on [grammar_]. *)
Definition grammar_lexeme (call : list ascii -> Z -> grammar_call) : M unit :=
  self <- get ;; grammar (call (c_str (lexeme_ self)) (line_ self)).

Definition grammar_line (call : Z -> grammar_call) : M unit :=
  self <- get ;; grammar (call (line_ self)).

Definition match_symbol : M bool :=
  b <- match_error ;;
  if b then grammar_line call_error ;; ret true
  else
    b <- match_literal ;;
    if b then grammar_lexeme call_literal ;; ret true
    else
      b <- match_regex ;;
      if b then grammar_lexeme call_regex ;; ret true
      else
        b <- match_identifier ;;
        if b then grammar_lexeme call_identifier ;; ret true
        else ret false.

Definition match_symbols : M bool :=
  while_consuming match_symbol ;; ret true.

Definition match_associativity : M bool :=
  b <- match_ (chars "%left") ;;
  if b then grammar_line call_left ;; ret true
  else
    b <- match_ (chars "%right") ;;
    if b then grammar_line call_right ;; ret true
    else
      b <- match_ (chars "%none") ;;
      if b then grammar_line call_none ;; ret true
      else ret false.

Definition match_precedence : M bool :=
  b <- match_ (chars "%precedence") ;;
  if b then grammar call_precedence ;; match_symbol ;; ret true
  else ret false.

Definition match_action : M bool :=
  b <- match_ (chars "[") ;;
  if b then
    b <- match_identifier ;;
    (if b then grammar_lexeme call_action else ret tt) ;;
    expect (chars "]") ;;
    ret true
  else
    grammar_line call_end_expression ;;
    ret false.

Definition match_expression : M bool :=
  match_symbols ;;
  match_precedence ;;
  match_action ;;
  ret true.

Definition match_expressions : M bool :=
  match_expression ;;
  while_consuming (andalso (match_ (chars "|")) match_expression) ;;
  ret true.

Definition match_associativity_statement : M bool :=
  b <- match_associativity ;;
  if b then match_symbols ;; expect (chars ";") ;; ret true
  else ret false.

Definition match_whitespace_statement : M bool :=
  b <- match_ (chars "%whitespace") ;;
  if b then
    grammar call_whitespace ;;
    b <- match_regex ;;
    (if b then grammar_lexeme call_regex else ret tt) ;;
    expect (chars ";") ;;
    ret true
  else ret false.

Definition match_production_statement : M bool :=
  b <- match_identifier ;;
  if b then
    grammar_lexeme call_production ;;
    expect (chars ":") ;;
    match_expressions ;;
    expect (chars ";") ;;
    grammar call_end_production ;;
    ret true
  else ret false.

Definition match_statement : M bool :=
  orelse match_associativity_statement
    (orelse match_whitespace_statement match_production_statement).

Definition match_statements : M bool :=
  while_consuming match_statement ;; ret true.

Definition match_grammar : M bool :=
  b <- match_identifier ;;
  if b then
    self <- get ;;
    grammar (call_grammar (c_str (lexeme_ self))) ;;
    expect (chars "{") ;;
    match_statements ;;
    expect (chars "}") ;;
    match_end
  else ret false.

(** [GrammarParser::parse] on the parser [self]: the range from [start] to
    [finish] is the list [source]; [error_policy] and [grammar] are the
    collaborators as they are when the call is made. *)
Definition parse (self : GrammarParser) (source : list ascii)
    (error_policy : option (list error_report))
    (grammar : list grammar_call) : outcome Z :=
  (b <- match_grammar ;;
   (if b then ret tt
    else error 1 0 LALR_ERROR_SYNTAX "parsing grammar failed" []) ;;
   self' <- get ;;
   ret (errors_ self'))
  (mk_GrammarParser error_policy grammar source 1 (lexeme_ self) 0).

(** A parser as its constructor leaves it. *)
Definition GrammarParser_new : GrammarParser :=
  mk_GrammarParser None [] [] 1 [] 0.


(** ** Properties of member functions

    [ends_within n cost o]: the outcome [o] is not a loop cut short, and when
    it is a return, the unread input plus [cost] of the result is at most
    [n].  With cost one for [true], this says that a successful match
    consumed input. *)

Definition ends_within {A : Type} (n : nat) (cost : A -> nat)
    (o : outcome A) : Prop :=
  match o with
  | Returns a self' => (remaining self' + cost a <= n)%nat
  | ReadsPastEnd => True
  | OutOfFuel => False
  end.

Definition free {A : Type} (_ : A) : nat := 0.
Definition paid (b : bool) : nat := if b then 1 else 0.

(** [m] never returns with more input than it was given. *)
Definition shrinks {A : Type} (m : M A) : Prop :=
  forall self, ends_within (remaining self) free (m self).

(** [m] returns [true] only after consuming at least one character. *)
Definition consumes (m : M bool) : Prop :=
  forall self, ends_within (remaining self) paid (m self).

(** [with_state f o] applies [f] to the parser a call returned with;
    [ignores_lexeme m] says that [m] neither reads nor writes [lexeme_]. *)

Definition with_state {A : Type} (f : GrammarParser -> GrammarParser)
    (o : outcome A) : outcome A :=
  match o with
  | Returns a self => Returns a (f self)
  | ReadsPastEnd => ReadsPastEnd
  | OutOfFuel => OutOfFuel
  end.

Definition ignores_lexeme {A : Type} (m : M A) : Prop :=
  forall l self, m (set_lexeme l self) = with_state (set_lexeme l) (m self).

(** [unclosed q escaped body]: no character of [body] closes a token quoted
    with [q], that is, [q] occurs in [body] only right behind a backslash
    ([escaped] tells whether a backslash comes right before [body]). *)
Fixpoint unclosed (q : ascii) (escaped : bool) (body : list ascii) : bool :=
  match body with
  | [] => true
  | c :: body' =>
      (negb (Ascii.eqb c q) || escaped)
      && unclosed q (Ascii.eqb c char_backslash) body'
  end.

(** Whether the character behind [body] is escaped: whether the last
    character of [body] is a backslash. *)
Fixpoint escapes_next (escaped : bool) (body : list ascii) : bool :=
  match body with
  | [] => escaped
  | c :: body' => escapes_next (Ascii.eqb c char_backslash) body'
  end.

(** No character of [body] ends a line. *)
Definition on_one_line (body : list ascii) : bool :=
  forallb (fun c => negb (is_newline c)) body.

(** The parser after [GrammarParser::error] has been called on it. *)
Definition reported (line column : Z) (e : error_code) (format : string)
    (args : list (list ascii)) (self : GrammarParser) : GrammarParser :=
  mk_GrammarParser
    (option_map
       (fun reports => reports ++ [mk_error_report line column e format args])
       (error_policy_ self))
    (grammar_ self) (position_ self) (line_ self) (lexeme_ self)
    (increment (errors_ self)).

(** Whether the error policy was told of an error of kind [e]. *)
Definition told (e : error_code) (self : GrammarParser) : bool :=
  match error_policy_ self with
  | Some reports =>
      existsb
        (fun r =>
           match report_error r, e with
           | LALR_ERROR_SYNTAX, LALR_ERROR_SYNTAX => true
           | LALR_ERROR_UNTERMINATED_LITERAL, LALR_ERROR_UNTERMINATED_LITERAL =>
               true
           | _, _ => false
           end)
        reports
  | None => false
  end.

(** ** Sources used in the statements *)

(** The source of scenario 3: a literal that is still open at the end. *)
Definition literal_open_at_end : list ascii := chars "G { a : 'x ; }".

(** A literal cut by a line end, with more input behind it. *)
Definition literal_open_at_line_end : list ascii :=
  chars "G { a : 'x" ++ [char_newline] ++ chars " b ; }".

(** A comment whose body is one star, with a grammar behind it. *)
Definition star_comment : list ascii := chars "/***/ G { }".

(** A grammar followed by a comment that the input ends in, right behind a
    star. *)
Definition comment_open_at_star : list ascii := chars "G { } /* x *".

(** A regular expression of two lines whose last character is an escaped
    backslash, with a semicolon behind it. *)
Definition regex_escaped_backslash : list ascii :=
  [char_dquote] ++ chars "a" ++ [char_newline]
  ++ [char_backslash; char_backslash] ++ [char_dquote] ++ chars " ;".

(** ** Further notions used in the statements about the parser *)

(** The number of line feeds and carriage returns in [l]. *)
Definition line_ends (l : list ascii) : Z :=
  Z.of_nat (List.length (List.filter is_newline l)).

(** A character that can continue an identifier. *)
Definition identifier_character (c : ascii) : bool :=
  (isalnum c || Ascii.eqb c char_underscore)%bool.

(** Whether [position] is the end of the input or starts with something
    other than white space, [//] and [/*]. *)
Definition at_token (position : list ascii) : bool :=
  match position with
  | [] => true
  | c :: rest =>
      (negb (isspace c)
       && negb (Ascii.eqb c char_slash
                && match rest with
                   | d :: _ => Ascii.eqb d char_slash || Ascii.eqb d char_star
                   | [] => false
                   end))%bool
  end.

(** [position] without the line end it starts with, if it does; a line
    feed and a carriage return that follow each other, in either order, are
    one line end. *)
Definition drop_line_end (position : list ascii) : list ascii :=
  match position with
  | d :: rest =>
      if is_newline d then
        match rest with
        | e :: rest' =>
            if (is_newline e && negb (Ascii.eqb d e))%bool then rest'
            else rest
        | [] => rest
        end
      else position
  | [] => position
  end.

(** The way the loop of [match_block_comment] reads a comment body that it
    does not leave: a character that is not a star, or a star together with
    the character behind it, which is not a slash. *)
Fixpoint paired (body : list ascii) : bool :=
  match body with
  | [] => true
  | c :: body1 =>
      if Ascii.eqb c char_star then
        match body1 with
        | d :: body2 => (negb (Ascii.eqb d char_slash) && paired body2)%bool
        | [] => false
        end
      else paired body1
  end.

(** [self'] differs from [self] in [position_] and [line_] at most. *)
Definition moved (self self' : GrammarParser) : Prop :=
  self' = set_position (position_ self') (set_line (line_ self') self).

(** [self'] differs from [self] in [position_] at most. *)
Definition repositioned (self self' : GrammarParser) : Prop :=
  self' = set_position (position_ self') self.

(** From [self] to [self'] errors were only counted and reported (the same
    ones), and calls on the grammar only added. *)
Definition advances (self self' : GrammarParser) : Prop :=
  exists (reports : list error_report) (calls : list grammar_call),
    errors_ self' = Nat.iter (List.length reports) increment (errors_ self)
    /\ error_policy_ self'
       = option_map (fun before => before ++ reports) (error_policy_ self)
    /\ grammar_ self' = grammar_ self ++ calls.

(** [m] relates the parser it is called on to the one it returns with by
    [R]. *)
Definition respects (R : GrammarParser -> GrammarParser -> Prop)
    {A : Type} (m : M A) : Prop :=
  forall self,
    match m self with
    | Returns _ self' => R self self'
    | ReadsPastEnd => True
    | OutOfFuel => True
    end.

(** A condition that leaves the parser as it was when it fails. *)
Definition fails_in_place (cond : M bool) : Prop :=
  forall self self', cond self = Returns false self' -> self' = self.

(** The calls that the symbols, the precedence and the action of an
    expression make on the grammar. *)
Definition expression_call (c : grammar_call) : bool :=
  match c with
  | call_error _ | call_literal _ _ | call_regex _ _ | call_identifier _ _
  | call_precedence | call_action _ _ | call_end_expression _ => true
  | _ => false
  end.

(** From [self] to [self'] only calls of the kind [allowed] were made on
    the grammar. *)
Definition emits (allowed : grammar_call -> bool)
    (self self' : GrammarParser) : Prop :=
  exists calls,
    grammar_ self' = grammar_ self ++ calls
    /\ forallb allowed calls = true.

(** The calls that a symbol of an expression makes on the grammar. *)
Definition symbol_call (c : grammar_call) : bool :=
  match c with
  | call_error _ | call_literal _ _ | call_regex _ _ | call_identifier _ _ =>
      true
  | _ => false
  end.

(** No call at all. *)
Definition no_call (c : grammar_call) : bool := false.

(** Calls of expressions, closed by one [end_production]. *)
Fixpoint closes_production (calls : list grammar_call) : bool :=
  match calls with
  | [] => false
  | c :: rest =>
      match rest with
      | [] => match c with call_end_production => true | _ => false end
      | _ :: _ => (expression_call c && closes_production rest)%bool
      end
  end.

(** The calls of one statement of a grammar: an associativity with its
    symbols, the white space directive with at most one regular expression,
    or a production from [production] to [end_production]. *)
Definition statement_calls (calls : list grammar_call) : bool :=
  match calls with
  | call_left _ :: symbols | call_right _ :: symbols
  | call_none _ :: symbols => forallb symbol_call symbols
  | call_whitespace :: rest =>
      match rest with
      | [] => true
      | [call_regex _ _] => true
      | _ => false
      end
  | call_production _ _ :: rest => closes_production rest
  | _ => false
  end.

(** [self] with another error policy. *)
Definition set_error_policy (policy : option (list error_report))
    (self : GrammarParser) : GrammarParser :=
  mk_GrammarParser policy (grammar_ self) (position_ self) (line_ self)
    (lexeme_ self) (errors_ self).

(** An error policy after it has been handed [reports]; a null policy
    stays null. *)
Definition handed (reports : list error_report)
    (policy : option (list error_report)) : option (list error_report) :=
  option_map (fun before => before ++ reports) policy.

(** [m] does not look at the error policy. *)
Definition policy_free {A : Type} (m : M A) : Prop :=
  forall policy self,
    m (set_error_policy policy self)
    = with_state (set_error_policy policy) (m self).

(** [m] makes the same run under every error policy, a null one included:
    there are [reports] that it hands to whatever policy there is, and it
    increments [errors_] once for each of them. *)
Definition reports_alike {A : Type} (m : M A) : Prop :=
  forall self,
    match m self with
    | Returns a self' =>
        exists reports,
          errors_ self'
          = Nat.iter (List.length reports) increment (errors_ self)
          /\ forall policy,
               m (set_error_policy policy self)
               = Returns a
                   (set_error_policy (handed reports policy) self')
    | ReadsPastEnd =>
        forall policy, m (set_error_policy policy self) = ReadsPastEnd
    | OutOfFuel =>
        forall policy, m (set_error_policy policy self) = OutOfFuel
    end.

(** * The LR item ([Item.cpp]) *)

Module Item.

(** A [const Symbol*]: the address of a symbol, null being [0].  Items
    compare and store symbols by address only. *)
Definition Symbol_pointer : Type := N.

Definition null : Symbol_pointer := 0%N.

(** Modelled from the spec: the class [Production], whose header is not
    among the sources.  A production has an [index], a head and a
    body, the ordered sequence of its symbols; [length()] is the length of
    the body, and [symbol_by_position] the symbol at a position of the body,
    null outside it. *)
Record Production : Type := mk_Production {
  index : Z;
  head_symbol : Symbol_pointer;
  body_symbols : list Symbol_pointer
}.

Definition length (production : Production) : Z :=
  Z.of_nat (List.length (body_symbols production)).

Definition symbol_by_position (production : Production) (position : Z)
    : Symbol_pointer :=
  if (0 <=? position) && (position <? length production)
  then nth (Z.to_nat position) (body_symbols production) null
  else null.

(** The members of [Item].  [production_] is a pointer, null in an item made
    by the default constructor; [lookahead_symbols_] is declared [mutable].
    [int] and [size_t] values are integers here: a set of lookahead symbols
    holds no more than the symbols of the grammar. *)
Record Item : Type := mk_Item {
  production_ : option Production;
  position_ : Z;
  lookahead_symbols_ : gset Symbol_pointer
}.

(** [Item::Item()]. *)
Definition Item_default : Item := mk_Item None 0 ∅.

(** Modelled from the spec: the macro [SWEET_ASSERT] of [assert.hpp], which
    is not among the sources.  The invariant is said to be checked by the
    constructor's assertion: the assertion stops the program when its
    condition is false, and what follows it yields nothing. *)
Definition SWEET_ASSERT {A : Type} (condition : bool) (rest : option A)
    : option A :=
  if condition then rest else None.

(** [Item::Item( Production* production, int position )]: the item
    constructed, if both assertions hold. *)
Definition Item_new (production : option Production) (position : Z)
    : option Item :=
  match production with
  | None => SWEET_ASSERT false None
  | Some p =>
      SWEET_ASSERT ((0 <=? position) && (position <? length p + 1))
        (Some (mk_Item production position ∅))
  end.

Definition production (self : Item) : option Production := production_ self.

Definition position (self : Item) : Z := position_ self.

Definition dot_at_beginning (self : Item) : bool := position_ self =? 0.

(** The next three read through [production_]; on a null pointer there is
    no result. *)
Definition dot_at_end (self : Item) : option bool :=
  match production_ self with
  | Some p => Some (position_ self =? length p)
  | None => None
  end.

Definition next_node (self : Item) (symbol : Symbol_pointer) : option bool :=
  match production_ self with
  | Some p => Some (N.eqb (symbol_by_position p (position_ self)) symbol)
  | None => None
  end.

Definition less (self item : Item) : option bool :=
  match production_ self, production_ item with
  | Some p, Some q =>
      Some ((index p <? index q) ||
            ((index p =? index q) && (position_ self <? position_ item)))
  | _, _ => None
  end.

Definition lookahead_symbols (self : Item) : gset Symbol_pointer :=
  lookahead_symbols_ self.

(** [Item::add_lookahead_symbols]: the value returned, and the item with its
    mutable lookahead set after the call. *)
Definition add_lookahead_symbols (self : Item)
    (lookahead_symbols : gset Symbol_pointer) : Z * Item :=
  let original_size := size (lookahead_symbols_ self) in
  let self' :=
    mk_Item (production_ self) (position_ self)
      (lookahead_symbols_ self ∪ lookahead_symbols) in
  (Z.of_nat (size (lookahead_symbols_ self')) - Z.of_nat original_size, self').

(** The operations of the class on an existing item, and the item each one
    leaves behind. *)
Inductive operation : Type :=
| op_production
| op_position
| op_dot_at_beginning
| op_dot_at_end
| op_next_node (symbol : Symbol_pointer)
| op_lookahead_symbols
| op_less (item : Item)
| op_add_lookahead_symbols (lookahead_symbols : gset Symbol_pointer).

Definition after (self : Item) (op : operation) : Item :=
  match op with
  | op_add_lookahead_symbols lookahead_symbols =>
      snd (add_lookahead_symbols self lookahead_symbols)
  | _ => self
  end.

Definition after_all (self : Item) (ops : list operation) : Item :=
  fold_left after ops self.

(** The invariant of the data model: the dot lies within the body. *)
Definition dot_in_body (self : Item) : Prop :=
  exists p, production_ self = Some p /\ 0 <= position_ self <= length p.

End Item.

(** * The table generator, from the specification

    None of the generator (grammar model, item sets, lookaheads, table
    compiler) is among the sources; only a test that runs it is.  This
    module follows the specification, sections 3 and 4, and is used for the
    one property that is about the generator's result on that test. *)

Module Generator.

Local Open Scope nat_scope.

(** ** Sets of indices, kept as duplicate-free lists in insertion order *)

Definition mem (x : nat) (s : list nat) : bool := existsb (Nat.eqb x) s.

Definition add (x : nat) (s : list nat) : list nat :=
  if mem x s then s else s ++ [x].

Definition union (s t : list nat) : list nat :=
  fold_left (fun acc x => add x acc) t s.

Fixpoint name_eqb (a b : list ascii) : bool :=
  match a, b with
  | [], [] => true
  | x :: a', y :: b' => Ascii.eqb x y && name_eqb a' b'
  | _, _ => false
  end.

Fixpoint list_eqb (a b : list nat) : bool :=
  match a, b with
  | [], [] => true
  | x :: a', y :: b' => (x =? y) && list_eqb a' b'
  | _, _ => false
  end.

(** Modelled from the spec: repeats [f] until the size of what it computes
    no longer changes (the sets of the pipeline only grow); [None] when
    [fuel] rounds did not suffice. *)
Fixpoint iterate {A : Type} (size : A -> nat) (f : A -> A) (fuel : nat)
    (x : A) : option A :=
  match fuel with
  | O => None
  | S fuel' =>
      let y := f x in
      if size y =? size x then Some x else iterate size f fuel' y
  end.

(** ** Data model (specification, section 3) *)

Inductive symbol_kind : Type :=
| KindNonTerminal | KindTerminal | KindEndOfInput | KindError | KindNull.

Inductive lexeme_kind : Type :=
| LexemeLiteral | LexemeRegularExpression | LexemeNull.

Inductive associativity : Type :=
| AssociativityNone | AssociativityLeft | AssociativityRight.

(** Modelled from the spec: Symbol.  Until finalization [kind] is
    [KindNull], except for the [error] pseudo-terminal, and [symbol_index]
    is the order of first appearance. *)
Record Symbol : Type := mk_Symbol {
  identifier : list ascii;
  kind : symbol_kind;
  lexeme : lexeme_kind;
  precedence : nat;
  associativity_of : associativity;
  symbol_index : nat
}.

(** Modelled from the spec: Production.  Its symbols are referred to by
    index. *)
Record GrammarProduction : Type := mk_GrammarProduction {
  head : nat;
  body : list nat;
  precedence_symbol : option nat;
  action_identifier : option (list ascii);
  production_index : nat
}.

(** Modelled from the spec: Action. *)
Inductive Action : Type :=
| Shift (state : nat)
| Reduce (production : nat)
| Accept
| Error.

(** Modelled from the spec: what the error collaborator is told, by kind
    (section 6), with the warnings of section 7. *)
Inductive report : Type :=
| UNDEFINED_SYMBOL (identifier : list ascii)
| DUPLICATE_PRODUCTION (production : nat)
| PARSE_TABLE_CONFLICT (state terminal : nat) (kept dropped : Action)
| LEXICAL_CONFLICT (first second : nat)
| INTERNAL_LIMIT
| EMPTY_GRAMMAR
| UNREFERENCED_SYMBOL (identifier : list ascii)
| UNREACHABLE_NON_TERMINAL (identifier : list ascii)
| USELESS_PRODUCTION (production : nat).

(** Modelled from the spec: section 7: undefined symbols, duplicate
    productions, lexical conflicts and an exceeded limit are errors;
    unresolved conflicts and the rest are warnings. *)
Definition is_error (r : report) : bool :=
  match r with
  | UNDEFINED_SYMBOL _ | DUPLICATE_PRODUCTION _ | LEXICAL_CONFLICT _ _
  | INTERNAL_LIMIT => true
  | _ => false
  end.

(** ** The builder (section 4.A), driven by the calls the front-end makes *)

Inductive builder_state : Type :=
| AwaitingHead
| InAssociativity (a : associativity)
| InWhitespace
| InBody
| InPrecedence.

(** Modelled from the spec: the builder behind the facade. [level] is the
    last precedence level opened; the [alternative_] fields hold the
    alternative under construction, [alternative_open] telling whether
    anything was added to it since it was last closed. *)
Record Builder : Type := mk_Builder {
  name : list ascii;
  state : builder_state;
  symbols : list Symbol;
  productions : list GrammarProduction;
  whitespace_patterns : list (list ascii);
  level : nat;
  current_head : nat;
  alternative_body : list nat;
  alternative_precedence : option nat;
  alternative_open : bool
}.

Definition Builder_new : Builder :=
  mk_Builder [] AwaitingHead [] [] [] 0 0 [] None false.

Fixpoint find_symbol (id : list ascii) (l : list Symbol) : option nat :=
  match l with
  | [] => None
  | s :: l' =>
      if name_eqb (identifier s) id then Some (symbol_index s)
      else find_symbol id l'
  end.

(** Modelled from the spec: the symbol named [id], added to the table when
    it is new. *)
Definition intern (id : list ascii) (k : symbol_kind) (lx : lexeme_kind)
    (l : list Symbol) : nat * list Symbol :=
  match find_symbol id l with
  | Some i => (i, l)
  | None =>
      (List.length l,
       l ++ [mk_Symbol id k lx 0 AssociativityNone (List.length l)])
  end.

Definition set_precedence (i level : nat) (a : associativity)
    (l : list Symbol) : list Symbol :=
  map (fun s =>
         if symbol_index s =? i
         then mk_Symbol (identifier s) (kind s) (lexeme s) level a
                (symbol_index s)
         else s) l.

Definition in_state (st : builder_state) (b : Builder) : Builder :=
  mk_Builder (name b) st (symbols b) (productions b) (whitespace_patterns b)
    (level b) (current_head b) (alternative_body b)
    (alternative_precedence b) (alternative_open b).

Definition with_symbols (l : list Symbol) (b : Builder) : Builder :=
  mk_Builder (name b) (state b) l (productions b) (whitespace_patterns b)
    (level b) (current_head b) (alternative_body b)
    (alternative_precedence b) (alternative_open b).

(** Modelled from the spec: opens the next precedence level with
    associativity [a]. *)
Definition open_level (a : associativity) (b : Builder) : Builder :=
  mk_Builder (name b) (InAssociativity a) (symbols b) (productions b)
    (whitespace_patterns b) (S (level b)) (current_head b)
    (alternative_body b) (alternative_precedence b) (alternative_open b).

(** Modelled from the spec: closes the alternative under construction into a
    production. *)
Definition close_alternative (action : option (list ascii)) (b : Builder)
    : Builder :=
  mk_Builder (name b) InBody (symbols b)
    (productions b ++
       [mk_GrammarProduction (current_head b) (alternative_body b)
          (alternative_precedence b) action (List.length (productions b))])
    (whitespace_patterns b) (level b) (current_head b) [] None false.

(** Modelled from the spec: a reference to a symbol: what it means depends
    on the builder state. *)
Definition refer (id : list ascii) (k : symbol_kind) (lx : lexeme_kind)
    (b : Builder) : Builder :=
  match state b with
  | InWhitespace =>
      mk_Builder (name b) AwaitingHead (symbols b) (productions b)
        (whitespace_patterns b ++ [id]) (level b) (current_head b)
        (alternative_body b) (alternative_precedence b) (alternative_open b)
  | InAssociativity a =>
      let (i, l) := intern id k lx (symbols b) in
      with_symbols (set_precedence i (level b) a l) b
  | InBody =>
      let (i, l) := intern id k lx (symbols b) in
      mk_Builder (name b) InBody l (productions b) (whitespace_patterns b)
        (level b) (current_head b) (alternative_body b ++ [i])
        (alternative_precedence b) true
  | InPrecedence =>
      let (i, l) := intern id k lx (symbols b) in
      mk_Builder (name b) InBody l (productions b) (whitespace_patterns b)
        (level b) (current_head b) (alternative_body b) (Some i) true
  | AwaitingHead => b
  end.

Definition call (b : Builder) (c : grammar_call) : Builder :=
  match c with
  | call_grammar id =>
      mk_Builder id (state b) (symbols b) (productions b)
        (whitespace_patterns b) (level b) (current_head b)
        (alternative_body b) (alternative_precedence b) (alternative_open b)
  | call_left _ => open_level AssociativityLeft b
  | call_right _ => open_level AssociativityRight b
  | call_none _ => open_level AssociativityNone b
  | call_whitespace => in_state InWhitespace b
  | call_precedence => in_state InPrecedence b
  | call_production id _ =>
      let (i, l) := intern id KindNull LexemeNull (symbols b) in
      mk_Builder (name b) InBody l (productions b) (whitespace_patterns b)
        (level b) i [] None false
  | call_end_production =>
      in_state AwaitingHead
        (if alternative_open b then close_alternative None b else b)
  | call_end_expression _ => close_alternative None b
  | call_action id _ => close_alternative (Some id) b
  | call_error _ => refer (chars "error") KindError LexemeNull b
  | call_literal id _ => refer id KindNull LexemeLiteral b
  | call_regex id _ => refer id KindNull LexemeRegularExpression b
  | call_identifier id _ => refer id KindNull LexemeNull b
  end.

Definition build (calls : list grammar_call) : Builder :=
  fold_left call calls Builder_new.

(** ** Finalization (section 4.A) *)

(** Modelled from the spec: the finalized grammar.  The start symbol has
    index 0 and the augmented start production has index 0. *)
Record Grammar : Type := mk_Grammar {
  grammar_symbols : list Symbol;
  grammar_productions : list GrammarProduction;
  end_index : nat;
  error_index : nat;
  null_index : nat;
  grammar_whitespace : list (list ascii)
}.

Definition has_production (b : Builder) (i : nat) : bool :=
  existsb (fun p => head p =? i) (productions b).

(** Modelled from the spec: step 2: a symbol is a terminal iff no production
    has it as head or it is a literal or a regular expression. *)
Definition final_kind (b : Builder) (s : Symbol) : symbol_kind :=
  match kind s with
  | KindError => KindError
  | _ =>
      match lexeme s with
      | LexemeNull =>
          if has_production b (symbol_index s) then KindNonTerminal
          else KindTerminal
      | _ => KindTerminal
      end
  end.

Definition is_kind (k : symbol_kind) (b : Builder) (s : Symbol) : bool :=
  match final_kind b s, k with
  | KindNonTerminal, KindNonTerminal => true
  | KindTerminal, KindTerminal => true
  | KindError, KindError => true
  | _, _ => false
  end.

(** Modelled from the spec: step 4: the order of the final table, as the
    builder's indices; [None] marks a symbol the builder never saw. The
    start symbol comes first, then the non-terminals, then the end of input,
    the error symbol and the terminals, each group in order of appearance,
    and the null symbol last. *)
Definition final_order (b : Builder) : list (option nat) :=
  [None]
  ++ map (fun s => Some (symbol_index s))
       (List.filter (is_kind KindNonTerminal b) (symbols b))
  ++ [None]
  ++ [match List.filter (is_kind KindError b) (symbols b) with
      | s :: _ => Some (symbol_index s)
      | [] => None
      end]
  ++ map (fun s => Some (symbol_index s))
       (List.filter (is_kind KindTerminal b) (symbols b))
  ++ [None].

Fixpoint position_of (i : nat) (order : list (option nat)) (n : nat) : nat :=
  match order with
  | [] => n
  | Some j :: order' => if i =? j then n else position_of i order' (S n)
  | None :: order' => position_of i order' (S n)
  end.

Definition renumber (b : Builder) (i : nat) : nat :=
  position_of i (final_order b) 0.

Definition count_kind (k : symbol_kind) (b : Builder) : nat :=
  List.length (List.filter (is_kind k b) (symbols b)).

Definition final_end_index (b : Builder) : nat :=
  S (count_kind KindNonTerminal b).

Definition final_error_index (b : Builder) : nat :=
  S (final_end_index b).

Definition final_null_index (b : Builder) : nat :=
  S (final_error_index b) + count_kind KindTerminal b.

Definition special (id : string) (k : symbol_kind) (i : nat) : Symbol :=
  mk_Symbol (chars id) k LexemeNull 0 AssociativityNone i.

Definition final_symbol (b : Builder) (s : Symbol) : Symbol :=
  mk_Symbol (identifier s) (final_kind b s) (lexeme s) (precedence s)
    (associativity_of s) (renumber b (symbol_index s)).

Definition final_symbols (b : Builder) : list Symbol :=
  [special ".start" KindNonTerminal 0]
  ++ map (final_symbol b) (List.filter (is_kind KindNonTerminal b) (symbols b))
  ++ [special ".end" KindEndOfInput (final_end_index b)]
  ++ [match List.filter (is_kind KindError b) (symbols b) with
      | s :: _ => final_symbol b s
      | [] => special "error" KindError (final_error_index b)
      end]
  ++ map (final_symbol b) (List.filter (is_kind KindTerminal b) (symbols b))
  ++ [special ".null" KindNull (final_null_index b)].

Definition symbol_at (l : list Symbol) (i : nat) : Symbol :=
  nth i l (special ".null" KindNull i).

Definition is_terminal (l : list Symbol) (i : nat) : bool :=
  match kind (symbol_at l i) with KindTerminal => true | _ => false end.

Definition is_non_terminal (l : list Symbol) (i : nat) : bool :=
  match kind (symbol_at l i) with KindNonTerminal => true | _ => false end.

(** Modelled from the spec: step 5: without an explicit precedence symbol a
    production takes the rightmost terminal of its body. *)
Definition rightmost_terminal (l : list Symbol) (body : list nat)
    : option nat :=
  List.find (is_terminal l) (rev body).

Definition final_production (b : Builder) (p : GrammarProduction)
    : GrammarProduction :=
  let body' := map (renumber b) (body p) in
  mk_GrammarProduction (renumber b (head p)) body'
    (match precedence_symbol p with
     | Some s => Some (renumber b s)
     | None => rightmost_terminal (final_symbols b) body'
     end)
    (action_identifier p) (S (production_index p)).

(** Modelled from the spec: step 3: the start production [S' -> S $], [S]
    being the head of the first production. *)
Definition start_production (b : Builder) : GrammarProduction :=
  mk_GrammarProduction 0
    (match productions b with
     | p :: _ => [renumber b (head p); final_end_index b]
     | [] => [final_end_index b]
     end)
    None None 0.

Definition finalize (b : Builder) : Grammar :=
  mk_Grammar (final_symbols b)
    (start_production b :: map (final_production b) (productions b))
    (final_end_index b) (final_error_index b) (final_null_index b)
    (whitespace_patterns b).

(** Modelled from the spec: step 1: an identifier that no production defines
    is undefined. *)
Definition undefined_symbols (b : Builder) : list report :=
  map (fun s => UNDEFINED_SYMBOL (identifier s))
    (List.filter
       (fun s =>
          match kind s, lexeme s with
          | KindError, _ => false
          | _, LexemeNull => negb (has_production b (symbol_index s))
          | _, _ => false
          end)
       (symbols b)).

Definition same_signature (p q : GrammarProduction) : bool :=
  (head p =? head q) && list_eqb (body p) (body q).

Definition duplicate_productions (b : Builder) : list report :=
  map (fun p => DUPLICATE_PRODUCTION (S (production_index p)))
    (List.filter
       (fun p =>
          existsb (fun q => (production_index q <? production_index p)
                            && same_signature p q)
            (productions b))
       (productions b)).

(** ** Warnings about the grammar (sections 4.C, 4.F and 7) *)

Definition referenced (g : Grammar) (i : nat) : bool :=
  existsb (fun p => mem i (body p)) (grammar_productions g).

(** Modelled from the spec: a user symbol that no production body mentions.
    The special symbols are not reported. *)
Definition unreferenced_symbols (g : Grammar) : list report :=
  map (fun s => UNREFERENCED_SYMBOL (identifier s))
    (List.filter
       (fun s =>
          match kind s with
          | KindNonTerminal | KindTerminal =>
              negb (symbol_index s =? 0)
              && negb (referenced g (symbol_index s))
          | _ => false
          end)
       (grammar_symbols g)).

(** Modelled from the spec: the symbols reachable from the start symbol
    through production bodies. *)
Definition reach_step (g : Grammar) (seen : list nat) : list nat :=
  fold_left
    (fun acc p => if mem (head p) acc then union acc (body p) else acc)
    (grammar_productions g) seen.

Definition reachable (g : Grammar) : option (list nat) :=
  iterate (@List.length nat) (reach_step g)
    (S (List.length (grammar_symbols g))) [0].

Definition unreachable_non_terminals (g : Grammar) (seen : list nat)
    : list report :=
  map (fun s => UNREACHABLE_NON_TERMINAL (identifier s))
    (List.filter
       (fun s =>
          match kind s with
          | KindNonTerminal => negb (mem (symbol_index s) seen)
          | _ => false
          end)
       (grammar_symbols g)).

(** Modelled from the spec: the symbols that derive some string of
    terminals. *)
Definition productive_step (g : Grammar) (good : list nat) : list nat :=
  fold_left
    (fun acc p =>
       if forallb (fun x => mem x acc) (body p) then add (head p) acc
       else acc)
    (grammar_productions g) good.

Definition productive (g : Grammar) : option (list nat) :=
  iterate (@List.length nat) (productive_step g)
    (S (List.length (grammar_symbols g)))
    (map symbol_index
       (List.filter
          (fun s => match kind s with KindNonTerminal => false | _ => true end)
          (grammar_symbols g))).

Definition useless_productions (g : Grammar) (good : list nat)
    : list report :=
  map (fun p => USELESS_PRODUCTION (production_index p))
    (List.filter
       (fun p => negb (forallb (fun x => mem x good) (body p)))
       (grammar_productions g)).

(** ** FIRST sets (section 4.C)

    FIRST of a symbol is kept as its terminals and whether it contains the
    empty string. *)

Definition first_sets : Type := list (list nat * bool).

Definition first_of (firsts : first_sets) (x : nat) : list nat * bool :=
  nth x firsts ([], false).

(** Modelled from the spec: FIRST of a sequence: [FIRST(eps) = {eps}] and
    [FIRST(Y beta) = (FIRST(Y) - {eps}) + (FIRST(beta) if eps in FIRST(Y))]. *)
Fixpoint first_of_sequence (firsts : first_sets) (beta : list nat)
    : list nat * bool :=
  match beta with
  | [] => ([], true)
  | y :: beta' =>
      let (fy, ny) := first_of firsts y in
      if ny then
        let (fb, nb) := first_of_sequence firsts beta' in (union fy fb, nb)
      else (fy, false)
  end.

Definition initial_firsts (g : Grammar) : first_sets :=
  map (fun s =>
         match kind s with
         | KindNonTerminal | KindNull => ([], false)
         | _ => ([symbol_index s], false)
         end)
    (grammar_symbols g).

Fixpoint set_nth {A : Type} (i : nat) (x : A) (l : list A) : list A :=
  match l, i with
  | [], _ => []
  | _ :: l', O => x :: l'
  | y :: l', S i' => y :: set_nth i' x l'
  end.

Definition first_step (g : Grammar) (firsts : first_sets) : first_sets :=
  fold_left
    (fun fs p =>
       let (fx, nx) := first_of fs (head p) in
       let (fa, na) := first_of_sequence fs (body p) in
       set_nth (head p) (union fx fa, nx || na) fs)
    (grammar_productions g) firsts.

Definition firsts_size (firsts : first_sets) : nat :=
  fold_left
    (fun n (f : list nat * bool) =>
       n + List.length (fst f) + (if snd f then 1 else 0))
    firsts 0.

(** Modelled from the spec: computed by fixed-point iteration until no set
    changes. *)
Definition compute_firsts (g : Grammar) : option first_sets :=
  let n := List.length (grammar_symbols g) in
  iterate firsts_size (first_step g) (S (n * S n)) (initial_firsts g).

(** ** Items and LR(0) item sets (section 4.C) *)

(** Modelled from the spec: Item, a (production, dot-position) pair. *)
Definition item : Type := nat * nat.

Definition item_eqb (a b : item) : bool :=
  (fst a =? fst b) && (snd a =? snd b).

(** Modelled from the spec: the order of items within a state: by
    production, then by position. *)
Definition item_ltb (a b : item) : bool :=
  (fst a <? fst b) || ((fst a =? fst b) && (snd a <? snd b)).

Definition production_at (g : Grammar) (p : nat) : GrammarProduction :=
  nth p (grammar_productions g) (mk_GrammarProduction 0 [] None None p).

(** Modelled from the spec: the symbol immediately after the dot. *)
Definition next_symbol (g : Grammar) (it : item) : option nat :=
  nth_error (body (production_at g (fst it))) (snd it).

Definition next_is (g : Grammar) (x : nat) (it : item) : bool :=
  match next_symbol g it with
  | Some y => x =? y
  | None => false
  end.

Definition add_item (it : item) (l : list item) : list item :=
  if existsb (item_eqb it) l then l else l ++ [it].

(** Modelled from the spec: [Closure(I)]: for every item with a non-terminal
    [B] after the dot and every production [B -> gamma], add [B -> . gamma];
    to fixpoint. *)
Definition closure_step (g : Grammar) (items : list item) : list item :=
  fold_left
    (fun acc it =>
       match next_symbol g it with
       | Some b =>
           fold_left
             (fun acc' p =>
                if head p =? b then add_item (production_index p, 0) acc'
                else acc')
             (grammar_productions g) acc
       | None => acc
       end)
    items items.

Definition closure (g : Grammar) (items : list item) : option (list item) :=
  iterate (@List.length item) (closure_step g)
    (2 + List.length (grammar_productions g)) items.

Fixpoint insert_item (it : item) (l : list item) : list item :=
  match l with
  | [] => [it]
  | x :: l' =>
      if item_eqb it x then l
      else if item_ltb it x then it :: l
      else x :: insert_item it l'
  end.

(** Modelled from the spec: the kernel of [Goto(I, X)]: the items of [I]
    with [X] after the dot, advanced over it, in item order (the kernel
    signature). *)
Definition goto_kernel (g : Grammar) (items : list item) (x : nat)
    : list item :=
  fold_left
    (fun acc it => insert_item (fst it, S (snd it)) acc)
    (List.filter (next_is g x) items) [].

Fixpoint kernel_eqb (a b : list item) : bool :=
  match a, b with
  | [], [] => true
  | x :: a', y :: b' => item_eqb x y && kernel_eqb a' b'
  | _, _ => false
  end.

Fixpoint find_state (k : list item) (states : list (list item)) (n : nat)
    : option nat :=
  match states with
  | [] => None
  | s :: states' =>
      if kernel_eqb k s then Some n else find_state k states' (S n)
  end.

(** Modelled from the spec: the item-set graph: the kernels of the states,
    numbered in discovery order, and the transitions (from, symbol, to). *)
Record Automaton : Type := mk_Automaton {
  kernels : list (list item);
  transitions : list (nat * nat * nat)
}.

(** Modelled from the spec: the successors of state [i] with items [items],
    over the symbols in index order: an existing state with the same kernel
    signature is reused, otherwise a state is created. *)
Definition expand (g : Grammar) (i : nat) (items : list item)
    (a : Automaton) : Automaton :=
  fold_left
    (fun a x =>
       if existsb (next_is g x) items then
         let k := goto_kernel g items x in
         match find_state k (kernels a) 0 with
         | Some j => mk_Automaton (kernels a) (transitions a ++ [(i, x, j)])
         | None =>
             mk_Automaton (kernels a ++ [k])
               (transitions a ++ [(i, x, List.length (kernels a))])
         end
       else a)
    (seq 0 (List.length (grammar_symbols g))) a.

(** Modelled from the spec: what building the states can end in. *)
Inductive built (A : Type) : Type :=
| Built (a : A)
| LimitExceeded
| Unfinished.

Arguments Built {A} a.
Arguments LimitExceeded {A}.
Arguments Unfinished {A}.

(** Modelled from the spec: expands the states from the [i]th on until none
    is left; exceeding [limit] states is the one structural failure. *)
Fixpoint build_states (g : Grammar) (limit fuel i : nat) (a : Automaton)
    : built Automaton :=
  match fuel with
  | O => Unfinished
  | S fuel' =>
      match nth_error (kernels a) i with
      | None => Built a
      | Some k =>
          match closure g k with
          | None => Unfinished
          | Some items =>
              let a' := expand g i items a in
              if limit <? List.length (kernels a') then LimitExceeded
              else build_states g limit fuel' (S i) a'
          end
      end
  end.

(** Modelled from the spec: states start from the closure of the start item. *)
Definition item_sets (g : Grammar) (limit : nat) : built Automaton :=
  build_states g limit (2 + limit) 0 (mk_Automaton [[(0, 0)]] []).

Definition target (a : Automaton) (i x : nat) : option nat :=
  match List.find
          (fun t : nat * nat * nat => (fst (fst t) =? i) && (snd (fst t) =? x))
          (transitions a) with
  | Some t => Some (snd t)
  | None => None
  end.

(** ** Lookahead propagation (section 4.D) *)

(** Modelled from the spec: items with their lookahead sets, as in an LR(1)
    closure. *)
Definition lr1_items : Type := list (item * list nat).

Fixpoint add_lookaheads (it : item) (las : list nat) (c : lr1_items)
    : lr1_items :=
  match c with
  | [] => [(it, las)]
  | e :: c' =>
      if item_eqb it (fst e) then (fst e, union (snd e) las) :: c'
      else e :: add_lookaheads it las c'
  end.

(** Modelled from the spec: for an item [A -> alpha . B beta] with
    lookaheads [las]: FIRST of [beta a] over the [a] in [las]. *)
Definition lookaheads_after (g : Grammar) (firsts : first_sets) (it : item)
    (las : list nat) : list nat :=
  let beta := skipn (S (snd it)) (body (production_at g (fst it))) in
  let (fb, nb) := first_of_sequence firsts beta in
  if nb then union fb las else fb.

Definition closure1_step (g : Grammar) (firsts : first_sets) (c : lr1_items)
    : lr1_items :=
  fold_left
    (fun acc (e : item * list nat) =>
       match next_symbol g (fst e) with
       | Some b =>
           if is_non_terminal (grammar_symbols g) b then
             let las := lookaheads_after g firsts (fst e) (snd e) in
             fold_left
               (fun acc' p =>
                  if head p =? b
                  then add_lookaheads (production_index p, 0) las acc'
                  else acc')
               (grammar_productions g) acc
           else acc
       | None => acc
       end)
    c c.

Definition lr1_size (c : lr1_items) : nat :=
  fold_left (fun n (e : item * list nat) => n + 1 + List.length (snd e)) c 0.

Definition closure1 (g : Grammar) (firsts : first_sets) (c : lr1_items)
    : option lr1_items :=
  iterate lr1_size (closure1_step g firsts)
    (2 + S (List.length (grammar_productions g))
         * (2 + List.length (grammar_symbols g)))
    c.

Fixpoint kernel_position (it : item) (k : list item) (n : nat) : option nat :=
  match k with
  | [] => None
  | x :: k' => if item_eqb it x then Some n else kernel_position it k' (S n)
  end.

(** Modelled from the spec: a kernel item of a state: (state, position in
    the kernel). *)
Definition slot : Type := nat * nat.

(** Modelled from the spec: what is found for the kernel items: the
    spontaneously generated lookaheads and the propagation links. *)
Record Flow : Type := mk_Flow {
  spontaneous : list (slot * nat);
  links : list (slot * slot)
}.

(** Modelled from the spec: the marker lookahead [#]: an index no symbol
    has. *)
Definition marker (g : Grammar) : nat := List.length (grammar_symbols g).

(** Modelled from the spec: what one item of the closure of [K, #]
    contributes: each of its lookaheads reaches the successor kernel item,
    the marker as a link from [from], any other as a spontaneous lookahead. *)
Definition flow_of_item (g : Grammar) (a : Automaton) (from : slot)
    (e : item * list nat) (f : Flow) : Flow :=
  match next_symbol g (fst e) with
  | Some x =>
      match target a (fst from) x with
      | Some j =>
          match kernel_position (fst (fst e), S (snd (fst e)))
                  (nth j (kernels a) []) 0 with
          | Some n =>
              fold_left
                (fun f t =>
                   if t =? marker g
                   then mk_Flow (spontaneous f) (links f ++ [(from, (j, n))])
                   else mk_Flow (spontaneous f ++ [((j, n), t)]) (links f))
                (snd e) f
          | None => f
          end
      | None => f
      end
  | None => f
  end.

Fixpoint fold_option {A B : Type} (f : B -> A -> option B) (l : list A)
    (b : B) : option B :=
  match l with
  | [] => Some b
  | x :: l' =>
      match f b x with
      | Some b' => fold_option f l' b'
      | None => None
      end
  end.

Definition numbered {A : Type} (l : list A) : list (nat * A) :=
  combine (seq 0 (List.length l)) l.

Definition discover (g : Grammar) (firsts : first_sets) (a : Automaton)
    : option Flow :=
  fold_option
    (fun f (s : nat * list item) =>
       fold_option
         (fun f (k : nat * item) =>
            match closure1 g firsts [(snd k, [marker g])] with
            | Some c =>
                Some (fold_left
                        (fun f e => flow_of_item g a (fst s, fst k) e f)
                        c f)
            | None => None
            end)
         (numbered (snd s)) f)
    (numbered (kernels a)) (mk_Flow [] []).

(** Modelled from the spec: the lookahead sets of the kernel items, in a
    side table keyed by state and kernel position. *)
Definition lookahead_table : Type := list (list (list nat)).

Definition table_get (t : lookahead_table) (s : slot) : list nat :=
  nth (snd s) (nth (fst s) t []) [].

Definition table_add (t : lookahead_table) (s : slot) (las : list nat)
    : lookahead_table :=
  set_nth (fst s)
    (set_nth (snd s) (union (table_get t s) las) (nth (fst s) t [])) t.

Definition table_size (t : lookahead_table) : nat :=
  fold_left
    (fun n row => fold_left (fun n las => n + List.length las) row n) t 0.

(** Modelled from the spec: the start item is seeded with the end of input,
    and every kernel item with its spontaneously generated lookaheads. *)
Definition seed (g : Grammar) (a : Automaton) (f : Flow) : lookahead_table :=
  fold_left
    (fun t (e : slot * nat) => table_add t (fst e) [snd e])
    (spontaneous f)
    (table_add (map (map (fun _ => [])) (kernels a)) (0, 0) [end_index g]).

Definition propagate_step (f : Flow) (t : lookahead_table) : lookahead_table :=
  fold_left
    (fun t (l : slot * slot) => table_add t (snd l) (table_get t (fst l)))
    (links f) t.

(** Modelled from the spec: propagation to fixed point: until no link adds a
    lookahead. *)
Definition propagate (g : Grammar) (a : Automaton) (f : Flow)
    : option lookahead_table :=
  iterate table_size (propagate_step f)
    (2 + List.length (concat (kernels a))
         * S (List.length (grammar_symbols g)))
    (seed g a f).

(** ** The table compiler and conflict resolver (section 4.E) *)

Definition symbol_precedence (g : Grammar) (t : nat) : nat :=
  precedence (symbol_at (grammar_symbols g) t).

(** Modelled from the spec: the precedence and the associativity of a
    production are those of its precedence symbol, explicit or inherited. *)
Definition production_precedence (g : Grammar) (p : nat) : nat :=
  match precedence_symbol (production_at g p) with
  | Some s => symbol_precedence g s
  | None => 0
  end.

Definition production_associativity (g : Grammar) (p : nat) : associativity :=
  match precedence_symbol (production_at g p) with
  | Some s => associativity_of (symbol_at (grammar_symbols g) s)
  | None => AssociativityNone
  end.

(** Modelled from the spec: shift/reduce: the action kept, and whether the
    conflict is unresolved. *)
Definition shift_reduce (g : Grammar) (t s p : nat) : Action * bool :=
  let p_s := symbol_precedence g t in
  let p_r := production_precedence g p in
  if (p_s =? 0) || (p_r =? 0) then (Shift s, true)
  else if p_r <? p_s then (Shift s, false)
  else if p_s <? p_r then (Reduce p, false)
  else
    match production_associativity g p with
    | AssociativityLeft => (Reduce p, false)
    | AssociativityRight => (Shift s, false)
    | AssociativityNone => (Shift s, true)
    end.

(** Modelled from the spec: two candidates for one cell: the one kept, the
    one dropped, and whether the conflict is unresolved. Equal candidates do
    not conflict; what the specification leaves open (a candidate against
    [Accept]) counts as unresolved. *)
Definition resolve (g : Grammar) (t : nat) (current candidate : Action)
    : Action * Action * bool :=
  match current, candidate with
  | Error, _ => (candidate, Error, false)
  | _, Error => (current, Error, false)
  | Shift s, Reduce p =>
      let (k, u) := shift_reduce g t s p in
      (k, match k with Shift _ => candidate | _ => current end, u)
  | Reduce p, Shift s =>
      let (k, u) := shift_reduce g t s p in
      (k, match k with Shift _ => current | _ => candidate end, u)
  | Reduce p, Reduce q =>
      if p =? q then (current, candidate, false)
      else if p <? q then (current, candidate, true)
      else (candidate, current, true)
  | Shift s, Shift s' => (current, candidate, negb (s =? s'))
  | Accept, Accept => (current, candidate, false)
  | Accept, _ => (current, candidate, true)
  | _, Accept => (candidate, current, true)
  end.

Definition is_shiftable (g : Grammar) (x : nat) : bool :=
  match kind (symbol_at (grammar_symbols g) x) with
  | KindTerminal | KindError => true
  | _ => false
  end.

(** Modelled from the spec: the candidates of one item of state [i]: a
    reduction on each lookahead when the dot is at the end, [Accept] for [S'
    -> S . $], a shift when a terminal follows the dot. *)
Definition candidates (g : Grammar) (a : Automaton) (i : nat)
    (e : item * list nat) : list (nat * Action) :=
  match next_symbol g (fst e) with
  | None => map (fun t => (t, Reduce (fst (fst e)))) (snd e)
  | Some x =>
      if (fst (fst e) =? 0) && (x =? end_index g) then
        if mem (end_index g) (snd e) then [(x, Accept)] else []
      else if is_shiftable g x then
        match target a i x with
        | Some j => [(x, Shift j)]
        | None => []
        end
      else []
  end.

(** Modelled from the spec: one row of the action table, with the conflicts
    met while filling it. *)
Record Row : Type := mk_Row {
  cells : list (nat * Action);
  conflicts : list report
}.

Fixpoint cell (t : nat) (l : list (nat * Action)) : Action :=
  match l with
  | [] => Error
  | e :: l' => if fst e =? t then snd e else cell t l'
  end.

Fixpoint set_cell (t : nat) (x : Action) (l : list (nat * Action))
    : list (nat * Action) :=
  match l with
  | [] => [(t, x)]
  | e :: l' => if fst e =? t then (t, x) :: l' else e :: set_cell t x l'
  end.

Definition place (g : Grammar) (i : nat) (r : Row) (c : nat * Action) : Row :=
  match resolve g (fst c) (cell (fst c) (cells r)) (snd c) with
  | (kept, dropped, unresolved) =>
      mk_Row (set_cell (fst c) kept (cells r))
        (if unresolved
         then conflicts r ++ [PARSE_TABLE_CONFLICT i (fst c) kept dropped]
         else conflicts r)
  end.

(** Modelled from the spec: the items of state [i] with their lookaheads:
    the closure of the kernel items under the lookaheads the propagation
    found. *)
Definition state_items (g : Grammar) (firsts : first_sets) (a : Automaton)
    (t : lookahead_table) (i : nat) : option lr1_items :=
  closure1 g firsts (combine (nth i (kernels a) []) (nth i t [])).

Definition compile_row (g : Grammar) (a : Automaton) (i : nat)
    (items : lr1_items) : Row :=
  fold_left (place g i) (flat_map (candidates g a i) items) (mk_Row [] []).

(** Modelled from the spec: the goto entries of state [i]: its transitions
    on non-terminals. *)
Definition goto_row (g : Grammar) (a : Automaton) (i : nat)
    : list (nat * nat) :=
  map (fun t : nat * nat * nat => (snd (fst t), snd t))
    (List.filter
       (fun t : nat * nat * nat =>
          (fst (fst t) =? i) && is_non_terminal (grammar_symbols g) (snd (fst t)))
       (transitions a)).

(** Modelled from the spec: the emitted artifact, with the lexical-analyzer
    artifact [L] of the external lexical builder. *)
Record Artifact (L : Type) : Type := mk_Artifact {
  artifact_symbols : list Symbol;
  artifact_productions : list (nat * nat * option (list ascii) * nat);
  artifact_actions : list (list (nat * Action));
  artifact_gotos : list (list (nat * nat));
  artifact_start_state : nat;
  artifact_end_index : nat;
  artifact_error_index : nat;
  artifact_lexical_analyzer : L
}.

Arguments mk_Artifact {L}.

(** Modelled from the spec: the reduce metadata of a production: head, body
    length, action and precedence. *)
Definition production_entry (g : Grammar) (p : GrammarProduction)
    : nat * nat * option (list ascii) * nat :=
  (head p, List.length (body p), action_identifier p,
   production_precedence g (production_index p)).

Definition compile (g : Grammar) (firsts : first_sets) (a : Automaton)
    (t : lookahead_table) : option (list Row) :=
  fold_option
    (fun rows i =>
       match state_items g firsts a t i with
       | Some items => Some (rows ++ [compile_row g a i items])
       | None => None
       end)
    (seq 0 (List.length (kernels a))) [].

(** ** The lexical builder adapter (section 4.F) *)

(** Modelled from the spec: a terminal pattern, tagged with the index of its
    symbol. *)
Record Pattern : Type := mk_Pattern {
  pattern_kind : lexeme_kind;
  pattern_text : list ascii;
  pattern_symbol : nat
}.

Definition patterns (g : Grammar) : list Pattern :=
  flat_map
    (fun s =>
       match kind s, lexeme s with
       | KindTerminal, LexemeLiteral
       | KindTerminal, LexemeRegularExpression =>
           [mk_Pattern (lexeme s) (identifier s) (symbol_index s)]
       | _, _ => []
       end)
    (grammar_symbols g).

(** ** Generation *)

(** Modelled from the spec: the result of the top-level generate operation.
    The artifact is absent when an error was reported. *)
Record Generated (L : Type) : Type := mk_Generated {
  artifact : option (Artifact L);
  reports : list report;
  unresolved_conflicts : nat
}.

Arguments mk_Generated {L}.
Arguments artifact {L}.
Arguments reports {L}.
Arguments unresolved_conflicts {L}.

Definition grammar_warnings (b : Builder) (g : Grammar)
    (seen good : list nat) : list report :=
  (match productions b with [] => [EMPTY_GRAMMAR] | _ :: _ => [] end)
  ++ unreferenced_symbols g
  ++ unreachable_non_terminals g seen
  ++ useless_productions g good.

(** Modelled from the spec: sections 4.C to 4.E on a finalized grammar:
    FIRST sets, item sets (at most [limit] states), lookaheads, and the rows
    of the action table. [None] only when one of the fixed-point iterations
    was cut short. *)
Definition tables (g : Grammar) (limit : nat)
    : option (built (Automaton * list Row)) :=
  firsts ← compute_firsts g;
  match item_sets g limit with
  | Unfinished => None
  | LimitExceeded => Some LimitExceeded
  | Built a =>
      flow ← discover g firsts a;
      table ← propagate g a flow;
      rows ← compile g firsts a table;
      Some (Built (a, rows))
  end.

(** Modelled from the spec: the pipeline on the calls the front-end made:
    build and finalize the grammar, stop on semantic errors, otherwise
    compile the tables and hand the patterns to the external
    [lexical_builder]. *)
Definition generate {L : Type} (limit : nat)
    (lexical_builder : list Pattern -> list (list ascii) -> L * list report)
    (calls : list grammar_call) : option (Generated L) :=
  let b := build calls in
  let g := finalize b in
  seen ← reachable g;
  good ← productive g;
  let warnings := grammar_warnings b g seen good in
  match undefined_symbols b ++ duplicate_productions b with
  | (_ :: _) as errors => Some (mk_Generated None (errors ++ warnings) 0)
  | [] =>
      compiled ← tables g limit;
      match compiled with
      | Unfinished => None
      | LimitExceeded =>
          Some (mk_Generated None (warnings ++ [INTERNAL_LIMIT]) 0)
      | Built (a, rows) =>
          let found := flat_map conflicts rows in
          let (lexical_analyzer, lexical) :=
            lexical_builder (patterns g) (grammar_whitespace g) in
          let all := warnings ++ found ++ lexical in
          Some (mk_Generated
                  (if existsb is_error all then None
                   else Some (mk_Artifact (grammar_symbols g)
                                (map (production_entry g)
                                   (grammar_productions g))
                                (map cells rows)
                                (map (goto_row g a)
                                   (seq 0 (List.length (kernels a))))
                                0 (end_index g) (error_index g)
                                lexical_analyzer))
                  all (List.length found))
      end
  end.

(** ** The grammar of the precedence test

    The calls that [ExpressionsThatRequireShiftReduceConflictResolution]
    makes on the grammar, in the builder's vocabulary: a character is a
    literal, [[nil]] closes an alternative without an action, and a string
    is an identifier where it names a production ([unit], [expr],
    [integer]) and a regular expression otherwise.  The test passes no
    lines. *)
Definition expressions_grammar : list grammar_call :=
  [ call_whitespace; call_regex (chars "[ \t\r\n]*") 0;
    call_left 0; call_literal (chars "+") 0; call_literal (chars "-") 0;
    call_left 0; call_literal (chars "*") 0; call_literal (chars "/") 0;
    call_none 0; call_identifier (chars "integer") 0;
    call_production (chars "unit") 0;
      call_identifier (chars "expr") 0; call_end_expression 0;
    call_end_production;
    call_production (chars "expr") 0;
      call_identifier (chars "expr") 0; call_literal (chars "+") 0;
      call_identifier (chars "expr") 0; call_end_expression 0;
      call_identifier (chars "expr") 0; call_literal (chars "-") 0;
      call_identifier (chars "expr") 0; call_end_expression 0;
      call_identifier (chars "expr") 0; call_literal (chars "*") 0;
      call_identifier (chars "expr") 0; call_end_expression 0;
      call_identifier (chars "expr") 0; call_literal (chars "/") 0;
      call_identifier (chars "expr") 0; call_end_expression 0;
      call_identifier (chars "integer") 0; call_end_expression 0;
    call_end_production;
    call_production (chars "integer") 0;
      call_regex (chars "[0-9]+") 0;
    call_end_production ].

(** ** Clean results *)

(** Whether the grammar built from [calls] is free of semantic errors and
    of warnings. *)
Definition clean_grammar (calls : list grammar_call) : bool :=
  let b := build calls in
  let g := finalize b in
  match reachable g, productive g with
  | Some seen, Some good =>
      match undefined_symbols b ++ duplicate_productions b,
            grammar_warnings b g seen good with
      | [], [] => true
      | _, _ => false
      end
  | _, _ => false
  end.

(** Tables of fourteen states without a conflict. *)
Definition conflict_free (t : option (built (Automaton * list Row))) : bool :=
  match t with
  | Some (Built (a, rows)) =>
      (List.length (kernels a) =? 14)
      && match flat_map conflicts rows with [] => true | _ :: _ => false end
  | _ => false
  end.

End Generator.

(** ** From source text to the artifact *)

(** Modelled from the spec: what the top-level generate operation gives on
    grammar source text: the artifact, if any, the reports of the front-end
    and of the generator, and the error count. *)
Record Generation (L : Type) : Type := mk_Generation {
  generation_artifact : option (Generator.Artifact L);
  syntax_reports : list error_report;
  generator_reports : list Generator.report;
  error_count : Z
}.

Arguments mk_Generation {L}.
Arguments generation_artifact {L}.
Arguments syntax_reports {L}.
Arguments generator_reports {L}.
Arguments error_count {L}.

(** Modelled from the spec: the top-level generate operation on grammar
    source text (sections 2 and 7).  A fresh parser parses the text for a
    fresh error policy and a fresh grammar.  Errors of the front-end abort
    table construction: the artifact is absent and the error count is the
    one the front-end returns.  Otherwise the calls made on the grammar are
    handed to [Generator.generate].  [None] when the front-end reads beyond
    the text or an iteration of the generator is cut short. *)
Definition generate_from_source {L : Type} (limit : nat)
    (lexical_builder :
       list Generator.Pattern -> list (list ascii)
       -> L * list Generator.report)
    (source : list ascii) : option (Generation L) :=
  match parse GrammarParser_new source (Some []) [] with
  | Returns errors after =>
      let told :=
        match error_policy_ after with
        | Some reports => reports
        | None => []
        end in
      if errors =? 0 then
        match Generator.generate limit lexical_builder (grammar_ after) with
        | Some generated =>
            Some (mk_Generation (Generator.artifact generated) told
                    (Generator.reports generated)
                    (Z.of_nat
                       (List.length
                          (List.filter Generator.is_error
                             (Generator.reports generated)))))
        | None => None
        end
      else Some (mk_Generation None told [] errors)
  | ReadsPastEnd => None
  | OutOfFuel => None
  end.
(** ** Every loop bound suffices *)

Section Termination.

Local Open Scope nat_scope.

Lemma ends_within_le {A : Type} (n n' : nat) (cost : A -> nat) o :
  ends_within n cost o -> n <= n' -> ends_within n' cost o.
Proof. destruct o; simpl; auto; lia. Qed.

Lemma ends_within_free {A : Type} (n : nat) (cost : A -> nat) o :
  ends_within n cost o -> ends_within n free o.
Proof. destruct o; unfold free; simpl; auto; lia. Qed.

Lemma consumes_shrinks (m : M bool) : consumes m -> shrinks m.
Proof. intros H self. eapply ends_within_free, H. Qed.

Lemma ends_bind {A B : Type} (m : M A) (k : A -> M B) self n
    (cost : B -> nat) :
  ends_within n free (m self) ->
  (forall a self', m self = Returns a self' ->
     ends_within (remaining self') cost (k a self')) ->
  ends_within n cost (bind m k self).
Proof.
  unfold bind. destruct (m self) as [a self'| |]; simpl; auto.
  intros Hle Hk. unfold free in Hle.
  eapply ends_within_le; [apply (Hk a self' eq_refl) | lia].
Qed.

Lemma ends_if (c : M bool) (kt kf : M bool) self n :
  ends_within n paid (c self) ->
  (forall self', ends_within (remaining self') free (kt self')) ->
  (forall self', ends_within (remaining self') paid (kf self')) ->
  ends_within n paid (bind c (fun b => if b then kt else kf) self).
Proof.
  unfold bind. destruct (c self) as [[|] self'| |]; simpl; auto.
  - intros Hc Ht _. specialize (Ht self').
    destruct (kt self') as [b s| |]; simpl in *; auto.
    unfold free in Ht. destruct b; simpl; lia.
  - intros Hc _ Hf. eapply ends_within_le; [apply Hf | lia].
Qed.

Lemma shrinks_ret {A : Type} (a : A) : shrinks (ret a).
Proof. intros self. unfold free. simpl. lia. Qed.

Lemma consumes_ret_false : consumes (ret false).
Proof. intros self. simpl. lia. Qed.

Lemma shrinks_bind {A B : Type} (m : M A) (k : A -> M B) :
  shrinks m -> (forall a, shrinks (k a)) -> shrinks (bind m k).
Proof.
  intros Hm Hk self. apply ends_bind; [apply Hm |].
  intros a self' _. apply Hk.
Qed.

Lemma consumes_if (c kt kf : M bool) :
  consumes c -> shrinks kt -> consumes kf ->
  consumes (bind c (fun b => if b then kt else kf)).
Proof.
  intros Hc Ht Hf self. apply ends_if; [apply Hc | apply Ht | apply Hf].
Qed.

Lemma consumes_seq {A : Type} (m : M A) (c : M bool) :
  shrinks m -> consumes c -> consumes (bind m (fun _ => c)).
Proof.
  intros Hm Hc self. apply ends_bind; [apply Hm |].
  intros a self' _. apply Hc.
Qed.

Lemma shrinks_get : shrinks get.
Proof. intros self. unfold free. simpl. lia. Qed.

Lemma shrinks_modify (f : GrammarParser -> GrammarParser) :
  (forall self, remaining (f self) <= remaining self) -> shrinks (modify f).
Proof. intros H self. unfold free. simpl. specialize (H self). lia. Qed.

Lemma shrinks_grammar c : shrinks (grammar c).
Proof. apply shrinks_modify. intros self. unfold remaining. simpl. lia. Qed.

Lemma shrinks_error line column e format args :
  shrinks (error line column e format args).
Proof. apply shrinks_modify. intros self. unfold remaining. simpl. lia. Qed.

Lemma shrinks_set_lexeme l : shrinks (modify (set_lexeme l)).
Proof. apply shrinks_modify. intros self. unfold remaining. simpl. lia. Qed.

Lemma shrinks_set_position_nil : shrinks (modify (set_position [])).
Proof. apply shrinks_modify. intros self. unfold remaining. simpl. lia. Qed.

(** The loop rule: a condition that consumes input whenever it holds can
    hold at most once per character. *)
Lemma while_ends (cond : M bool) :
  consumes cond ->
  forall fuel self, remaining self < fuel ->
    ends_within (remaining self) free (while_ fuel cond self).
Proof.
  intros Hc. induction fuel as [|fuel IH]; intros self Hlt; [lia |].
  simpl. unfold bind. specialize (Hc self).
  destruct (cond self) as [[|] self'| |]; simpl in *; auto.
  eapply ends_within_le; [apply IH |]; lia.
Qed.

Lemma shrinks_while_consuming (cond : M bool) :
  consumes cond -> shrinks (while_consuming cond).
Proof.
  intros Hc self. unfold while_consuming. apply while_ends; auto.
Qed.

End Termination.

(** ** What the scanning loops leave *)

Section Loops.

Local Open Scope nat_scope.

Lemma keyword_loop_length (lexeme position : list ascii) :
  length (fst (keyword_loop position lexeme)) + length lexeme =
  length position + length (snd (keyword_loop position lexeme)).
Proof.
  revert lexeme. induction position as [|c position IH]; intros lexeme.
  - destruct lexeme; simpl; lia.
  - destruct lexeme as [|k lexeme]; simpl; [lia |].
    destruct (Ascii.eqb c k); simpl; [| lia].
    specialize (IH lexeme). lia.
Qed.

Lemma whitespace_loop_length (position : list ascii) :
  forall newline line,
    length (snd (whitespace_loop newline line position)) <= length position.
Proof.
  induction position as [|c position IH]; intros newline line; simpl; [lia |].
  destruct (isspace c); simpl; [| lia].
  etransitivity; [apply IH | lia].
Qed.

Lemma line_comment_loop_length (position : list ascii) :
  forall done, length (line_comment_loop done position) <= length position.
Proof.
  induction position as [|c position IH]; intros done; simpl; [lia |].
  destruct done; simpl; [lia |].
  etransitivity; [apply IH | lia].
Qed.

Lemma line_comment_end_length (position : list ascii) :
  length (line_comment_end position) <= length position.
Proof.
  destruct position as [|c [|d position]]; simpl;
    repeat match goal with
           | |- context [if ?b then _ else _] => destruct b; simpl
           end; lia.
Qed.

Lemma block_comment_loop_length (n : nat) :
  forall position done stop,
    length position <= n ->
    block_comment_loop done position = Some stop ->
    length stop <= length position.
Proof.
  induction n as [|n IH]; intros position done stop Hn.
  - destruct position; simpl in *; [| lia].
    intros H. injection H as <-. simpl. lia.
  - destruct position as [|c position1]; simpl.
    + intros H. injection H as <-. simpl. lia.
    + destruct done; [intros H; injection H as <-; simpl; lia |].
      destruct (Ascii.eqb c char_star).
      * destruct position1 as [|d position2]; [discriminate |].
        intros H. apply IH in H; simpl in *; lia.
      * intros H. apply IH in H; simpl in *; lia.
Qed.

Lemma literal_loop_app (position : list ascii) :
  forall escaped,
    position = fst (literal_loop escaped position) ++
               snd (literal_loop escaped position).
Proof.
  induction position as [|c position IH]; intros escaped; simpl; auto.
  destruct ((negb (Ascii.eqb c char_quote) || escaped) &&
            negb (is_newline c))%bool; simpl; auto.
  specialize (IH (Ascii.eqb c char_backslash)).
  destruct (literal_loop (Ascii.eqb c char_backslash) position); simpl in *.
  congruence.
Qed.

Lemma regex_loop_app (position : list ascii) :
  forall escaped,
    position = fst (regex_loop escaped position) ++
               snd (regex_loop escaped position).
Proof.
  induction position as [|c position IH]; intros escaped; simpl; auto.
  destruct (negb (Ascii.eqb c char_dquote) || escaped)%bool; simpl; auto.
  specialize (IH (Ascii.eqb c char_backslash)).
  destruct (regex_loop (Ascii.eqb c char_backslash) position); simpl in *.
  congruence.
Qed.

Lemma identifier_loop_app (position : list ascii) :
  position = fst (identifier_loop position) ++ snd (identifier_loop position).
Proof.
  induction position as [|c position IH]; simpl; auto.
  destruct (isalnum c || isdigit c || Ascii.eqb c char_underscore)%bool;
    simpl; auto.
  destruct (identifier_loop position); simpl in *. congruence.
Qed.

Lemma stop_length (position scanned stop : list ascii) :
  position = scanned ++ stop -> length stop <= length position.
Proof. intros ->. rewrite length_app. lia. Qed.

End Loops.

(** ** No member function is cut short *)

Section MemberFunctions.

Local Open Scope nat_scope.

Create HintDb ends discriminated.

Hint Resolve shrinks_ret consumes_ret_false shrinks_get shrinks_grammar
  shrinks_error shrinks_set_lexeme shrinks_set_position_nil
  consumes_shrinks : ends.

(** Takes a [shrinks] or [consumes] goal apart along the shape of the
    function: sequences, branches on a result, and known leaves. *)
Ltac ends_tac :=
  repeat first
    [ progress intros
    | match goal with
      | |- shrinks (if ?b then _ else _) => destruct b
      | |- consumes (if ?b then _ else _) => destruct b
      | |- consumes (bind _ (fun b => if b then _ else _)) => apply consumes_if
      | |- consumes (bind _ (fun _ => _)) => apply consumes_seq
      | |- shrinks (bind _ _) => apply shrinks_bind
      | |- consumes (orelse _ _) => unfold orelse
      | |- consumes (andalso _ _) => unfold andalso
      | |- shrinks (while_consuming _) => apply shrinks_while_consuming
      end
    | solve [auto with ends] ].

Lemma consumes_match_without_skipping_whitespace (k : ascii)
    (lexeme : list ascii) :
  consumes (match_without_skipping_whitespace (k :: lexeme)).
Proof.
  intros self. unfold match_without_skipping_whitespace.
  pose proof (keyword_loop_length (k :: lexeme) (position_ self)) as H.
  destruct (keyword_loop (position_ self) (k :: lexeme)) as [position lexeme'].
  simpl in H.
  destruct lexeme'; unfold ends_within, remaining; simpl in *; lia.
Qed.

Lemma consumes_match_whitespace : consumes match_whitespace.
Proof.
  intros self. unfold match_whitespace.
  destruct (position_ self) as [|c position] eqn:E; [simpl; lia |].
  destruct (isspace c) eqn:Hc; [| simpl; lia].
  simpl. rewrite Hc.
  pose proof (whitespace_loop_length position false
    (if (Ascii.eqb c char_newline || Ascii.eqb c char_return)%bool
     then increment (line_ self) else line_ self)) as H.
  destruct (whitespace_loop _ _ position) as [line stop].
  unfold ends_within, remaining. simpl in *. rewrite E. simpl. lia.
Qed.

Lemma consumes_match_line_comment : consumes match_line_comment.
Proof.
  unfold match_line_comment. apply consumes_if.
  - apply consumes_match_without_skipping_whitespace.
  - apply shrinks_bind; [| intros; apply shrinks_ret].
    apply shrinks_modify. intros self. unfold remaining. simpl.
    etransitivity; [apply line_comment_end_length |].
    apply line_comment_loop_length.
  - apply consumes_ret_false.
Qed.

Lemma consumes_match_block_comment : consumes match_block_comment.
Proof.
  unfold match_block_comment. apply consumes_if.
  - apply consumes_match_without_skipping_whitespace.
  - intros self.
    destruct (block_comment_loop false (position_ self)) as [stop|] eqn:E;
      simpl; auto.
    apply (block_comment_loop_length _ _ _ _ (le_n _)) in E.
    unfold free, remaining. simpl. lia.
  - apply consumes_ret_false.
Qed.

Hint Resolve consumes_match_without_skipping_whitespace
  consumes_match_whitespace consumes_match_line_comment
  consumes_match_block_comment : ends.

Lemma shrinks_match_whitespace_and_comments :
  shrinks match_whitespace_and_comments.
Proof. unfold match_whitespace_and_comments. ends_tac. Qed.

Hint Resolve shrinks_match_whitespace_and_comments : ends.

Lemma shrinks_match_end : shrinks match_end.
Proof. unfold match_end. ends_tac. Qed.

Lemma consumes_match_ (k : ascii) (keyword : list ascii) :
  consumes (match_ (k :: keyword)).
Proof. unfold match_. ends_tac. Qed.

Hint Resolve shrinks_match_end consumes_match_ : ends.

Lemma shrinks_expect (k : ascii) (lexeme : list ascii) :
  shrinks (expect (k :: lexeme)).
Proof. unfold expect. ends_tac. Qed.

Hint Resolve shrinks_expect : ends.

(** [lexeme_.assign( position_, position ); position_ = position;] with
    [position] inside the unread range. *)
Lemma assign_ends {A : Type} (scanned stop : list ascii) (rest : M A) self :
  length stop <= remaining self ->
  shrinks rest ->
  ends_within (remaining self) free
    ((modify (set_lexeme scanned) ;; modify (set_position stop) ;; rest) self).
Proof.
  intros Hle Hrest. unfold bind, modify.
  eapply ends_within_le; [apply Hrest |]. unfold remaining. simpl. exact Hle.
Qed.

Lemma consumes_match_identifier : consumes match_identifier.
Proof.
  unfold match_identifier. apply consumes_seq; [auto with ends |].
  intros self. unfold bind at 1, get.
  destruct (position_ self) as [|c position1] eqn:E;
    [apply consumes_ret_false |].
  destruct (isalnum c || Ascii.eqb c char_underscore)%bool;
    [| apply consumes_ret_false].
  pose proof (stop_length _ _ _ (identifier_loop_app position1)) as H.
  destruct (identifier_loop position1) as [scanned stop].
  unfold bind, modify, ret, ends_within, remaining, paid. simpl in *.
  rewrite E. simpl. lia.
Qed.

Lemma consumes_match_regex : consumes match_regex.
Proof.
  unfold match_regex. apply consumes_seq; [auto with ends |].
  intros self. apply ends_if; [apply consumes_match_ | | apply consumes_ret_false].
  intros self'. unfold bind at 1, get.
  pose proof (stop_length _ _ _ (regex_loop_app (position_ self') false)) as H.
  destruct (regex_loop false (position_ self')) as [scanned stop].
  apply assign_ends; [exact H | ends_tac].
Qed.

Lemma consumes_match_literal : consumes match_literal.
Proof.
  unfold match_literal. apply consumes_seq; [auto with ends |].
  intros self. apply ends_if; [apply consumes_match_ | | apply consumes_ret_false].
  intros self'. unfold bind at 1, get.
  pose proof (stop_length _ _ _ (literal_loop_app (position_ self') false)) as H.
  destruct (literal_loop false (position_ self')) as [scanned stop].
  match goal with |- context [if ?b then _ else _] => destruct b end.
  - apply assign_ends; [exact H | ends_tac].
  - apply shrinks_bind; ends_tac.
Qed.

Lemma consumes_match_error : consumes match_error.
Proof. apply consumes_match_. Qed.

Hint Resolve consumes_match_identifier consumes_match_regex
  consumes_match_literal consumes_match_error : ends.

Lemma shrinks_grammar_lexeme call : shrinks (grammar_lexeme call).
Proof. unfold grammar_lexeme. ends_tac. Qed.

Lemma shrinks_grammar_line call : shrinks (grammar_line call).
Proof. unfold grammar_line. ends_tac. Qed.

Hint Resolve shrinks_grammar_lexeme shrinks_grammar_line : ends.

Lemma consumes_match_symbol : consumes match_symbol.
Proof. unfold match_symbol. ends_tac. Qed.

Hint Resolve consumes_match_symbol : ends.

Lemma shrinks_match_symbols : shrinks match_symbols.
Proof. unfold match_symbols. ends_tac. Qed.

Lemma consumes_match_associativity : consumes match_associativity.
Proof. unfold match_associativity, chars. simpl. ends_tac. Qed.

Hint Resolve shrinks_match_symbols consumes_match_associativity : ends.

Lemma shrinks_match_precedence : shrinks match_precedence.
Proof. unfold match_precedence, chars. simpl. ends_tac. Qed.

Lemma shrinks_match_action : shrinks match_action.
Proof. unfold match_action, chars. simpl. ends_tac. Qed.

Hint Resolve shrinks_match_precedence shrinks_match_action : ends.

Lemma shrinks_match_expression : shrinks match_expression.
Proof. unfold match_expression. ends_tac. Qed.

Hint Resolve shrinks_match_expression : ends.

Lemma shrinks_match_expressions : shrinks match_expressions.
Proof. unfold match_expressions, chars. simpl. ends_tac. Qed.

Hint Resolve shrinks_match_expressions : ends.

Lemma consumes_match_associativity_statement :
  consumes match_associativity_statement.
Proof. unfold match_associativity_statement, chars. simpl. ends_tac. Qed.

Lemma consumes_match_whitespace_statement :
  consumes match_whitespace_statement.
Proof. unfold match_whitespace_statement, chars. simpl. ends_tac. Qed.

Lemma consumes_match_production_statement :
  consumes match_production_statement.
Proof. unfold match_production_statement, chars. simpl. ends_tac. Qed.

Hint Resolve consumes_match_associativity_statement
  consumes_match_whitespace_statement
  consumes_match_production_statement : ends.

Lemma consumes_match_statement : consumes match_statement.
Proof. unfold match_statement. ends_tac. Qed.

Hint Resolve consumes_match_statement : ends.

Lemma shrinks_match_statements : shrinks match_statements.
Proof. unfold match_statements. ends_tac. Qed.

Hint Resolve shrinks_match_statements : ends.

Lemma shrinks_match_grammar : shrinks match_grammar.
Proof. unfold match_grammar, chars. simpl. ends_tac. Qed.

End MemberFunctions.

(** ** What a parse keeps of the parser's past

    [parse] assigns every member but [lexeme_].  Skipping whitespace and
    comments neither reads nor writes [lexeme_], and the first thing
    [match_grammar] does with it is to assign it. *)

Section StaleLexeme.

Lemma ignores_lexeme_ret {A : Type} (a : A) : ignores_lexeme (ret a).
Proof. intros l self. reflexivity. Qed.

Lemma ignores_lexeme_bind {A B : Type} (m : M A) (k : A -> M B) :
  ignores_lexeme m -> (forall a, ignores_lexeme (k a)) ->
  ignores_lexeme (bind m k).
Proof.
  intros Hm Hk l self. unfold bind. rewrite Hm.
  destruct (m self) as [a self'| |]; simpl; auto. apply Hk.
Qed.

Lemma ignores_lexeme_orelse (a b : M bool) :
  ignores_lexeme a -> ignores_lexeme b -> ignores_lexeme (orelse a b).
Proof.
  intros Ha Hb. apply ignores_lexeme_bind; auto.
  intros [|]; auto using ignores_lexeme_ret.
Qed.

Lemma ignores_lexeme_while (cond : M bool) :
  ignores_lexeme cond -> forall fuel, ignores_lexeme (while_ fuel cond).
Proof.
  intros Hc. induction fuel as [|fuel IH]; [intros l self; reflexivity |].
  simpl. apply ignores_lexeme_bind; auto.
  intros [|]; auto using ignores_lexeme_ret.
Qed.

Lemma ignores_lexeme_while_consuming (cond : M bool) :
  ignores_lexeme cond -> ignores_lexeme (while_consuming cond).
Proof.
  intros Hc l self. unfold while_consuming.
  rewrite (ignores_lexeme_while cond Hc). reflexivity.
Qed.

Lemma ignores_lexeme_match_without_skipping_whitespace lexeme :
  ignores_lexeme (match_without_skipping_whitespace lexeme).
Proof.
  intros l self. unfold match_without_skipping_whitespace. simpl.
  destruct (keyword_loop (position_ self) lexeme) as [position [|k lexeme']];
    reflexivity.
Qed.

Lemma ignores_lexeme_match_whitespace : ignores_lexeme match_whitespace.
Proof.
  intros l self. unfold match_whitespace. simpl.
  destruct (position_ self) as [|c position]; [reflexivity |].
  destruct (isspace c); [| reflexivity].
  destruct (whitespace_loop false (line_ self) (c :: position)); reflexivity.
Qed.

Lemma ignores_lexeme_match_line_comment : ignores_lexeme match_line_comment.
Proof.
  unfold match_line_comment. apply ignores_lexeme_bind.
  - apply ignores_lexeme_match_without_skipping_whitespace.
  - intros [|]; [| apply ignores_lexeme_ret].
    intros l self. reflexivity.
Qed.

Lemma ignores_lexeme_match_block_comment : ignores_lexeme match_block_comment.
Proof.
  unfold match_block_comment. apply ignores_lexeme_bind.
  - apply ignores_lexeme_match_without_skipping_whitespace.
  - intros [|]; [| apply ignores_lexeme_ret].
    intros l self. simpl.
    destruct (block_comment_loop false (position_ self)); reflexivity.
Qed.

Lemma ignores_lexeme_match_whitespace_and_comments :
  ignores_lexeme match_whitespace_and_comments.
Proof.
  unfold match_whitespace_and_comments. apply ignores_lexeme_bind.
  - apply ignores_lexeme_while_consuming.
    repeat apply ignores_lexeme_orelse.
    + apply ignores_lexeme_match_whitespace.
    + apply ignores_lexeme_match_line_comment.
    + apply ignores_lexeme_match_block_comment.
  - intros _. apply ignores_lexeme_ret.
Qed.

(** A matched identifier replaces whatever [lexeme_] held; a failed match
    leaves it alone. *)
Lemma match_identifier_stale_lexeme (l : list ascii) (self : GrammarParser) :
  match_identifier (set_lexeme l self) =
  match match_identifier self with
  | Returns true self' => Returns true self'
  | Returns false self' => Returns false (set_lexeme l self')
  | ReadsPastEnd => ReadsPastEnd
  | OutOfFuel => OutOfFuel
  end.
Proof.
  unfold match_identifier, bind.
  rewrite ignores_lexeme_match_whitespace_and_comments.
  destruct (match_whitespace_and_comments self) as [b self'| |]; simpl; auto.
  destruct (position_ self') as [|c position1]; simpl; auto.
  destruct (isalnum c || Ascii.eqb c char_underscore)%bool; simpl; auto.
  destruct (identifier_loop position1) as [scanned stop]. reflexivity.
Qed.

End StaleLexeme.

(** ** Tokens *)

Section Tokens.

Lemma keyword_mismatch (self : GrammarParser) (c k : ascii)
    (rest keyword : list ascii) :
  position_ self = c :: rest ->
  Ascii.eqb c k = false ->
  match_without_skipping_whitespace (k :: keyword) self = Returns false self.
Proof.
  intros Hp Hc. unfold match_without_skipping_whitespace.
  rewrite Hp. cbn [keyword_loop]. rewrite Hc. reflexivity.
Qed.

(** In front of a character that is neither white space nor a slash there
    is nothing to skip. *)
Lemma nothing_to_skip (self : GrammarParser) (c : ascii) (rest : list ascii) :
  position_ self = c :: rest ->
  isspace c = false ->
  Ascii.eqb c char_slash = false ->
  match_whitespace_and_comments self = Returns true self.
Proof.
  intros Hp Hs Hc.
  assert (Hw : match_whitespace self = Returns false self).
  { unfold match_whitespace. rewrite Hp, Hs. reflexivity. }
  assert (Hl : match_line_comment self = Returns false self).
  { unfold match_line_comment, bind, chars. cbn [list_ascii_of_string].
    rewrite (keyword_mismatch self c _ rest _ Hp Hc). reflexivity. }
  assert (Hb : match_block_comment self = Returns false self).
  { unfold match_block_comment, bind, chars. cbn [list_ascii_of_string].
    rewrite (keyword_mismatch self c _ rest _ Hp Hc). reflexivity. }
  unfold match_whitespace_and_comments, while_consuming, bind at 1.
  cbn [while_]. unfold bind at 1, orelse at 1, bind at 1.
  rewrite Hw. unfold orelse, bind. rewrite Hl, Hb. reflexivity.
Qed.

(** A one-character keyword at the front of the range is matched and
    stepped over. *)
Lemma match_one (self : GrammarParser) (c : ascii) (rest : list ascii) :
  position_ self = c :: rest ->
  isspace c = false ->
  Ascii.eqb c char_slash = false ->
  match_ [c] self = Returns true (set_position rest self).
Proof.
  intros Hp Hs Hc. unfold match_, bind.
  rewrite (nothing_to_skip self c rest Hp Hs Hc).
  unfold match_without_skipping_whitespace. rewrite Hp.
  cbn [keyword_loop]. rewrite Ascii.eqb_refl.
  destruct rest; reflexivity.
Qed.

Lemma literal_loop_unclosed (body : list ascii) :
  forall escaped c rest,
    unclosed char_quote escaped body = true ->
    on_one_line body = true ->
    is_newline c = true ->
    literal_loop escaped (body ++ c :: rest) = (body, c :: rest).
Proof.
  induction body as [|x body IH]; intros escaped c rest Hu Hl Hc.
  - simpl. rewrite Hc. rewrite andb_false_r. reflexivity.
  - simpl in *.
    apply andb_prop in Hu as [Hx Hu]. apply andb_prop in Hl as [Hn Hl].
    rewrite Hx, Hn. simpl.
    rewrite (IH _ c rest Hu Hl Hc). reflexivity.
Qed.

Lemma regex_loop_unclosed (body : list ascii) :
  forall escaped rest,
    unclosed char_dquote escaped body = true ->
    escapes_next escaped body = false ->
    regex_loop escaped (body ++ char_dquote :: rest)
    = (body, char_dquote :: rest).
Proof.
  induction body as [|x body IH]; intros escaped rest Hu He.
  - simpl in *. subst escaped. reflexivity.
  - simpl in *. apply andb_prop in Hu as [Hx Hu].
    rewrite Hx. rewrite (IH _ rest Hu He). reflexivity.
Qed.

(** What [match_identifier] does at a character that nothing is skipped
    in front of: it matches iff the character is a letter, a digit or an
    underscore. *)
Lemma match_identifier_first_character (self : GrammarParser) (c : ascii)
    (rest : list ascii) :
  position_ self = c :: rest ->
  isspace c = false ->
  Ascii.eqb c char_slash = false ->
  match_identifier self =
  if (isalnum c || Ascii.eqb c char_underscore)%bool
  then Returns true
         (set_position (snd (identifier_loop rest))
            (set_lexeme (c :: fst (identifier_loop rest)) self))
  else Returns false self.
Proof.
  intros Hp Hs Hc. unfold match_identifier, bind.
  rewrite (nothing_to_skip self c rest Hp Hs Hc). unfold get. rewrite Hp.
  destruct (isalnum c || Ascii.eqb c char_underscore)%bool; [| reflexivity].
  destruct (identifier_loop rest) as [scanned stop]. reflexivity.
Qed.

(** A failed [expect] leaves the position at the end of the input. *)
Lemma expect_failure_at_end (lexeme : list ascii)
    (self self' : GrammarParser) :
  expect lexeme self = Returns false self' -> position_ self' = [].
Proof.
  unfold expect, bind.
  destruct (match_ lexeme self) as [[|] after| |]; simpl;
    intros H; try discriminate.
  injection H as <-. reflexivity.
Qed.

(** A block comment without a star in its body is skipped exactly. *)
Lemma block_comment_loop_plain (body rest : list ascii) :
  forallb (fun c => negb (Ascii.eqb c char_star)) body = true ->
  block_comment_loop false (body ++ char_star :: char_slash :: rest)
  = Some rest.
Proof.
  induction body as [|c body IH]; intros Hplain.
  - simpl. destruct rest; reflexivity.
  - simpl in *. apply andb_prop in Hplain as [Hc Hplain].
    apply negb_true_iff in Hc. rewrite Hc. apply IH, Hplain.
Qed.

Lemma keyword_loop_nil (position : list ascii) :
  keyword_loop position [] = (position, []).
Proof. destruct position; reflexivity. Qed.

Lemma match_block_comment_plain (self : GrammarParser)
    (body rest : list ascii) :
  position_ self
  = char_slash :: char_star :: body ++ char_star :: char_slash :: rest ->
  forallb (fun c => negb (Ascii.eqb c char_star)) body = true ->
  match_block_comment self = Returns true (set_position rest self).
Proof.
  intros Hp Hplain.
  unfold match_block_comment, bind, match_without_skipping_whitespace.
  rewrite Hp. unfold chars. cbn [list_ascii_of_string keyword_loop].
  change "/"%char with char_slash. change "*"%char with char_star.
  rewrite !Ascii.eqb_refl, keyword_loop_nil. cbn [position_ set_position].
  rewrite (block_comment_loop_plain body rest Hplain). reflexivity.
Qed.

End Tokens.

(** * The front-end: statements of the specification *)

(** The state in which [parse] starts [match_grammar]. *)
Lemma parse_unfold (self : GrammarParser) (source : list ascii)
    (error_policy : option (list error_report))
    (grammar : list grammar_call) :
  parse self source error_policy grammar =
  match match_grammar
          (set_lexeme (lexeme_ self)
             (mk_GrammarParser error_policy grammar source 1 [] 0)) with
  | Returns true after => Returns (errors_ after) after
  | Returns false after =>
      Returns (increment (errors_ after))
        (reported 1 0 LALR_ERROR_SYNTAX "parsing grammar failed" [] after)
  | ReadsPastEnd => ReadsPastEnd
  | OutOfFuel => OutOfFuel
  end.
Proof.
  unfold parse, bind, set_lexeme. simpl.
  destruct (match_grammar _) as [[|] after| |]; reflexivity.
Qed.

Lemma match_grammar_stale_lexeme (l : list ascii) (self : GrammarParser) :
  match_grammar (set_lexeme l self) =
  match match_identifier self with
  | Returns false self' => Returns false (set_lexeme l self')
  | _ => match_grammar self
  end.
Proof.
  unfold match_grammar, bind. rewrite match_identifier_stale_lexeme.
  destruct (match_identifier self) as [[|] self'| |]; reflexivity.
Qed.

(** C1 (as amended).  On [G { a : 'x ; }] the literal scan reaches the end
    of the input, takes everything behind the quote as the literal, and it
    is [expect] that reports the missing closing quote, as a syntax error:
    [parse] returns 3 after three [LALR_ERROR_SYNTAX] reports at line 1, the
    line of the literal (the quote, then the semicolon and the brace that
    the literal swallowed), none of them an unterminated literal, and the
    top-level operation produces no artifact from this source. *)
Theorem parse_literal_open_at_end (self : GrammarParser) :
  parse self literal_open_at_end (Some []) [] =
  Returns 3
    (mk_GrammarParser
       (Some
          [mk_error_report 1 0 LALR_ERROR_SYNTAX "expected '%s' not found"
             [chars "'"];
           mk_error_report 1 0 LALR_ERROR_SYNTAX "expected '%s' not found"
             [chars ";"];
           mk_error_report 1 0 LALR_ERROR_SYNTAX "expected '%s' not found"
             [chars "}"]])
       [call_grammar (chars "G"); call_production (chars "a") 1;
        call_literal (chars "x ; }") 1; call_end_expression 1;
        call_end_production]
       [] 1 (chars "x ; }") 3)
  /\ forall (L : Type) (limit : nat)
       (lexical_builder :
          list Generator.Pattern -> list (list ascii)
          -> L * list Generator.report),
       generate_from_source limit lexical_builder literal_open_at_end
       = Some
           (mk_Generation None
              [mk_error_report 1 0 LALR_ERROR_SYNTAX
                 "expected '%s' not found" [chars "'"];
               mk_error_report 1 0 LALR_ERROR_SYNTAX
                 "expected '%s' not found" [chars ";"];
               mk_error_report 1 0 LALR_ERROR_SYNTAX
                 "expected '%s' not found" [chars "}"]]
              [] 3).
Proof.
  split; [vm_compute; reflexivity |].
  intros L limit lexical_builder. vm_compute. reflexivity.
Qed.

(** C1 (as stated) fails: on [G { a : 'x ; }] the error policy is never
    told of an [LALR_ERROR_UNTERMINATED_LITERAL]. *)
Lemma literal_open_at_end_not_unterminated :
  ~ (exists errors after,
       parse GrammarParser_new literal_open_at_end (Some []) []
       = Returns errors after
       /\ told LALR_ERROR_UNTERMINATED_LITERAL after = true).
Proof.
  intros (errors & after & Hparse & Htold).
  vm_compute in Hparse. injection Hparse as _ <-.
  vm_compute in Htold. discriminate.
Qed.

(** C2.  After the unterminated-literal error the position is not at the
    end of the input: [match_literal] leaves it right behind the opening
    quote, and [parse] goes on to match [x] and [b] as identifiers and the
    semicolon and brace behind them. *)
Theorem parse_continues_after_unterminated_literal :
  match_literal
    (mk_GrammarParser (Some []) [] (chars "'x" ++ [char_newline] ++ chars " b ; }")
       1 [] 0)
  = Returns false
      (mk_GrammarParser
         (Some [mk_error_report 1 0 LALR_ERROR_UNTERMINATED_LITERAL
                  "unterminated literal" []])
         [] (chars "x" ++ [char_newline] ++ chars " b ; }") 1 [] 1)
  /\ parse GrammarParser_new literal_open_at_line_end (Some []) []
     = Returns 1
         (mk_GrammarParser
            (Some [mk_error_report 1 0 LALR_ERROR_UNTERMINATED_LITERAL
                     "unterminated literal" []])
            [call_grammar (chars "G"); call_production (chars "a") 1;
             call_identifier (chars "x") 1; call_identifier (chars "b") 2;
             call_end_expression 2; call_end_production]
            [] 2 (chars "b") 1).
Proof. split; vm_compute; reflexivity. Qed.

(** C3.  An identifier may start with a digit: the test of the first
    character is [isalnum], so [1abc] is matched whole. *)
Theorem match_identifier_leading_digit :
  match_identifier (mk_GrammarParser (Some []) [] (chars "1abc ;") 1 [] 0)
  = Returns true
      (mk_GrammarParser (Some []) [] (chars " ;") 1 (chars "1abc") 0).
Proof. vm_compute. reflexivity. Qed.

(** C4.  Where the next token opens with a quote and the characters behind
    it reach a line end before a closing quote, [match_literal] fails and
    reports [LALR_ERROR_UNTERMINATED_LITERAL] at the current line. *)
Theorem match_literal_unterminated (before self : GrammarParser)
    (body : list ascii) (c : ascii) (rest : list ascii) :
  match_whitespace_and_comments before = Returns true self ->
  position_ self = char_quote :: body ++ c :: rest ->
  unclosed char_quote false body = true ->
  on_one_line body = true ->
  is_newline c = true ->
  match_literal before =
  Returns false
    (reported (line_ self) 0 LALR_ERROR_UNTERMINATED_LITERAL
       "unterminated literal" []
       (set_position (body ++ c :: rest) self)).
Proof.
  intros Hskip Hp Hu Hl Hc.
  unfold match_literal. unfold bind at 1. rewrite Hskip.
  unfold bind at 1.
  rewrite (match_one self char_quote _ Hp eq_refl eq_refl).
  unfold bind at 1, get. cbn [position_ set_position].
  rewrite (literal_loop_unclosed body false c rest Hu Hl Hc).
  rewrite Hc. cbn [negb].
  unfold bind, error, modify, ret, reported. simpl.
  destruct (error_policy_ self); reflexivity.
Qed.

Lemma match_literal_unterminated_witness :
  match_literal
    (mk_GrammarParser (Some []) []
       (chars "  'a\'b" ++ [char_return] ++ chars "' c") 7 [] 0)
  = Returns false
      (mk_GrammarParser
         (Some [mk_error_report 7 0 LALR_ERROR_UNTERMINATED_LITERAL
                  "unterminated literal" []])
         [] (chars "a\'b" ++ [char_return] ++ chars "' c") 7 [] 1).
Proof.
  apply (match_literal_unterminated
           (mk_GrammarParser (Some []) []
              (chars "  'a\'b" ++ [char_return] ++ chars "' c") 7 [] 0)
           (mk_GrammarParser (Some []) []
              (chars "'a\'b" ++ [char_return] ++ chars "' c") 7 [] 0)
           (chars "a\'b") char_return (chars "' c"));
    reflexivity.
Defined.

(** C5.  On [/***/ G { }] the comment is not left at its [*/]: behind a
    star the scan steps over the next character whatever it is, here the
    second star, and so past the slash that closes the comment.  It runs to
    the end of the input, and [parse] finds no grammar. *)
Theorem match_block_comment_star_body :
  match_block_comment (mk_GrammarParser (Some []) [] star_comment 1 [] 0)
  = Returns true (mk_GrammarParser (Some []) [] [] 1 [] 0)
  /\ parse GrammarParser_new star_comment (Some []) []
     = Returns 1
         (mk_GrammarParser
            (Some [mk_error_report 1 0 LALR_ERROR_SYNTAX
                     "parsing grammar failed" []])
            [] [] 1 [] 1).
Proof. split; vm_compute; reflexivity. Qed.

(** C7.  The input does not settle what [parse] does on
    [G { } /* x *]: the grammar is read, and [match_end] then skips into
    the comment, whose loop steps over the star at the end of the input and
    beyond [end_], where its test reads.  Whatever the parser, the error
    policy and the grammar, the call reads outside the range it was given,
    so that what it returns, if it returns, is decided by what lies behind
    the input. *)
Theorem parse_reads_beyond_input (self : GrammarParser)
    (error_policy : option (list error_report))
    (grammar : list grammar_call) :
  parse self comment_open_at_star error_policy grammar = ReadsPastEnd.
Proof. vm_compute. reflexivity. Qed.

(** X23.  [parse] does not depend on the earlier use of the parser, and no
    loop of it runs forever: two calls on the same source, with
    collaborators in the same state, on parsers [self1] and [self2] with any
    past, either both stop at the same read beyond [end_] (which only
    [match_block_comment] makes, on a comment that the input ends in), or
    both return, with the same error count and the same calls made on the
    grammar and on the error policy.  No loop is cut short. *)
Theorem parse_deterministic (self1 self2 : GrammarParser)
    (source : list ascii) (error_policy : option (list error_report))
    (grammar : list grammar_call) :
  (parse self1 source error_policy grammar = ReadsPastEnd
   /\ parse self2 source error_policy grammar = ReadsPastEnd)
  \/ exists errors after1 after2,
       parse self1 source error_policy grammar = Returns errors after1
       /\ parse self2 source error_policy grammar = Returns errors after2
       /\ grammar_ after1 = grammar_ after2
       /\ error_policy_ after1 = error_policy_ after2.
Proof.
  rewrite !parse_unfold, !match_grammar_stale_lexeme.
  set (start := mk_GrammarParser error_policy grammar source 1 [] 0).
  pose proof (shrinks_match_grammar start) as Hends.
  assert (Hfail : match_identifier start = ReadsPastEnd ->
                  match_grammar start = ReadsPastEnd).
  { intros H. unfold match_grammar, bind. rewrite H. reflexivity. }
  assert (Hfuel : match_identifier start = OutOfFuel ->
                  match_grammar start = OutOfFuel).
  { intros H. unfold match_grammar, bind. rewrite H. reflexivity. }
  destruct (match_identifier start) as [[|] self'| |].
  - destruct (match_grammar start) as [[|] after| |].
    + right. exists (errors_ after), after, after. auto.
    + right. eexists _, _, _. repeat split; reflexivity.
    + left. auto.
    + destruct Hends.
  - right. eexists _, _, _. repeat split; reflexivity.
  - rewrite (Hfail eq_refl). left. auto.
  - rewrite (Hfuel eq_refl) in Hends. destruct Hends.
Qed.

(** C8.  A regular expression whose body ends in an escaped backslash
    is not closed by the quote behind it: the scan takes a character for
    escaped whenever the one before it is a backslash, also when that
    backslash was itself escaped.  On a regex of two lines that ends so, it
    runs over the closing quote to the end of the input, the lexeme is
    everything behind the opening quote, and [expect] reports the quote as
    missing. *)
Theorem match_regex_escaped_backslash :
  match_regex (mk_GrammarParser (Some []) [] regex_escaped_backslash 1 [] 0)
  = Returns true
      (mk_GrammarParser
         (Some [mk_error_report 1 0 LALR_ERROR_SYNTAX
                  "expected '%s' not found" [[char_dquote]]])
         [] [] 1
         (chars "a" ++ [char_newline] ++ [char_backslash; char_backslash]
          ++ [char_dquote] ++ chars " ;")
         1).
Proof. vm_compute. reflexivity. Qed.

(** X22.  Where the next token opens with a double quote, [match_regex]
    takes every character up to the first double quote that does not come
    right behind a backslash, line ends included, as the lexeme, and leaves
    the position behind that quote; nothing is reported and [line_] is not
    counted up for the line ends inside. *)
Theorem match_regex_spans_lines (before self : GrammarParser)
    (body rest : list ascii) :
  match_whitespace_and_comments before = Returns true self ->
  position_ self = char_dquote :: body ++ char_dquote :: rest ->
  unclosed char_dquote false body = true ->
  escapes_next false body = false ->
  match_regex before = Returns true (set_position rest (set_lexeme body self)).
Proof.
  intros Hskip Hp Hu He.
  unfold match_regex. unfold bind at 1. rewrite Hskip.
  unfold bind at 1.
  rewrite (match_one self char_dquote _ Hp eq_refl eq_refl).
  unfold bind at 1, get. cbn [position_ set_position].
  rewrite (regex_loop_unclosed body false rest Hu He).
  unfold bind at 1, modify. unfold bind at 1.
  unfold bind at 1, expect, bind at 1.
  erewrite match_one; [reflexivity | reflexivity | reflexivity | reflexivity].
Qed.

Lemma match_regex_spans_lines_witness :
  match_regex
    (mk_GrammarParser (Some []) []
       (chars " " ++ [char_dquote] ++ chars "[a-z]" ++ [char_newline]
        ++ chars "|[0-9]" ++ [char_return; char_newline]
        ++ [char_dquote] ++ chars " ;") 1 [] 0)
  = Returns true
      (mk_GrammarParser (Some []) [] (chars " ;") 1
         (chars "[a-z]" ++ [char_newline] ++ chars "|[0-9]"
          ++ [char_return; char_newline]) 0).
Proof.
  apply (match_regex_spans_lines
           (mk_GrammarParser (Some []) []
              (chars " " ++ [char_dquote] ++ chars "[a-z]" ++ [char_newline]
               ++ chars "|[0-9]" ++ [char_return; char_newline]
               ++ [char_dquote] ++ chars " ;") 1 [] 0)
           (mk_GrammarParser (Some []) []
              ([char_dquote] ++ chars "[a-z]" ++ [char_newline]
               ++ chars "|[0-9]" ++ [char_return; char_newline]
               ++ [char_dquote] ++ chars " ;") 1 [] 0)
           (chars "[a-z]" ++ [char_newline] ++ chars "|[0-9]"
            ++ [char_return; char_newline])
           (chars " ;"));
    reflexivity.
Defined.

(** * The LR item: statements of the specification *)

Section ItemFacts.

Lemma after_keeps (self : Item.Item) (op : Item.operation) :
  Item.production_ (Item.after self op) = Item.production_ self
  /\ Item.position_ (Item.after self op) = Item.position_ self.
Proof. destruct op; simpl; auto. Qed.

Lemma after_all_keeps (ops : list Item.operation) :
  forall self,
    Item.production_ (Item.after_all self ops) = Item.production_ self
    /\ Item.position_ (Item.after_all self ops) = Item.position_ self.
Proof.
  unfold Item.after_all.
  induction ops as [|op ops IH]; intros self; simpl; [auto |].
  destruct (IH (Item.after self op)) as [Hp Hd].
  destruct (after_keeps self op) as [Hp' Hd'].
  split; congruence.
Qed.

End ItemFacts.

(** C9.  An item that the constructor made from a production and a dot
    position (its assertion held) has its dot within the body,
    [0 <= position <= length], and keeps its production and position, and
    so the invariant, through every sequence of operations on it. *)
Theorem item_dot_in_body (production : Item.Production) (position : Z)
    (self : Item.Item) (ops : list Item.operation) :
  Item.Item_new (Some production) position = Some self ->
  0 <= Item.position self <= Item.length production
  /\ Item.production (Item.after_all self ops) = Some production
  /\ Item.position (Item.after_all self ops) = position
  /\ Item.dot_in_body (Item.after_all self ops).
Proof.
  unfold Item.Item_new, Item.SWEET_ASSERT.
  destruct ((0 <=? position) && (position <? Item.length production + 1))
    eqn:Hassert; [| discriminate].
  intros H. injection H as <-.
  apply andb_prop in Hassert as [Hlow Hhigh].
  apply Z.leb_le in Hlow. apply Z.ltb_lt in Hhigh.
  destruct (after_all_keeps ops
              (Item.mk_Item (Some production) position ∅)) as [Hp Hd].
  unfold Item.position, Item.production, Item.dot_in_body.
  rewrite Hp, Hd. simpl.
  repeat split; try lia.
  exists production. split; [reflexivity | lia].
Qed.

Lemma item_dot_in_body_witness :
  let production := Item.mk_Production 4 7%N [7%N; 9%N; 7%N] in
  let self := Item.mk_Item (Some production) 3 ∅ in
  let ops := [Item.op_add_lookahead_symbols {[9%N]}; Item.op_dot_at_end;
              Item.op_add_lookahead_symbols {[9%N; 12%N]}] in
  0 <= Item.position self <= Item.length production
  /\ Item.production (Item.after_all self ops) = Some production
  /\ Item.position (Item.after_all self ops) = 3
  /\ Item.dot_in_body (Item.after_all self ops).
Proof.
  intros production self ops.
  apply (item_dot_in_body production 3 self ops). reflexivity.
Defined.

(** C10.  [add_lookahead_symbols] leaves the union of the item's lookahead
    set and its argument, which contains the set as it was; it returns the
    number of symbols of the argument that were not in the set; and the
    same call made again returns 0. *)
Theorem add_lookahead_symbols_grows (self : Item.Item)
    (lookahead_symbols : gset Item.Symbol_pointer) :
  let (added, self') := Item.add_lookahead_symbols self lookahead_symbols in
  Item.lookahead_symbols self'
  = Item.lookahead_symbols self ∪ lookahead_symbols
  /\ Item.lookahead_symbols self ⊆ Item.lookahead_symbols self'
  /\ added
     = Z.of_nat (size (lookahead_symbols ∖ Item.lookahead_symbols self))
  /\ fst (Item.add_lookahead_symbols self' lookahead_symbols) = 0.
Proof.
  unfold Item.add_lookahead_symbols, Item.lookahead_symbols. simpl.
  repeat split.
  - set_solver.
  - rewrite size_union_alt. lia.
  - rewrite <- (assoc_L (∪)), (idemp_L (∪)). lia.
Qed.

(** * The generator on the precedence test *)

Section GeneratorFacts.

Import Generator.

Local Open Scope nat_scope.

(** A larger bound on the states changes nothing once the states were
    built within a smaller one. *)
Lemma build_states_more (g : Grammar) (limit limit' : nat) :
  limit <= limit' ->
  forall fuel fuel' i a r,
    fuel <= fuel' ->
    build_states g limit fuel i a = Built r ->
    build_states g limit' fuel' i a = Built r.
Proof.
  intros Hlimit. induction fuel as [|fuel IH]; intros fuel' i a r Hfuel;
    [discriminate |].
  destruct fuel' as [|fuel']; [lia |]. simpl.
  destruct (nth_error (kernels a) i) as [k|]; [| auto].
  destruct (closure g k) as [items|]; [| discriminate].
  destruct (limit <? List.length (kernels (expand g i items a))) eqn:Hin;
    [discriminate |].
  apply Nat.ltb_ge in Hin.
  assert (Hin' : (limit' <? List.length (kernels (expand g i items a)))
                 = false)
    by (apply Nat.ltb_ge; lia).
  rewrite Hin'. apply IH. lia.
Qed.

Lemma tables_more (g : Grammar) (limit limit' : nat) (a : Automaton)
    (rows : list Row) :
  limit <= limit' ->
  tables g limit = Some (Built (a, rows)) ->
  tables g limit' = Some (Built (a, rows)).
Proof.
  intros Hlimit. unfold tables.
  destruct (compute_firsts g) as [firsts|]; [| discriminate]. simpl.
  destruct (item_sets g limit) as [a0| |] eqn:Hsets; try discriminate.
  unfold item_sets in *.
  apply (build_states_more g limit limit' Hlimit (2 + limit) (2 + limit'))
    in Hsets; [| lia].
  rewrite Hsets. auto.
Qed.

(** A grammar without errors, warnings or conflicts, on which the lexical
    builder has nothing to report, yields an artifact and no report. *)
Lemma generate_clean {L : Type} (limit : nat)
    (lexical_builder : list Pattern -> list (list ascii) -> L * list report)
    (calls : list grammar_call) (a : Automaton) (rows : list Row) :
  let g := finalize (build calls) in
  clean_grammar calls = true ->
  tables g limit = Some (Built (a, rows)) ->
  flat_map conflicts rows = [] ->
  snd (lexical_builder (patterns g) (grammar_whitespace g)) = [] ->
  exists generated,
    generate limit lexical_builder calls = Some generated
    /\ reports generated = []
    /\ unresolved_conflicts generated = 0
    /\ is_Some (artifact generated).
Proof.
  intros g Hclean Htables Hconflicts Hlexical.
  destruct (lexical_builder (patterns g) (grammar_whitespace g))
    as [lexical_analyzer lexical] eqn:Hbuilder.
  simpl in Hlexical. subst lexical.
  unfold clean_grammar in Hclean. unfold generate. fold g in Hclean |- *.
  destruct (reachable g) as [seen|]; [| discriminate].
  destruct (productive g) as [good|]; [| discriminate].
  cbv beta iota delta [mbind option_bind].
  destruct (undefined_symbols (build calls)
            ++ duplicate_productions (build calls)); [| discriminate].
  destruct (grammar_warnings (build calls) g seen good); [| discriminate].
  rewrite Htables, Hconflicts, Hbuilder.
  eexists. repeat split. eexists. reflexivity.
Qed.

Lemma conflict_free_tables (t : option (built (Automaton * list Row))) :
  conflict_free t = true ->
  exists a rows,
    t = Some (Built (a, rows)) /\ flat_map conflicts rows = [].
Proof.
  destruct t as [[[a rows]| |]|]; simpl; try discriminate.
  intros H. apply andb_prop in H as [_ H].
  exists a, rows. split; [reflexivity |].
  destruct (flat_map conflicts rows); [reflexivity | discriminate].
Qed.

Lemma expressions_tables :
  conflict_free (tables (finalize (build expressions_grammar)) 14) = true.
Proof. vm_compute. reflexivity. Qed.

Lemma expressions_clean : clean_grammar expressions_grammar = true.
Proof. vm_compute. reflexivity. Qed.

End GeneratorFacts.

(** C6.  For the grammar of the precedence test (two left-associative
    levels for [+ -] and [* /], a third level for [integer], and the [unit],
    [expr] and [integer] productions), with any bound of at least fourteen
    states and an external lexical builder that reports nothing on its
    patterns, generation returns an artifact, nothing is reported to the
    error collaborator, and no parse-table conflict is left unresolved. *)
Theorem expressions_grammar_generates (L : Type) (limit : nat)
    (lexical_builder :
       list Generator.Pattern -> list (list ascii)
       -> L * list Generator.report) :
  (14 <= limit)%nat ->
  snd (lexical_builder
         (Generator.patterns
            (Generator.finalize (Generator.build Generator.expressions_grammar)))
         (Generator.grammar_whitespace
            (Generator.finalize (Generator.build Generator.expressions_grammar))))
  = [] ->
  exists generated,
    Generator.generate limit lexical_builder Generator.expressions_grammar
    = Some generated
    /\ Generator.reports generated = []
    /\ Generator.unresolved_conflicts generated = 0%nat
    /\ is_Some (Generator.artifact generated).
Proof.
  intros Hlimit Hlexical.
  destruct (conflict_free_tables _ expressions_tables)
    as (a & rows & Htables & Hfound).
  apply (generate_clean limit lexical_builder Generator.expressions_grammar
           a rows).
  - exact expressions_clean.
  - exact (tables_more _ 14 limit a rows Hlimit Htables).
  - exact Hfound.
  - exact Hlexical.
Qed.

Lemma expressions_grammar_generates_witness :
  exists generated,
    Generator.generate 14 (fun _ _ => (tt, [])) Generator.expressions_grammar
    = Some generated
    /\ Generator.reports generated = []
    /\ Generator.unresolved_conflicts generated = 0%nat
    /\ is_Some (Generator.artifact generated).
Proof.
  apply (expressions_grammar_generates unit 14 (fun _ _ => (tt, []))).
  - lia.
  - reflexivity.
Defined.

(** * Arithmetic on [int] *)

Section Int.

Lemma int_wrap_range (z : Z) : INT_MIN <= int_wrap z <= INT_MAX.
Proof.
  unfold int_wrap, INT_MIN, INT_MAX.
  pose proof (Z.mod_pos_bound (z + 2147483648) 4294967296 eq_refl). lia.
Qed.

Lemma int_wrap_small (z : Z) :
  INT_MIN <= z <= INT_MAX -> int_wrap z = z.
Proof.
  unfold int_wrap, INT_MIN, INT_MAX. intros H.
  rewrite Z.mod_small; lia.
Qed.

Lemma int_wrap_add (a b : Z) : int_wrap (int_wrap a + b) = int_wrap (a + b).
Proof.
  unfold int_wrap.
  replace ((a + 2147483648) mod 4294967296 - 2147483648 + b + 2147483648)
    with ((a + 2147483648) mod 4294967296 + b) by lia.
  rewrite Zplus_mod_idemp_l. f_equal. f_equal. lia.
Qed.

Lemma increment_add (a b : Z) :
  int_wrap (increment a + b) = int_wrap (a + (1 + b)).
Proof. unfold increment. rewrite int_wrap_add. f_equal. lia. Qed.

(** [n] increments from an [int]. *)
Lemma increment_iter (n : nat) (i : Z) :
  INT_MIN <= i <= INT_MAX ->
  Nat.iter n increment i = int_wrap (i + Z.of_nat n).
Proof.
  intros Hi. induction n as [|n IH].
  - simpl. rewrite Z.add_0_r, int_wrap_small; auto.
  - rewrite Nat2Z.inj_succ. simpl. rewrite IH. unfold increment.
    rewrite int_wrap_add. f_equal. lia.
Qed.

Lemma iter_app {A : Type} (f : Z -> Z) (a b : list A) (i : Z) :
  Nat.iter (List.length (a ++ b)) f i
  = Nat.iter (List.length b) f (Nat.iter (List.length a) f i).
Proof.
  rewrite List.length_app, Nat.add_comm. apply Nat.iter_add.
Qed.

End Int.

(** * Further properties of the front-end *)

(** ** What a call may change *)

Section Respects.

Variable R : GrammarParser -> GrammarParser -> Prop.
Hypothesis R_refl : forall self, R self self.
Hypothesis R_trans : forall a b c, R a b -> R b c -> R a c.

Lemma respects_ret {A : Type} (a : A) : respects R (ret a).
Proof. intros self. apply R_refl. Qed.

Lemma respects_get : respects R get.
Proof. intros self. apply R_refl. Qed.

Lemma respects_bind {A B : Type} (m : M A) (k : A -> M B) :
  respects R m -> (forall a, respects R (k a)) -> respects R (bind m k).
Proof.
  intros Hm Hk self. unfold bind. specialize (Hm self).
  destruct (m self) as [a self'| |]; auto.
  specialize (Hk a self'). destruct (k a self'); auto.
  eapply R_trans; eauto.
Qed.

Lemma respects_modify (f : GrammarParser -> GrammarParser) :
  (forall self, R self (f self)) -> respects R (modify f).
Proof. intros H self. apply H. Qed.

Lemma respects_while (cond : M bool) :
  respects R cond -> forall fuel, respects R (while_ fuel cond).
Proof.
  intros Hc. induction fuel as [|fuel IH]; [intros self; exact I |].
  simpl. apply respects_bind; auto.
  intros [|]; auto using respects_ret.
Qed.

Lemma respects_while_consuming (cond : M bool) :
  respects R cond -> respects R (while_consuming cond).
Proof.
  intros Hc self. unfold while_consuming.
  apply (respects_while cond Hc).
Qed.

Lemma respects_orelse (a b : M bool) :
  respects R a -> respects R b -> respects R (orelse a b).
Proof.
  intros Ha Hb. apply respects_bind; auto.
  intros [|]; auto using respects_ret.
Qed.

Lemma respects_andalso (a b : M bool) :
  respects R a -> respects R b -> respects R (andalso a b).
Proof.
  intros Ha Hb. apply respects_bind; auto.
  intros [|]; auto using respects_ret.
Qed.

End Respects.

Section Moved.

Lemma moved_refl (self : GrammarParser) : moved self self.
Proof. unfold moved. destruct self; reflexivity. Qed.

Lemma moved_trans (a b c : GrammarParser) : moved a b -> moved b c -> moved a c.
Proof.
  unfold moved, set_position, set_line. destruct a, b, c. simpl.
  intros Hab Hbc. injection Hab as -> -> -> ->. injection Hbc as -> -> -> ->.
  reflexivity.
Qed.

Lemma moved_set_position (p : list ascii) (self : GrammarParser) :
  moved self (set_position p self).
Proof. unfold moved. destruct self; reflexivity. Qed.

Lemma moved_set_line (n : Z) (self : GrammarParser) :
  moved self (set_line n self).
Proof. unfold moved. destruct self; reflexivity. Qed.

Lemma repositioned_refl (self : GrammarParser) : repositioned self self.
Proof. unfold repositioned. destruct self; reflexivity. Qed.

Lemma repositioned_trans (a b c : GrammarParser) :
  repositioned a b -> repositioned b c -> repositioned a c.
Proof.
  unfold repositioned, set_position. destruct a, b, c. simpl.
  intros Hab Hbc. injection Hab as -> -> -> -> ->.
  injection Hbc as -> -> -> -> ->. reflexivity.
Qed.

Lemma repositioned_set_position (p : list ascii) (self : GrammarParser) :
  repositioned self (set_position p self).
Proof. unfold repositioned. destruct self; reflexivity. Qed.

Lemma repositioned_moved (a b : GrammarParser) : repositioned a b -> moved a b.
Proof.
  unfold repositioned, moved. intros H. rewrite H. destruct a; reflexivity.
Qed.

Lemma repositioned_match_without_skipping_whitespace (lexeme : list ascii) :
  respects repositioned (match_without_skipping_whitespace lexeme).
Proof.
  intros self. unfold match_without_skipping_whitespace.
  destruct (keyword_loop (position_ self) lexeme) as [position [|k rest]].
  - apply repositioned_set_position.
  - apply repositioned_refl.
Qed.

Lemma repositioned_match_line_comment :
  respects repositioned match_line_comment.
Proof.
  unfold match_line_comment.
  apply (respects_bind repositioned repositioned_trans);
    [apply repositioned_match_without_skipping_whitespace |].
  intros [|]; [| apply (respects_ret repositioned repositioned_refl)].
  apply (respects_bind repositioned repositioned_trans);
    [| intros; apply (respects_ret repositioned repositioned_refl)].
  apply respects_modify. intros self. apply repositioned_set_position.
Qed.

Lemma repositioned_match_block_comment :
  respects repositioned match_block_comment.
Proof.
  unfold match_block_comment.
  apply (respects_bind repositioned repositioned_trans);
    [apply repositioned_match_without_skipping_whitespace |].
  intros [|]; [| apply (respects_ret repositioned repositioned_refl)].
  intros self. destruct (block_comment_loop false (position_ self)); [| exact I].
  apply repositioned_set_position.
Qed.

(** [respects] is monotone in the relation. *)
Lemma respects_weaken (R S : GrammarParser -> GrammarParser -> Prop)
    {A : Type} (m : M A) :
  (forall a b, R a b -> S a b) -> respects R m -> respects S m.
Proof.
  intros HRS Hm self. specialize (Hm self).
  destruct (m self); auto.
Qed.

Lemma moved_match_without_skipping_whitespace (lexeme : list ascii) :
  respects moved (match_without_skipping_whitespace lexeme).
Proof.
  apply (respects_weaken repositioned moved _ repositioned_moved).
  apply repositioned_match_without_skipping_whitespace.
Qed.

Lemma moved_match_whitespace : respects moved match_whitespace.
Proof.
  intros self. unfold match_whitespace.
  destruct (position_ self) as [|c position]; [apply moved_refl |].
  destruct (isspace c); [| apply moved_refl].
  destruct (whitespace_loop false (line_ self) (c :: position)) as [line stop].
  eapply moved_trans; [apply moved_set_line | apply moved_set_position].
Qed.

Lemma moved_match_line_comment : respects moved match_line_comment.
Proof.
  apply (respects_weaken repositioned moved _ repositioned_moved).
  apply repositioned_match_line_comment.
Qed.

Lemma moved_match_block_comment : respects moved match_block_comment.
Proof.
  apply (respects_weaken repositioned moved _ repositioned_moved).
  apply repositioned_match_block_comment.
Qed.

Lemma moved_match_whitespace_and_comments :
  respects moved match_whitespace_and_comments.
Proof.
  unfold match_whitespace_and_comments.
  apply (respects_bind moved moved_trans);
    [| intros; apply (respects_ret moved moved_refl)].
  apply (respects_while_consuming moved moved_refl moved_trans).
  repeat apply (respects_orelse moved moved_refl moved_trans).
  - apply moved_match_whitespace.
  - apply moved_match_line_comment.
  - apply moved_match_block_comment.
Qed.

Lemma moved_match_ (keyword : list ascii) : respects moved (match_ keyword).
Proof.
  unfold match_. apply (respects_bind moved moved_trans).
  - apply moved_match_whitespace_and_comments.
  - intros _. apply moved_match_without_skipping_whitespace.
Qed.

End Moved.

Section Advances.

Lemma advances_refl (self : GrammarParser) : advances self self.
Proof.
  exists [], []. simpl. rewrite !app_nil_r.
  repeat split;
    destruct (error_policy_ self); simpl; rewrite ?app_nil_r; reflexivity.
Qed.

Lemma advances_trans (a b c : GrammarParser) :
  advances a b -> advances b c -> advances a c.
Proof.
  intros (r1 & c1 & He1 & Hp1 & Hg1) (r2 & c2 & He2 & Hp2 & Hg2).
  exists (r1 ++ r2), (c1 ++ c2). rewrite iter_app, <- He1, <- He2.
  split; [reflexivity |]. split.
  - rewrite Hp2, Hp1. destruct (error_policy_ a); simpl;
      rewrite ?app_assoc; reflexivity.
  - rewrite Hg2, Hg1, app_assoc. reflexivity.
Qed.

Lemma advances_moved (a b : GrammarParser) : moved a b -> advances a b.
Proof.
  intros Hm. exists [], []. rewrite Hm. simpl. rewrite !app_nil_r.
  split; [reflexivity |]. split; [| reflexivity].
  destruct (error_policy_ a); simpl; rewrite ?app_nil_r; reflexivity.
Qed.

Lemma advances_repositioned (a b : GrammarParser) :
  repositioned a b -> advances a b.
Proof. intros H. apply advances_moved, repositioned_moved, H. Qed.

Lemma advances_set_position (p : list ascii) (self : GrammarParser) :
  advances self (set_position p self).
Proof. apply advances_moved, moved_set_position. Qed.

Lemma advances_set_lexeme (l : list ascii) (self : GrammarParser) :
  advances self (set_lexeme l self).
Proof.
  exists [], []. simpl. rewrite !app_nil_r.
  repeat split;
    destruct (error_policy_ self); simpl; rewrite ?app_nil_r; reflexivity.
Qed.

Lemma advances_bind {A B : Type} (m : M A) (k : A -> M B) :
  respects advances m -> (forall a, respects advances (k a)) ->
  respects advances (bind m k).
Proof. exact (respects_bind advances advances_trans m k). Qed.

Lemma advances_ret {A : Type} (a : A) : respects advances (ret a).
Proof. exact (respects_ret advances advances_refl a). Qed.

Lemma advances_modify_position (p : list ascii) :
  respects advances (modify (set_position p)).
Proof. apply respects_modify. intros self. apply advances_set_position. Qed.

Lemma advances_modify_lexeme (l : list ascii) :
  respects advances (modify (set_lexeme l)).
Proof. apply respects_modify. intros self. apply advances_set_lexeme. Qed.

Lemma advances_grammar (c : grammar_call) : respects advances (grammar c).
Proof.
  apply respects_modify. intros self. exists [], [c]. simpl.
  repeat split;
    destruct (error_policy_ self); simpl; rewrite ?app_nil_r; reflexivity.
Qed.

Lemma advances_error line column e format args :
  respects advances (error line column e format args).
Proof.
  apply respects_modify. intros self.
  exists [mk_error_report line column e format args], []. simpl.
  rewrite app_nil_r.
  repeat split; destruct (error_policy_ self); reflexivity.
Qed.

Lemma advances_get : respects advances get.
Proof. apply respects_get, advances_refl. Qed.

Lemma advances_match_whitespace_and_comments :
  respects advances match_whitespace_and_comments.
Proof.
  apply (respects_weaken moved advances _ advances_moved).
  apply moved_match_whitespace_and_comments.
Qed.

Lemma advances_match_without_skipping_whitespace (lexeme : list ascii) :
  respects advances (match_without_skipping_whitespace lexeme).
Proof.
  apply (respects_weaken repositioned advances _ advances_repositioned).
  apply repositioned_match_without_skipping_whitespace.
Qed.

Create HintDb adv discriminated.

Hint Resolve advances_ret advances_get advances_grammar advances_error
  advances_modify_position advances_modify_lexeme
  advances_match_whitespace_and_comments
  advances_match_without_skipping_whitespace : adv.

(** Takes a goal about a member function apart along its shape. *)
Ltac adv_tac :=
  repeat first
    [ solve [auto with adv]
    | progress intros
    | match goal with
      | |- respects advances (bind _ _) => apply advances_bind
      | |- respects advances (if ?b then _ else _) => destruct b
      | |- respects advances (let (_, _) := ?x in _) => destruct x
      | |- respects advances (match ?x with _ => _ end) => destruct x
      | |- respects advances (orelse _ _) => unfold orelse
      | |- respects advances (andalso _ _) => unfold andalso
      | |- respects advances (while_consuming _) =>
          apply (respects_while_consuming advances advances_refl
                   advances_trans)
      end ].

Lemma advances_match_ (keyword : list ascii) :
  respects advances (match_ keyword).
Proof. unfold match_. adv_tac. Qed.

Hint Resolve advances_match_ : adv.

Lemma advances_match_end : respects advances match_end.
Proof. unfold match_end. adv_tac. Qed.

Lemma advances_expect (lexeme : list ascii) :
  respects advances (expect lexeme).
Proof. unfold expect. adv_tac. Qed.

Hint Resolve advances_match_end advances_expect : adv.

Lemma advances_match_identifier : respects advances match_identifier.
Proof. unfold match_identifier. adv_tac. Qed.

Lemma advances_match_regex : respects advances match_regex.
Proof. unfold match_regex. adv_tac. Qed.

Lemma advances_match_literal : respects advances match_literal.
Proof. unfold match_literal. adv_tac. Qed.

Lemma advances_match_error : respects advances match_error.
Proof. unfold match_error. adv_tac. Qed.

Hint Resolve advances_match_identifier advances_match_regex
  advances_match_literal advances_match_error : adv.

Lemma advances_grammar_lexeme call : respects advances (grammar_lexeme call).
Proof. unfold grammar_lexeme. adv_tac. Qed.

Lemma advances_grammar_line call : respects advances (grammar_line call).
Proof. unfold grammar_line. adv_tac. Qed.

Hint Resolve advances_grammar_lexeme advances_grammar_line : adv.

Lemma advances_match_symbol : respects advances match_symbol.
Proof. unfold match_symbol. adv_tac. Qed.

Hint Resolve advances_match_symbol : adv.

Lemma advances_match_symbols : respects advances match_symbols.
Proof. unfold match_symbols. adv_tac. Qed.

Lemma advances_match_associativity : respects advances match_associativity.
Proof. unfold match_associativity. adv_tac. Qed.

Hint Resolve advances_match_symbols advances_match_associativity : adv.

Lemma advances_match_precedence : respects advances match_precedence.
Proof. unfold match_precedence. adv_tac. Qed.

Lemma advances_match_action : respects advances match_action.
Proof. unfold match_action. adv_tac. Qed.

Hint Resolve advances_match_precedence advances_match_action : adv.

Lemma advances_match_expression : respects advances match_expression.
Proof. unfold match_expression. adv_tac. Qed.

Hint Resolve advances_match_expression : adv.

Lemma advances_match_expressions : respects advances match_expressions.
Proof. unfold match_expressions. adv_tac. Qed.

Hint Resolve advances_match_expressions : adv.

Lemma advances_match_associativity_statement :
  respects advances match_associativity_statement.
Proof. unfold match_associativity_statement. adv_tac. Qed.

Lemma advances_match_whitespace_statement :
  respects advances match_whitespace_statement.
Proof. unfold match_whitespace_statement. adv_tac. Qed.

Lemma advances_match_production_statement :
  respects advances match_production_statement.
Proof. unfold match_production_statement. adv_tac. Qed.

Hint Resolve advances_match_associativity_statement
  advances_match_whitespace_statement
  advances_match_production_statement : adv.

Lemma advances_match_statement : respects advances match_statement.
Proof. unfold match_statement. adv_tac. Qed.

Hint Resolve advances_match_statement : adv.

Lemma advances_match_statements : respects advances match_statements.
Proof. unfold match_statements. adv_tac. Qed.

Hint Resolve advances_match_statements : adv.

Lemma advances_match_grammar : respects advances match_grammar.
Proof. unfold match_grammar. adv_tac. Qed.

End Advances.

Create HintDb emit discriminated.

Section Emits.

Variable allowed : grammar_call -> bool.

Lemma emits_refl (self : GrammarParser) : emits allowed self self.
Proof. exists []. rewrite app_nil_r. auto. Qed.

Lemma emits_trans (a b c : GrammarParser) :
  emits allowed a b -> emits allowed b c -> emits allowed a c.
Proof.
  intros (c1 & H1 & A1) (c2 & H2 & A2). exists (c1 ++ c2).
  rewrite H2, H1, app_assoc, forallb_app, A1, A2. auto.
Qed.

Lemma emits_silent (a b : GrammarParser) :
  grammar_ b = grammar_ a -> emits allowed a b.
Proof. intros H. exists []. rewrite app_nil_r. auto. Qed.

Lemma emits_bind {A B : Type} (m : M A) (k : A -> M B) :
  respects (emits allowed) m -> (forall a, respects (emits allowed) (k a)) ->
  respects (emits allowed) (bind m k).
Proof. exact (respects_bind (emits allowed) emits_trans m k). Qed.

Lemma emits_ret {A : Type} (a : A) : respects (emits allowed) (ret a).
Proof. exact (respects_ret (emits allowed) emits_refl a). Qed.

Lemma emits_get : respects (emits allowed) get.
Proof. exact (respects_get (emits allowed) emits_refl). Qed.

Lemma emits_modify_position (p : list ascii) :
  respects (emits allowed) (modify (set_position p)).
Proof. apply respects_modify. intros self. apply emits_silent. reflexivity. Qed.

Lemma emits_modify_lexeme (l : list ascii) :
  respects (emits allowed) (modify (set_lexeme l)).
Proof. apply respects_modify. intros self. apply emits_silent. reflexivity. Qed.

Lemma emits_error line column e format args :
  respects (emits allowed) (error line column e format args).
Proof. apply respects_modify. intros self. apply emits_silent. reflexivity. Qed.

Lemma emits_grammar (c : grammar_call) :
  allowed c = true -> respects (emits allowed) (grammar c).
Proof.
  intros Hc. apply respects_modify. intros self. exists [c]. simpl.
  rewrite Hc. auto.
Qed.

Lemma emits_moved (m : M bool) :
  respects moved m -> respects (emits allowed) m.
Proof.
  apply respects_weaken. intros a b H. apply emits_silent. rewrite H.
  reflexivity.
Qed.

Lemma emits_match_whitespace_and_comments :
  respects (emits allowed) match_whitespace_and_comments.
Proof. apply emits_moved, moved_match_whitespace_and_comments. Qed.

Lemma emits_match_ (keyword : list ascii) :
  respects (emits allowed) (match_ keyword).
Proof. apply emits_moved, moved_match_. Qed.

Hint Resolve emits_ret emits_get emits_modify_position emits_modify_lexeme
  emits_error emits_match_whitespace_and_comments emits_match_ : emit.

(** Takes a goal about a member function apart along its shape. *)
Ltac emit_tac :=
  repeat first
    [ solve [auto with emit]
    | progress intros
    | match goal with
      | |- respects (emits allowed) (bind _ _) => apply emits_bind
      | |- respects (emits allowed) (grammar _) =>
          apply emits_grammar; reflexivity
      | |- respects (emits allowed) (if ?b then _ else _) => destruct b
      | |- respects (emits allowed) (let (_, _) := ?x in _) => destruct x
      | |- respects (emits allowed) (match ?x with _ => _ end) => destruct x
      | |- respects (emits allowed) (andalso _ _) => unfold andalso
      | |- respects (emits allowed) (while_consuming _) =>
          apply (respects_while_consuming (emits allowed) emits_refl
                   emits_trans)
      end ].

Lemma emits_expect (lexeme : list ascii) :
  respects (emits allowed) (expect lexeme).
Proof. unfold expect. emit_tac. Qed.

Lemma emits_match_identifier : respects (emits allowed) match_identifier.
Proof. unfold match_identifier. emit_tac. Qed.

Hint Resolve emits_expect emits_match_identifier : emit.

Lemma emits_match_regex : respects (emits allowed) match_regex.
Proof. unfold match_regex. emit_tac. Qed.

Lemma emits_match_literal : respects (emits allowed) match_literal.
Proof. unfold match_literal. emit_tac. Qed.

Lemma emits_match_error : respects (emits allowed) match_error.
Proof. unfold match_error. emit_tac. Qed.

End Emits.

Section EmitsSymbols.

Variable allowed : grammar_call -> bool.
Hypothesis symbols_allowed :
  forall c, symbol_call c = true -> allowed c = true.

Lemma emits_symbol_call (c : grammar_call) :
  symbol_call c = true -> respects (emits allowed) (grammar c).
Proof. intros H. apply emits_grammar, symbols_allowed, H. Qed.

Lemma emits_match_symbol : respects (emits allowed) match_symbol.
Proof.
  unfold match_symbol, grammar_line, grammar_lexeme.
  repeat first
    [ apply emits_ret | apply emits_get | apply emits_match_error
    | apply emits_match_literal | apply emits_match_regex
    | apply emits_match_identifier
    | apply emits_symbol_call; reflexivity
    | progress intros
    | match goal with
      | |- respects (emits allowed) (bind _ _) => apply emits_bind
      | |- respects (emits allowed) (if ?b then _ else _) => destruct b
      end ].
Qed.

Lemma emits_match_symbols : respects (emits allowed) match_symbols.
Proof.
  unfold match_symbols. apply emits_bind; [| intros; apply emits_ret].
  apply (respects_while_consuming (emits allowed) (emits_refl allowed)
           (emits_trans allowed)).
  apply emits_match_symbol.
Qed.

End EmitsSymbols.

Section EmitsExpression.

Lemma expression_match_symbol :
  respects (emits expression_call) match_symbol.
Proof. apply emits_match_symbol. intros []; auto. Qed.

Lemma expression_match_symbols :
  respects (emits expression_call) match_symbols.
Proof. apply emits_match_symbols. intros []; auto. Qed.

Hint Resolve emits_ret emits_get emits_modify_position emits_modify_lexeme
  emits_error emits_match_whitespace_and_comments emits_match_
  emits_expect emits_match_identifier emits_match_regex emits_match_literal
  emits_match_error expression_match_symbol expression_match_symbols : emit.

(** The same for the functions that call the grammar within an
    expression. *)
Ltac expression_tac :=
  repeat first
    [ solve [auto with emit]
    | progress intros
    | match goal with
      | |- respects (emits expression_call) (bind _ _) => apply emits_bind
      | |- respects (emits expression_call) (grammar _) =>
          apply emits_grammar; reflexivity
      | |- respects (emits expression_call) (if ?b then _ else _) =>
          destruct b
      | |- respects (emits expression_call) (andalso _ _) => unfold andalso
      | |- respects (emits expression_call) (while_consuming _) =>
          apply (respects_while_consuming (emits expression_call)
                   (emits_refl expression_call)
                   (emits_trans expression_call))
      end ].

Lemma emits_match_precedence :
  respects (emits expression_call) match_precedence.
Proof. unfold match_precedence. expression_tac. Qed.

Lemma emits_match_action : respects (emits expression_call) match_action.
Proof. unfold match_action, grammar_line, grammar_lexeme. expression_tac. Qed.

Hint Resolve emits_match_precedence emits_match_action : emit.

Lemma emits_match_expression :
  respects (emits expression_call) match_expression.
Proof. unfold match_expression. expression_tac. Qed.

Hint Resolve emits_match_expression : emit.

Lemma emits_match_expressions :
  respects (emits expression_call) match_expressions.
Proof. unfold match_expressions. expression_tac. Qed.

End EmitsExpression.

(** ** More about the scanning loops *)

Section Scans.

Lemma keyword_loop_prefix (lexeme position : list ascii) :
  forall stop left,
    keyword_loop position lexeme = (stop, left) ->
    (left = [] /\ position = lexeme ++ stop)
    \/ (left <> [] /\ forall rest, position <> lexeme ++ rest).
Proof.
  revert lexeme. induction position as [|c position IH];
    intros lexeme stop left.
  - destruct lexeme as [|k lexeme]; simpl; intros H; injection H as <- <-.
    + left. auto.
    + right. split; [discriminate |]. intros rest. discriminate.
  - destruct lexeme as [|k lexeme]; simpl.
    + intros H. injection H as <- <-. left. auto.
    + destruct (Ascii.eqb c k) eqn:Hck.
      * apply Ascii.eqb_eq in Hck. subst k. intros H.
        destruct (IH lexeme stop left H) as [[-> ->]|[Hleft Hno]].
        -- left. auto.
        -- right. split; [exact Hleft |].
           intros rest Heq. injection Heq as Heq. exact (Hno rest Heq).
      * intros H. injection H as <- <-. right. split; [discriminate |].
        intros rest Heq. injection Heq as -> _.
        rewrite Ascii.eqb_refl in Hck. discriminate.
Qed.

Lemma line_ends_cons (c : ascii) (l : list ascii) :
  line_ends (c :: l) = (if is_newline c then 1 else 0) + line_ends l.
Proof.
  unfold line_ends. simpl. destruct (is_newline c); simpl; lia.
Qed.

Lemma whitespace_loop_run (spaces : list ascii) :
  forall line rest,
    INT_MIN <= line <= INT_MAX ->
    forallb isspace spaces = true ->
    match rest with [] => True | d :: _ => isspace d = false end ->
    whitespace_loop false line (spaces ++ rest)
    = (int_wrap (line + line_ends spaces), rest).
Proof.
  induction spaces as [|c spaces IH]; intros line rest Hline Hs Hrest.
  - simpl. unfold line_ends. simpl. rewrite Z.add_0_r, int_wrap_small; auto.
    destruct rest as [|d rest]; [reflexivity |]. simpl. rewrite Hrest.
    reflexivity.
  - simpl in Hs. apply andb_prop in Hs as [Hc Hs].
    simpl. rewrite Hc, line_ends_cons. unfold is_newline.
    destruct (Ascii.eqb c char_newline || Ascii.eqb c char_return)%bool.
    + rewrite (IH (increment line) rest (int_wrap_range (line + 1)) Hs Hrest),
        increment_add.
      reflexivity.
    + rewrite (IH _ rest Hline Hs Hrest). reflexivity.
Qed.

Lemma line_comment_loop_done (position : list ascii) :
  line_comment_loop true position = position.
Proof. destruct position; reflexivity. Qed.

Lemma line_comment_loop_run (body : list ascii) :
  forall ending,
    on_one_line body = true ->
    match ending with [] => True | c :: _ => is_newline c = true end ->
    line_comment_loop false (body ++ ending) = tl ending.
Proof.
  induction body as [|x body IH]; intros ending Hl Hending.
  - destruct ending as [|c rest]; [reflexivity |]. simpl.
    unfold is_newline in Hending. rewrite Hending.
    apply line_comment_loop_done.
  - simpl in Hl. apply andb_prop in Hl as [Hx Hl].
    apply negb_true_iff in Hx. unfold is_newline in Hx.
    simpl. rewrite Hx. apply IH; assumption.
Qed.

Lemma line_comment_end_drops (position : list ascii) :
  line_comment_end position = drop_line_end position.
Proof.
  destruct position as [|d rest]; [reflexivity |].
  unfold line_comment_end, drop_line_end, is_newline.
  destruct (Ascii.eqb_spec d char_newline) as [-> | Hn].
  - destruct rest as [|e rest']; [reflexivity |]. simpl.
    destruct (Ascii.eqb_spec e char_return) as [-> | Hr]; [reflexivity |].
    destruct (Ascii.eqb_spec e char_newline) as [-> | He]; [reflexivity |].
    reflexivity.
  - destruct (Ascii.eqb_spec d char_return) as [-> | Hr]; [| reflexivity].
    destruct rest as [|e rest']; [reflexivity |]. simpl.
    destruct (Ascii.eqb_spec e char_newline) as [-> | He]; [reflexivity |].
    destruct (Ascii.eqb_spec e char_return) as [-> | He']; reflexivity.
Qed.

(** The three ways the loop of [match_block_comment] ends on a body it
    reads in pairs: at the closing star and slash, at the end of the input,
    and beyond it. *)
Lemma block_comment_loop_paired (n : nat) :
  forall body,
    (List.length body <= n)%nat ->
    paired body = true ->
    (forall rest,
       block_comment_loop false (body ++ char_star :: char_slash :: rest)
       = Some rest)
    /\ block_comment_loop false body = Some []
    /\ block_comment_loop false (body ++ [char_star]) = None.
Proof.
  induction n as [|n IH]; intros body Hn Hp.
  - destruct body; [| simpl in Hn; lia]. simpl.
    repeat split. intros [|d rest]; reflexivity.
  - destruct body as [|c body1].
    + simpl. repeat split. intros [|d rest]; reflexivity.
    + simpl in Hp. simpl. destruct (Ascii.eqb c char_star).
      * destruct body1 as [|d body2]; [discriminate |].
        apply andb_prop in Hp as [Hd Hp]. apply negb_true_iff in Hd.
        simpl. rewrite Hd. apply IH; [simpl in Hn; lia | exact Hp].
      * apply IH; [simpl in Hn; lia | exact Hp].
Qed.

End Scans.

(** ** The error policy does not steer the parser *)

Create HintDb alike discriminated.

Section Policy.

Lemma handed_nil (policy : option (list error_report)) :
  handed [] policy = policy.
Proof. destruct policy; simpl; rewrite ?app_nil_r; reflexivity. Qed.

Lemma handed_app (first second : list error_report)
    (policy : option (list error_report)) :
  handed second (handed first policy) = handed (first ++ second) policy.
Proof. destruct policy; simpl; rewrite <- ?app_assoc; reflexivity. Qed.

Lemma set_error_policy_same (self : GrammarParser) :
  set_error_policy (error_policy_ self) self = self.
Proof. destruct self. reflexivity. Qed.

Lemma reports_alike_ret {A : Type} (a : A) : reports_alike (ret a).
Proof.
  intros self. exists []. split; [reflexivity |].
  intros policy. rewrite handed_nil. reflexivity.
Qed.

Lemma reports_alike_bind {A B : Type} (m : M A) (k : A -> M B) :
  reports_alike m -> (forall a, reports_alike (k a)) ->
  reports_alike (bind m k).
Proof.
  intros Hm Hk self. specialize (Hm self). unfold bind.
  destruct (m self) as [a s1| |].
  - destruct Hm as (r1 & He1 & Hall1). specialize (Hk a s1).
    destruct (k a s1) as [b s2| |].
    + destruct Hk as (r2 & He2 & Hall2). exists (r1 ++ r2).
      split; [rewrite iter_app, <- He1; exact He2 |].
      intros policy. rewrite Hall1, Hall2, handed_app. reflexivity.
    + intros policy. rewrite Hall1. apply Hk.
    + intros policy. rewrite Hall1. apply Hk.
  - intros policy. rewrite Hm. reflexivity.
  - intros policy. rewrite Hm. reflexivity.
Qed.

(** What is read from the parser is not the error policy. *)
Lemma reports_alike_get {B : Type} (k : GrammarParser -> M B) :
  (forall policy self, k (set_error_policy policy self) = k self) ->
  (forall self, reports_alike (k self)) ->
  reports_alike (bind get k).
Proof.
  intros Hfree Hk self. specialize (Hk self self). unfold bind, get.
  destruct (k self self) as [b s2| |].
  - destruct Hk as (r & He & Hall). exists r. split; [exact He |].
    intros policy. rewrite Hfree. apply Hall.
  - intros policy. rewrite Hfree. apply Hk.
  - intros policy. rewrite Hfree. apply Hk.
Qed.

Lemma reports_alike_free {A : Type} (m : M A) :
  policy_free m -> respects moved m -> reports_alike m.
Proof.
  intros Hfree Hmoved self. specialize (Hmoved self).
  pose proof (fun policy => Hfree policy self) as Hall.
  destruct (m self) as [a self'| |].
  - exists []. split; [rewrite Hmoved; reflexivity |].
    intros policy. rewrite Hall, handed_nil. reflexivity.
  - exact Hall.
  - exact Hall.
Qed.

Lemma reports_alike_modify (f : GrammarParser -> GrammarParser) :
  (forall policy self,
     f (set_error_policy policy self) = set_error_policy policy (f self)) ->
  (forall self, errors_ (f self) = errors_ self) ->
  reports_alike (modify f).
Proof.
  intros Hf He self. exists []. split; [apply He |].
  intros policy. unfold modify. rewrite Hf, handed_nil. reflexivity.
Qed.

Lemma reports_alike_grammar (c : grammar_call) : reports_alike (grammar c).
Proof. apply reports_alike_modify; reflexivity. Qed.

Lemma reports_alike_error line column e format args :
  reports_alike (error line column e format args).
Proof.
  intros self. exists [mk_error_report line column e format args].
  split; [reflexivity |].
  intros [before|]; reflexivity.
Qed.

Lemma reports_alike_while (cond : M bool) :
  reports_alike cond -> forall fuel, reports_alike (while_ fuel cond).
Proof.
  intros Hc. induction fuel as [|fuel IH];
    [intros self policy; reflexivity |].
  simpl. apply reports_alike_bind; [exact Hc |].
  intros [|]; [exact IH | apply reports_alike_ret].
Qed.

Lemma reports_alike_while_consuming (cond : M bool) :
  reports_alike cond -> reports_alike (while_consuming cond).
Proof.
  intros Hc self. unfold while_consuming.
  exact (reports_alike_while cond Hc (S (remaining self)) self).
Qed.

Lemma policy_free_match_without_skipping_whitespace lexeme :
  policy_free (match_without_skipping_whitespace lexeme).
Proof.
  intros policy self. unfold match_without_skipping_whitespace. simpl.
  destruct (keyword_loop (position_ self) lexeme) as [position [|k lexeme']];
    reflexivity.
Qed.

Lemma policy_free_match_whitespace : policy_free match_whitespace.
Proof.
  intros policy self. unfold match_whitespace. simpl.
  destruct (position_ self) as [|c position]; [reflexivity |].
  destruct (isspace c); [| reflexivity].
  destruct (whitespace_loop false (line_ self) (c :: position)); reflexivity.
Qed.

Lemma policy_free_match_line_comment : policy_free match_line_comment.
Proof.
  intros policy self. unfold match_line_comment, bind.
  rewrite policy_free_match_without_skipping_whitespace.
  destruct (match_without_skipping_whitespace _ self) as [[|] s| |];
    reflexivity.
Qed.

Lemma policy_free_match_block_comment : policy_free match_block_comment.
Proof.
  intros policy self. unfold match_block_comment, bind.
  rewrite policy_free_match_without_skipping_whitespace.
  destruct (match_without_skipping_whitespace _ self) as [[|] s| |];
    try reflexivity. simpl.
  destruct (block_comment_loop false (position_ s)); reflexivity.
Qed.

Lemma reports_alike_match_without_skipping_whitespace lexeme :
  reports_alike (match_without_skipping_whitespace lexeme).
Proof.
  apply reports_alike_free.
  - apply policy_free_match_without_skipping_whitespace.
  - apply moved_match_without_skipping_whitespace.
Qed.

Lemma reports_alike_match_whitespace_and_comments :
  reports_alike match_whitespace_and_comments.
Proof.
  unfold match_whitespace_and_comments.
  apply reports_alike_bind; [| intros; apply reports_alike_ret].
  apply reports_alike_while_consuming. unfold orelse.
  apply reports_alike_bind.
  { apply reports_alike_free;
      [apply policy_free_match_whitespace | apply moved_match_whitespace]. }
  intros [|]; [apply reports_alike_ret |].
  apply reports_alike_bind.
  { apply reports_alike_free;
      [apply policy_free_match_line_comment
      | apply moved_match_line_comment]. }
  intros [|]; [apply reports_alike_ret |].
  apply reports_alike_free;
    [apply policy_free_match_block_comment | apply moved_match_block_comment].
Qed.

Hint Resolve reports_alike_ret reports_alike_grammar reports_alike_error
  reports_alike_match_without_skipping_whitespace
  reports_alike_match_whitespace_and_comments : alike.

(** Takes a goal about a member function apart along its shape. *)
Ltac alike_tac :=
  repeat first
    [ solve [auto with alike]
    | progress intros
    | match goal with
      | |- reports_alike (bind get _) =>
          apply reports_alike_get; [reflexivity |]
      | |- reports_alike (bind _ _) => apply reports_alike_bind
      | |- reports_alike (modify _) =>
          apply reports_alike_modify; reflexivity
      | |- reports_alike (if ?b then _ else _) => destruct b
      | |- reports_alike (let (_, _) := ?x in _) => destruct x
      | |- reports_alike (match position_ ?s with _ => _ end) =>
          destruct (position_ s)
      | |- reports_alike (orelse _ _) => unfold orelse
      | |- reports_alike (andalso _ _) => unfold andalso
      | |- reports_alike (while_consuming _) =>
          apply reports_alike_while_consuming
      end ].

Lemma reports_alike_match_ (keyword : list ascii) :
  reports_alike (match_ keyword).
Proof. unfold match_. alike_tac. Qed.

Hint Resolve reports_alike_match_ : alike.

Lemma reports_alike_match_end : reports_alike match_end.
Proof. unfold match_end. alike_tac. Qed.

Lemma reports_alike_expect (lexeme : list ascii) :
  reports_alike (expect lexeme).
Proof. unfold expect. alike_tac. Qed.

Hint Resolve reports_alike_match_end reports_alike_expect : alike.

Lemma reports_alike_match_identifier : reports_alike match_identifier.
Proof. unfold match_identifier. alike_tac. Qed.

Lemma reports_alike_match_regex : reports_alike match_regex.
Proof. unfold match_regex. alike_tac. Qed.

Lemma reports_alike_match_literal : reports_alike match_literal.
Proof. unfold match_literal. alike_tac. Qed.

Lemma reports_alike_match_error : reports_alike match_error.
Proof. unfold match_error. alike_tac. Qed.

Hint Resolve reports_alike_match_identifier reports_alike_match_regex
  reports_alike_match_literal reports_alike_match_error : alike.

Lemma reports_alike_grammar_lexeme call :
  reports_alike (grammar_lexeme call).
Proof. unfold grammar_lexeme. alike_tac. Qed.

Lemma reports_alike_grammar_line call : reports_alike (grammar_line call).
Proof. unfold grammar_line. alike_tac. Qed.

Hint Resolve reports_alike_grammar_lexeme reports_alike_grammar_line : alike.

Lemma reports_alike_match_symbol : reports_alike match_symbol.
Proof. unfold match_symbol. alike_tac. Qed.

Hint Resolve reports_alike_match_symbol : alike.

Lemma reports_alike_match_symbols : reports_alike match_symbols.
Proof. unfold match_symbols. alike_tac. Qed.

Lemma reports_alike_match_associativity : reports_alike match_associativity.
Proof. unfold match_associativity. alike_tac. Qed.

Hint Resolve reports_alike_match_symbols reports_alike_match_associativity
  : alike.

Lemma reports_alike_match_precedence : reports_alike match_precedence.
Proof. unfold match_precedence. alike_tac. Qed.

Lemma reports_alike_match_action : reports_alike match_action.
Proof. unfold match_action. alike_tac. Qed.

Hint Resolve reports_alike_match_precedence reports_alike_match_action
  : alike.

Lemma reports_alike_match_expression : reports_alike match_expression.
Proof. unfold match_expression. alike_tac. Qed.

Hint Resolve reports_alike_match_expression : alike.

Lemma reports_alike_match_expressions : reports_alike match_expressions.
Proof. unfold match_expressions. alike_tac. Qed.

Hint Resolve reports_alike_match_expressions : alike.

Lemma reports_alike_match_associativity_statement :
  reports_alike match_associativity_statement.
Proof. unfold match_associativity_statement. alike_tac. Qed.

Lemma reports_alike_match_whitespace_statement :
  reports_alike match_whitespace_statement.
Proof. unfold match_whitespace_statement. alike_tac. Qed.

Lemma reports_alike_match_production_statement :
  reports_alike match_production_statement.
Proof. unfold match_production_statement. alike_tac. Qed.

Hint Resolve reports_alike_match_associativity_statement
  reports_alike_match_whitespace_statement
  reports_alike_match_production_statement : alike.

Lemma reports_alike_match_statement : reports_alike match_statement.
Proof. unfold match_statement. alike_tac. Qed.

Hint Resolve reports_alike_match_statement : alike.

Lemma reports_alike_match_statements : reports_alike match_statements.
Proof. unfold match_statements. alike_tac. Qed.

Hint Resolve reports_alike_match_statements : alike.

Lemma reports_alike_match_grammar : reports_alike match_grammar.
Proof. unfold match_grammar. alike_tac. Qed.

End Policy.

(** ** Keywords, white space and comments *)

(** The two outcomes of [match_without_skipping_whitespace]. *)
Lemma keyword_outcome (lexeme : list ascii) (self : GrammarParser) :
  (exists rest,
     position_ self = lexeme ++ rest
     /\ match_without_skipping_whitespace lexeme self
        = Returns true (set_position rest self))
  \/ ((forall rest, position_ self <> lexeme ++ rest)
      /\ match_without_skipping_whitespace lexeme self = Returns false self).
Proof.
  unfold match_without_skipping_whitespace.
  destruct (keyword_loop (position_ self) lexeme) as [stop left] eqn:Hloop.
  destruct (keyword_loop_prefix _ _ _ _ Hloop) as [[-> Hp]|[Hleft Hno]].
  - left. exists stop. auto.
  - right. split; [exact Hno |]. destruct left; [contradiction | reflexivity].
Qed.

(** X1.  [match_without_skipping_whitespace] succeeds exactly when the
    keyword is a prefix of the unread input; it then steps over the keyword
    and nothing more, and when it fails it leaves the parser as it was, a
    partial match included. *)
Theorem match_without_skipping_whitespace_exact (lexeme : list ascii)
    (self : GrammarParser) :
  (exists rest,
     position_ self = lexeme ++ rest
     /\ match_without_skipping_whitespace lexeme self
        = Returns true (set_position rest self))
  \/ ((forall rest, position_ self <> lexeme ++ rest)
      /\ match_without_skipping_whitespace lexeme self = Returns false self).
Proof. exact (keyword_outcome lexeme self). Qed.

(** [match_whitespace] on a run of white space. *)
Lemma whitespace_run (self : GrammarParser)
    (c : ascii) (spaces rest : list ascii) :
  position_ self = (c :: spaces) ++ rest ->
  INT_MIN <= line_ self <= INT_MAX ->
  forallb isspace (c :: spaces) = true ->
  match rest with [] => True | d :: _ => isspace d = false end ->
  match_whitespace self
  = Returns true
      (set_position rest
         (set_line (int_wrap (line_ self + line_ends (c :: spaces))) self)).
Proof.
  intros Hp Hline Hs Hrest. unfold match_whitespace. rewrite Hp.
  pose proof Hs as Hs'. simpl in Hs'. apply andb_prop in Hs' as [Hc _].
  cbn [app]. rewrite Hc.
  change (c :: spaces ++ rest) with ((c :: spaces) ++ rest).
  rewrite (whitespace_loop_run (c :: spaces) (line_ self) rest Hline Hs
             Hrest).
  reflexivity.
Qed.

(** X2.  [match_whitespace] steps over the whole run of white space in
    front of it and increments [line_] once for every line feed and for
    every carriage return in the run, so that a carriage return with a line
    feed counts as two lines.  [line_] is an [int]: counted up from
    [INT_MAX] it is [INT_MIN]. *)
Theorem match_whitespace_counts_line_ends (self : GrammarParser)
    (c : ascii) (spaces rest : list ascii) :
  position_ self = (c :: spaces) ++ rest ->
  INT_MIN <= line_ self <= INT_MAX ->
  forallb isspace (c :: spaces) = true ->
  match rest with [] => True | d :: _ => isspace d = false end ->
  match_whitespace self
  = Returns true
      (set_position rest
         (set_line (int_wrap (line_ self + line_ends (c :: spaces))) self)).
Proof.
  exact (whitespace_run self c spaces rest).
Qed.

Lemma match_whitespace_counts_line_ends_witness :
  match_whitespace
    (mk_GrammarParser None []
       (chars " " ++ [char_return; char_newline] ++ chars "  x") 2147483646
       [] 0)
  = Returns true (mk_GrammarParser None [] (chars "x") (-2147483648) [] 0).
Proof.
  apply (match_whitespace_counts_line_ends
           (mk_GrammarParser None []
              (chars " " ++ [char_return; char_newline] ++ chars "  x")
              2147483646 [] 0)
           " "%char ([char_return; char_newline] ++ chars "  ") (chars "x"));
    [reflexivity | unfold INT_MIN, INT_MAX; simpl; lia | reflexivity
    | reflexivity].
Defined.

(** X3.  [match_line_comment] steps over [//] and the rest of the line
    with its line end, and then over one more line end if one follows
    directly, a line feed and a carriage return in either order being one
    line end: behind [// c] followed by CR LF it resumes behind the LF, and
    an empty line behind a comment is stepped over as well.  Without a line
    end the comment takes the rest of the input.  Nothing else changes:
    [line_] is not counted up for any line end stepped over here. *)
Theorem match_line_comment_skips_line (self : GrammarParser)
    (body ending : list ascii) :
  position_ self = char_slash :: char_slash :: body ++ ending ->
  on_one_line body = true ->
  match ending with [] => True | c :: _ => is_newline c = true end ->
  match_line_comment self
  = Returns true (set_position (drop_line_end (tl ending)) self).
Proof.
  intros Hp Hl Hending.
  unfold match_line_comment, bind, match_without_skipping_whitespace.
  rewrite Hp. unfold chars. cbn [list_ascii_of_string keyword_loop].
  change "/"%char with char_slash. rewrite !Ascii.eqb_refl.
  rewrite keyword_loop_nil. unfold modify, ret.
  cbn [position_ set_position].
  rewrite (line_comment_loop_run body ending Hl Hending).
  rewrite line_comment_end_drops. reflexivity.
Qed.

Lemma match_line_comment_skips_line_witness :
  match_line_comment
    (mk_GrammarParser None []
       (chars "// a comment" ++ [char_return; char_newline; char_newline]
        ++ chars "unit: expr;") 4 [] 0)
  = Returns true
      (mk_GrammarParser None [] ([char_newline] ++ chars "unit: expr;") 4 []
         0).
Proof.
  apply (match_line_comment_skips_line
           (mk_GrammarParser None []
              (chars "// a comment" ++ [char_return; char_newline; char_newline]
               ++ chars "unit: expr;")
              4 [] 0)
           (chars " a comment")
           ([char_return; char_newline; char_newline] ++ chars "unit: expr;"));
    reflexivity.
Defined.

(** The start of [match_block_comment] on an opened comment. *)
Lemma match_block_comment_opened (self : GrammarParser) (inside : list ascii) :
  position_ self = char_slash :: char_star :: inside ->
  match_block_comment self =
  match block_comment_loop false inside with
  | Some position => Returns true (set_position position self)
  | None => ReadsPastEnd
  end.
Proof.
  intros Hp.
  unfold match_block_comment, bind, match_without_skipping_whitespace.
  rewrite Hp. unfold chars. cbn [list_ascii_of_string keyword_loop].
  change "/"%char with char_slash. change "*"%char with char_star.
  rewrite !Ascii.eqb_refl, keyword_loop_nil. cbn [position_ set_position].
  destruct (block_comment_loop false inside); reflexivity.
Qed.

(** X4.  A block comment whose body the loop reads in pairs (each star of
    the body is followed by a character other than a slash, and the loop
    takes the two together) is skipped exactly: the position is left behind
    its closing star and slash and nothing else changes, line ends in the
    body not being counted. *)
Theorem match_block_comment_paired (self : GrammarParser)
    (body rest : list ascii) :
  position_ self
  = char_slash :: char_star :: body ++ char_star :: char_slash :: rest ->
  paired body = true ->
  match_block_comment self = Returns true (set_position rest self).
Proof.
  intros Hp Hpaired. rewrite (match_block_comment_opened self _ Hp).
  destruct (block_comment_loop_paired _ body (le_n _) Hpaired) as [H _].
  rewrite H. reflexivity.
Qed.

Lemma match_block_comment_paired_witness :
  match_block_comment
    (mk_GrammarParser None []
       (chars "/* a ** b" ++ [char_newline] ++ chars " c */ expr") 2 [] 0)
  = Returns true (mk_GrammarParser None [] (chars " expr") 2 [] 0).
Proof.
  apply (match_block_comment_paired
           (mk_GrammarParser None []
              (chars "/* a ** b" ++ [char_newline] ++ chars " c */ expr")
              2 [] 0)
           (chars " a ** b" ++ [char_newline] ++ chars " c ")
           (chars " expr"));
    reflexivity.
Defined.

(** X5.  A block comment that the loop reads in pairs to the end of the
    input (each star it meets is followed by a character other than a
    slash, which it takes with it, so that no star is left at the very end)
    takes the rest of the input: [match_block_comment] returns true at the
    end of the input without counting or reporting an error. *)
Theorem match_block_comment_unclosed (self : GrammarParser)
    (body : list ascii) :
  position_ self = char_slash :: char_star :: body ->
  paired body = true ->
  match_block_comment self = Returns true (set_position [] self).
Proof.
  intros Hp Hpaired. rewrite (match_block_comment_opened self _ Hp).
  destruct (block_comment_loop_paired _ body (le_n _) Hpaired) as (_ & H & _).
  rewrite H. reflexivity.
Qed.

Lemma match_block_comment_unclosed_witness :
  match_block_comment
    (mk_GrammarParser (Some []) [] (chars "/* unit: expr ; }") 1 [] 0)
  = Returns true (mk_GrammarParser (Some []) [] [] 1 [] 0).
Proof.
  apply (match_block_comment_unclosed
           (mk_GrammarParser (Some []) [] (chars "/* unit: expr ; }") 1 [] 0)
           (chars " unit: expr ; }"));
    reflexivity.
Defined.

(** X6.  When the input ends inside a block comment with a star that the
    loop does not take together with the character before it, the loop
    steps from the star to [end_], does not test there, steps once more to
    one past [end_], and its test reads there: [match_block_comment] and
    with it [match_whitespace_and_comments], the first call of every
    matching function, read beyond the range. *)
Theorem match_block_comment_reads_past_end (self : GrammarParser)
    (body : list ascii) :
  position_ self = char_slash :: char_star :: body ++ [char_star] ->
  paired body = true ->
  match_block_comment self = ReadsPastEnd
  /\ match_whitespace_and_comments self = ReadsPastEnd.
Proof.
  intros Hp Hpaired.
  assert (Hblock : match_block_comment self = ReadsPastEnd).
  { rewrite (match_block_comment_opened self _ Hp).
    destruct (block_comment_loop_paired _ body (le_n _) Hpaired)
      as (_ & _ & H).
    rewrite H. reflexivity. }
  split; [exact Hblock |].
  assert (Hw : match_whitespace self = Returns false self).
  { unfold match_whitespace. rewrite Hp. reflexivity. }
  assert (Hl : match_line_comment self = Returns false self).
  { unfold match_line_comment, bind, match_without_skipping_whitespace.
    rewrite Hp. reflexivity. }
  unfold match_whitespace_and_comments, while_consuming, bind at 1.
  cbn [while_]. unfold bind at 1, orelse at 1, bind at 1.
  rewrite Hw. unfold orelse, bind. rewrite Hl, Hblock. reflexivity.
Qed.

Lemma match_block_comment_reads_past_end_witness :
  match_block_comment
    (mk_GrammarParser None [] (chars "/* to do *") 1 [] 0) = ReadsPastEnd
  /\ match_whitespace_and_comments
       (mk_GrammarParser None [] (chars "/* to do *") 1 [] 0) = ReadsPastEnd.
Proof.
  apply (match_block_comment_reads_past_end
           (mk_GrammarParser None [] (chars "/* to do *") 1 [] 0)
           (chars " to do "));
    reflexivity.
Defined.

Section Skipping.

Lemma match_whitespace_false (self self' : GrammarParser) :
  match_whitespace self = Returns false self' ->
  self' = self
  /\ match position_ self with [] => True | c :: _ => isspace c = false end.
Proof.
  unfold match_whitespace.
  destruct (position_ self) as [|c position].
  - intros H. injection H as <-. auto.
  - destruct (isspace c).
    + destruct (whitespace_loop false (line_ self) (c :: position)).
      discriminate.
    + intros H. injection H as <-. auto.
Qed.

Lemma keyword_false (lexeme : list ascii) (self self' : GrammarParser) :
  match_without_skipping_whitespace lexeme self = Returns false self' ->
  self' = self /\ forall rest, position_ self <> lexeme ++ rest.
Proof.
  destruct (keyword_outcome lexeme self)
    as [(rest & _ & ->)|[Hno ->]].
  - discriminate.
  - intros H. injection H as <-. auto.
Qed.

Lemma keyword_true (lexeme rest : list ascii) (self : GrammarParser) :
  position_ self = lexeme ++ rest ->
  match_without_skipping_whitespace lexeme self
  = Returns true (set_position rest self).
Proof.
  intros Hp.
  destruct (keyword_outcome lexeme self)
    as [(rest' & Hp' & ->)|[Hno _]].
  - rewrite Hp in Hp'. apply app_inv_head in Hp'. subst rest'. reflexivity.
  - destruct (Hno rest Hp).
Qed.

Lemma match_line_comment_false (self self' : GrammarParser) :
  match_line_comment self = Returns false self' ->
  self' = self /\ forall rest, position_ self <> chars "//" ++ rest.
Proof.
  unfold match_line_comment, bind.
  destruct (match_without_skipping_whitespace (chars "//") self)
    as [[|] after| |] eqn:Hk; try discriminate.
  intros H. injection H as <-. apply keyword_false, Hk.
Qed.

Lemma match_block_comment_false (self self' : GrammarParser) :
  match_block_comment self = Returns false self' ->
  self' = self /\ forall rest, position_ self <> chars "/*" ++ rest.
Proof.
  unfold match_block_comment, bind.
  destruct (match_without_skipping_whitespace (chars "/*") self)
    as [[|] after| |] eqn:Hk.
  - destruct (block_comment_loop false (position_ after)); discriminate.
  - intros H. injection H as <-. apply keyword_false, Hk.
  - discriminate.
  - discriminate.
Qed.

(** What it means that nothing was left to skip. *)
Lemma skip_false (self self' : GrammarParser) :
  orelse match_whitespace (orelse match_line_comment match_block_comment) self
  = Returns false self' ->
  self' = self /\ at_token (position_ self) = true.
Proof.
  unfold orelse, bind.
  destruct (match_whitespace self) as [[|] s1| |] eqn:Hw; try discriminate.
  apply match_whitespace_false in Hw as [-> Hspace].
  destruct (match_line_comment self) as [[|] s2| |] eqn:Hl; try discriminate.
  apply match_line_comment_false in Hl as [-> Hline].
  intros Hb. apply match_block_comment_false in Hb as [-> Hblock].
  split; [reflexivity |].
  unfold at_token. destruct (position_ self) as [|c rest]; [reflexivity |].
  rewrite Hspace. simpl.
  destruct (Ascii.eqb c char_slash) eqn:Hc; [| reflexivity].
  apply Ascii.eqb_eq in Hc. subst c.
  destruct rest as [|d rest]; [reflexivity |]. simpl.
  destruct (Ascii.eqb d char_slash) eqn:Hd.
  - apply Ascii.eqb_eq in Hd. subst d. destruct (Hline rest). reflexivity.
  - destruct (Ascii.eqb d char_star) eqn:Hs; [| reflexivity].
    apply Ascii.eqb_eq in Hs. subst d. destruct (Hblock rest). reflexivity.
Qed.

Lemma while_exit (cond : M bool) :
  fails_in_place cond ->
  forall fuel self self',
    while_ fuel cond self = Returns tt self' ->
    cond self' = Returns false self'.
Proof.
  intros Hplace. induction fuel as [|fuel IH]; intros self self';
    [discriminate |].
  simpl. unfold bind.
  destruct (cond self) as [[|] s1| |] eqn:Hc; try discriminate.
  - apply IH.
  - intros H. injection H as <-.
    rewrite (Hplace _ _ Hc) in Hc |- *. exact Hc.
Qed.

Lemma keyword_at_end (self : GrammarParser) (k : ascii)
    (keyword : list ascii) :
  position_ self = [] ->
  match_without_skipping_whitespace (k :: keyword) self = Returns false self.
Proof.
  intros Hp. unfold match_without_skipping_whitespace. rewrite Hp.
  reflexivity.
Qed.

Lemma nothing_to_skip_at_end (self : GrammarParser) :
  position_ self = [] ->
  match_whitespace_and_comments self = Returns true self.
Proof.
  intros Hp.
  assert (Hw : match_whitespace self = Returns false self).
  { unfold match_whitespace. rewrite Hp. reflexivity. }
  assert (Hl : match_line_comment self = Returns false self).
  { unfold match_line_comment, bind, chars. cbn [list_ascii_of_string].
    rewrite (keyword_at_end self _ _ Hp). reflexivity. }
  assert (Hb : match_block_comment self = Returns false self).
  { unfold match_block_comment, bind, chars. cbn [list_ascii_of_string].
    rewrite (keyword_at_end self _ _ Hp). reflexivity. }
  unfold match_whitespace_and_comments, while_consuming, bind at 1.
  cbn [while_]. unfold bind at 1, orelse at 1, bind at 1.
  rewrite Hw. unfold orelse, bind. rewrite Hl, Hb. reflexivity.
Qed.

End Skipping.

(** X7.  When [match_whitespace_and_comments] returns, it returns true, the
    position is at the end of the input or at a character that starts
    neither white space nor a comment, and calling it again changes
    nothing. *)
Theorem match_whitespace_and_comments_stops_at_token
    (self self' : GrammarParser) (b : bool) :
  match_whitespace_and_comments self = Returns b self' ->
  b = true
  /\ at_token (position_ self') = true
  /\ match_whitespace_and_comments self' = Returns true self'.
Proof.
  unfold match_whitespace_and_comments at 1. unfold bind, while_consuming.
  destruct (while_ _ _ self) as [[] s| |] eqn:Hloop; try discriminate.
  intros H. injection H as <- <-.
  assert (Hplace : fails_in_place
            (orelse match_whitespace
               (orelse match_line_comment match_block_comment))).
  { intros a a' Ha. apply skip_false in Ha. apply Ha. }
  pose proof (while_exit _ Hplace _ _ _ Hloop) as Hexit.
  split; [reflexivity |]. split; [apply (skip_false _ _ Hexit) |].
  unfold match_whitespace_and_comments, while_consuming, bind at 1.
  cbn [while_]. unfold bind at 1. rewrite Hexit. reflexivity.
Qed.

Lemma match_whitespace_and_comments_stops_at_token_witness :
  true = true
  /\ at_token (chars "expr ;") = true
  /\ match_whitespace_and_comments
       (mk_GrammarParser None [] (chars "expr ;") 1 [] 0)
     = Returns true (mk_GrammarParser None [] (chars "expr ;") 1 [] 0).
Proof.
  apply (match_whitespace_and_comments_stops_at_token
           (mk_GrammarParser None []
              (chars " // one" ++ [char_newline] ++ chars "/* two */ expr ;")
              1 [] 0)
           (mk_GrammarParser None [] (chars "expr ;") 1 [] 0) true).
  reflexivity.
Defined.

(** ** Identifiers, literals, regular expressions and keywords *)

Section Symbols.

Lemma skipping_returns_true (self self' : GrammarParser) (b : bool) :
  match_whitespace_and_comments self = Returns b self' -> b = true.
Proof.
  unfold match_whitespace_and_comments, bind.
  destruct (while_consuming _ self); try discriminate.
  intros H. injection H as <- _. reflexivity.
Qed.

Lemma identifier_loop_condition (c : ascii) :
  (isalnum c || isdigit c || Ascii.eqb c char_underscore)%bool
  = identifier_character c.
Proof.
  unfold identifier_character, isalnum.
  destruct (isalpha c), (isdigit c), (Ascii.eqb c char_underscore);
    reflexivity.
Qed.

Lemma identifier_loop_characters (position : list ascii) :
  forallb identifier_character (fst (identifier_loop position)) = true
  /\ match snd (identifier_loop position) with
     | [] => True
     | c :: _ => identifier_character c = false
     end.
Proof.
  induction position as [|c position IH]; simpl; [auto |].
  rewrite identifier_loop_condition.
  destruct (identifier_character c) eqn:Hc.
  - destruct (identifier_loop position) as [scanned stop]. simpl in *.
    rewrite Hc. exact IH.
  - simpl. auto.
Qed.

Lemma literal_loop_closed (body : list ascii) :
  forall escaped rest,
    unclosed char_quote escaped body = true ->
    escapes_next escaped body = false ->
    on_one_line body = true ->
    literal_loop escaped (body ++ char_quote :: rest)
    = (body, char_quote :: rest).
Proof.
  induction body as [|x body IH]; intros escaped rest Hu He Hl.
  - simpl in *. subst escaped. reflexivity.
  - simpl in *. apply andb_prop in Hu as [Hx Hu].
    apply andb_prop in Hl as [Hn Hl].
    rewrite Hx, Hn. simpl. rewrite (IH _ rest Hu He Hl). reflexivity.
Qed.

Lemma literal_loop_to_end (body : list ascii) :
  forall escaped,
    unclosed char_quote escaped body = true ->
    on_one_line body = true ->
    literal_loop escaped body = (body, []).
Proof.
  induction body as [|x body IH]; intros escaped Hu Hl; [reflexivity |].
  simpl in *. apply andb_prop in Hu as [Hx Hu].
  apply andb_prop in Hl as [Hn Hl].
  rewrite Hx, Hn. simpl. rewrite (IH _ Hu Hl). reflexivity.
Qed.

Lemma regex_loop_to_end (body : list ascii) :
  forall escaped,
    unclosed char_dquote escaped body = true ->
    regex_loop escaped body = (body, []).
Proof.
  induction body as [|x body IH]; intros escaped Hu; [reflexivity |].
  simpl in *. apply andb_prop in Hu as [Hx Hu].
  rewrite Hx. rewrite (IH _ Hu). reflexivity.
Qed.

(** [expect] at the end of the input. *)
Lemma expect_at_end (self : GrammarParser) (k : ascii) (lexeme : list ascii) :
  position_ self = [] ->
  expect (k :: lexeme) self
  = Returns false
      (reported (line_ self) 0 LALR_ERROR_SYNTAX "expected '%s' not found"
         [k :: lexeme] (set_position [] self)).
Proof.
  intros Hp. unfold expect, match_. unfold bind at 1, bind at 1.
  rewrite (nothing_to_skip_at_end self Hp), (keyword_at_end self _ _ Hp).
  unfold bind, modify, get, error, ret, reported. simpl.
  destruct (error_policy_ self); reflexivity.
Qed.

End Symbols.

(** X8.  When [match_identifier] succeeds, [lexeme_] is the longest run of
    letters, digits and underscores at the position reached by skipping
    white space and comments: the run is not empty, the position is left
    right behind it, and the character there, if any, cannot continue an
    identifier.  Nothing else changes. *)
Theorem match_identifier_longest (self self' : GrammarParser) :
  match_identifier self = Returns true self' ->
  exists skipped,
    match_whitespace_and_comments self = Returns true skipped
    /\ self'
       = set_position (position_ self') (set_lexeme (lexeme_ self') skipped)
    /\ position_ skipped = lexeme_ self' ++ position_ self'
    /\ lexeme_ self' <> []
    /\ forallb identifier_character (lexeme_ self') = true
    /\ match position_ self' with
       | [] => True
       | c :: _ => identifier_character c = false
       end.
Proof.
  unfold match_identifier, bind.
  destruct (match_whitespace_and_comments self) as [b skipped| |] eqn:Hskip;
    try discriminate.
  pose proof (skipping_returns_true _ _ _ Hskip) as ->.
  unfold get. destruct (position_ skipped) as [|c position1] eqn:Hp;
    [discriminate |].
  destruct (isalnum c || Ascii.eqb c char_underscore)%bool eqn:Hc;
    [| discriminate].
  pose proof (identifier_loop_app position1) as Happ.
  pose proof (identifier_loop_characters position1) as [Hall Hstop].
  destruct (identifier_loop position1) as [scanned stop].
  unfold modify, ret. intros H. injection H as <-. simpl in *.
  exists skipped. repeat split; auto.
  - rewrite Hp, Happ. reflexivity.
  - unfold identifier_character at 1. rewrite Hc. exact Hall.
Qed.

Lemma match_identifier_longest_witness :
  exists skipped,
    match_whitespace_and_comments
      (mk_GrammarParser None [] (chars "  expr_2: x") 1 (chars "old") 0)
    = Returns true skipped
    /\ mk_GrammarParser None [] (chars ": x") 1 (chars "expr_2") 0
       = set_position (chars ": x") (set_lexeme (chars "expr_2") skipped)
    /\ position_ skipped = chars "expr_2" ++ chars ": x"
    /\ chars "expr_2" <> []
    /\ forallb identifier_character (chars "expr_2") = true
    /\ identifier_character ":"%char = false.
Proof.
  apply (match_identifier_longest
           (mk_GrammarParser None [] (chars "  expr_2: x") 1 (chars "old") 0)
           (mk_GrammarParser None [] (chars ": x") 1 (chars "expr_2") 0)).
  reflexivity.
Defined.

(** X9.  Where the next token is a quoted literal that is closed on its
    line, [match_literal] takes the characters between the quotes as
    [lexeme_] (a quote right behind a backslash does not close it and stays
    in the lexeme with its backslash), leaves the position behind the
    closing quote, and reports nothing. *)
Theorem match_literal_closed (before self : GrammarParser)
    (body rest : list ascii) :
  match_whitespace_and_comments before = Returns true self ->
  position_ self = char_quote :: body ++ char_quote :: rest ->
  unclosed char_quote false body = true ->
  escapes_next false body = false ->
  on_one_line body = true ->
  match_literal before
  = Returns true (set_position rest (set_lexeme body self)).
Proof.
  intros Hskip Hp Hu He Hl.
  unfold match_literal. unfold bind at 1. rewrite Hskip.
  unfold bind at 1.
  rewrite (match_one self char_quote _ Hp eq_refl eq_refl).
  unfold bind at 1, get. cbn [position_ set_position].
  rewrite (literal_loop_closed body false rest Hu He Hl).
  cbn [is_newline]. replace (negb (is_newline char_quote)) with true
    by reflexivity.
  unfold bind at 1, modify. unfold bind at 1.
  unfold bind at 1, expect, bind at 1.
  erewrite match_one; [reflexivity | reflexivity | reflexivity | reflexivity].
Qed.

Lemma match_literal_closed_witness :
  match_literal
    (mk_GrammarParser (Some []) [] (chars " 'it\'s' ;") 1 [] 0)
  = Returns true
      (mk_GrammarParser (Some []) [] (chars " ;") 1 (chars "it\'s") 0).
Proof.
  apply (match_literal_closed
           (mk_GrammarParser (Some []) [] (chars " 'it\'s' ;") 1 [] 0)
           (mk_GrammarParser (Some []) [] (chars "'it\'s' ;") 1 [] 0)
           (chars "it\'s") (chars " ;"));
    reflexivity.
Defined.

(** X10.  Where the next token opens with a quote and the input ends before
    a closing quote or a line end, [match_literal] still succeeds: it takes
    the rest of the input as [lexeme_], and the missing quote is counted and
    reported by [expect] as a syntax error. *)
Theorem match_literal_open_at_end (before self : GrammarParser)
    (body : list ascii) :
  match_whitespace_and_comments before = Returns true self ->
  position_ self = char_quote :: body ->
  unclosed char_quote false body = true ->
  on_one_line body = true ->
  match_literal before
  = Returns true
      (reported (line_ self) 0 LALR_ERROR_SYNTAX "expected '%s' not found"
         [[char_quote]] (set_position [] (set_lexeme body self))).
Proof.
  intros Hskip Hp Hu Hl.
  unfold match_literal. unfold bind at 1. rewrite Hskip.
  unfold bind at 1.
  rewrite (match_one self char_quote _ Hp eq_refl eq_refl).
  unfold bind at 1, get. cbn [position_ set_position].
  rewrite (literal_loop_to_end body false Hu Hl).
  unfold bind at 1, modify. unfold bind at 1. unfold bind at 1.
  rewrite expect_at_end; reflexivity.
Qed.

Lemma match_literal_open_at_end_witness :
  match_literal (mk_GrammarParser (Some []) [] (chars "'x ; }") 1 [] 0)
  = Returns true
      (mk_GrammarParser
         (Some [mk_error_report 1 0 LALR_ERROR_SYNTAX
                  "expected '%s' not found" [[char_quote]]])
         [] [] 1 (chars "x ; }") 1).
Proof.
  apply (match_literal_open_at_end
           (mk_GrammarParser (Some []) [] (chars "'x ; }") 1 [] 0)
           (mk_GrammarParser (Some []) [] (chars "'x ; }") 1 [] 0)
           (chars "x ; }"));
    reflexivity.
Defined.

(** X11.  Where the next token opens with a double quote and the input ends
    before a closing one, [match_regex] succeeds with the rest of the input
    as [lexeme_], and the missing quote is counted and reported by [expect]
    as a syntax error. *)
Theorem match_regex_open_at_end (before self : GrammarParser)
    (body : list ascii) :
  match_whitespace_and_comments before = Returns true self ->
  position_ self = char_dquote :: body ->
  unclosed char_dquote false body = true ->
  match_regex before
  = Returns true
      (reported (line_ self) 0 LALR_ERROR_SYNTAX "expected '%s' not found"
         [[char_dquote]] (set_position [] (set_lexeme body self))).
Proof.
  intros Hskip Hp Hu.
  unfold match_regex. unfold bind at 1. rewrite Hskip.
  unfold bind at 1.
  rewrite (match_one self char_dquote _ Hp eq_refl eq_refl).
  unfold bind at 1, get. cbn [position_ set_position].
  rewrite (regex_loop_to_end body false Hu).
  unfold bind at 1, modify. unfold bind at 1. unfold bind at 1.
  rewrite expect_at_end; reflexivity.
Qed.

Lemma match_regex_open_at_end_witness :
  match_regex
    (mk_GrammarParser (Some []) [] (char_dquote :: chars "[0-9]+ ;") 3 [] 0)
  = Returns true
      (mk_GrammarParser
         (Some [mk_error_report 3 0 LALR_ERROR_SYNTAX
                  "expected '%s' not found" [[char_dquote]]])
         [] [] 3 (chars "[0-9]+ ;") 1).
Proof.
  apply (match_regex_open_at_end
           (mk_GrammarParser (Some []) [] (char_dquote :: chars "[0-9]+ ;")
              3 [] 0)
           (mk_GrammarParser (Some []) [] (char_dquote :: chars "[0-9]+ ;")
              3 [] 0)
           (chars "[0-9]+ ;"));
    reflexivity.
Defined.

(** X12.  Keywords are matched as prefixes: wherever the unread input
    starts with [error], [match_symbol] takes those five characters as the
    error symbol and calls [error] on the grammar, whatever follows them, so
    that an identifier such as [errors] is read as [error] and [s]. *)
Theorem match_symbol_error_prefix (self : GrammarParser)
    (rest : list ascii) :
  position_ self = chars "error" ++ rest ->
  match_symbol self
  = Returns true
      (mk_GrammarParser (error_policy_ self)
         (grammar_ self ++ [call_error (line_ self)]) rest (line_ self)
         (lexeme_ self) (errors_ self)).
Proof.
  intros Hp.
  unfold match_symbol, bind at 1, match_error, match_, bind at 1.
  rewrite (nothing_to_skip self "e"%char (chars "rror" ++ rest) Hp
             eq_refl eq_refl).
  rewrite (keyword_true (chars "error") rest self Hp).
  reflexivity.
Qed.

Lemma match_symbol_error_prefix_witness :
  match_symbol (mk_GrammarParser None [] (chars "errors ;") 1 [] 0)
  = Returns true
      (mk_GrammarParser None [call_error 1] (chars "s ;") 1 [] 0).
Proof.
  apply (match_symbol_error_prefix
           (mk_GrammarParser None [] (chars "errors ;") 1 [] 0)
           (chars "s ;")).
  reflexivity.
Defined.

(** X13.  What [expect] leaves: when it succeeds, no error is counted or
    reported and no call is made on the grammar; when it fails, the position
    is at the end of the input, exactly one error is counted, and the error
    policy, if there is one, is told of one syntax error that names the
    expected lexeme at the current line. *)
Theorem expect_outcome (lexeme : list ascii) (self self' : GrammarParser)
    (b : bool) :
  expect lexeme self = Returns b self' ->
  grammar_ self' = grammar_ self
  /\ lexeme_ self' = lexeme_ self
  /\ if b
     then errors_ self' = errors_ self
          /\ error_policy_ self' = error_policy_ self
     else position_ self' = []
          /\ errors_ self' = increment (errors_ self)
          /\ error_policy_ self'
             = option_map
                 (fun reports =>
                    reports
                    ++ [mk_error_report (line_ self') 0 LALR_ERROR_SYNTAX
                          "expected '%s' not found" [lexeme]])
                 (error_policy_ self).
Proof.
  unfold expect, bind. pose proof (moved_match_ lexeme self) as Hm.
  destruct (match_ lexeme self) as [[|] after| |]; try discriminate.
  - intros H. injection H as <- <-. rewrite Hm. simpl. auto.
  - unfold modify, get, error, ret. intros H. injection H as <- <-.
    rewrite Hm. simpl. repeat split;
      destruct (error_policy_ self); reflexivity.
Qed.

Lemma expect_outcome_witness :
  let self :=
    mk_GrammarParser (Some []) [] ([char_newline] ++ chars " }") 1
      (chars "a") 0 in
  let self' :=
    mk_GrammarParser
      (Some [mk_error_report 2 0 LALR_ERROR_SYNTAX "expected '%s' not found"
               [chars ";"]])
      [] [] 2 (chars "a") 1 in
  grammar_ self' = grammar_ self
  /\ lexeme_ self' = lexeme_ self
  /\ position_ self' = []
  /\ errors_ self' = increment (errors_ self)
  /\ error_policy_ self'
     = option_map
         (fun reports =>
            reports
            ++ [mk_error_report (line_ self') 0 LALR_ERROR_SYNTAX
                  "expected '%s' not found" [chars ";"]])
         (error_policy_ self).
Proof.
  intros self self'.
  apply (expect_outcome (chars ";") self self' false).
  reflexivity.
Defined.

(** ** Whole parses *)

Section Parses.

Lemma while_step_true (cond : M bool) (fuel : nat)
    (self after : GrammarParser) :
  cond self = Returns true after ->
  while_ (S fuel) cond self = while_ fuel cond after.
Proof. intros H. simpl. unfold bind. rewrite H. reflexivity. Qed.

Lemma while_step_false (cond : M bool) (fuel : nat)
    (self after : GrammarParser) :
  cond self = Returns false after ->
  while_ (S fuel) cond self = Returns tt after.
Proof. intros H. simpl. unfold bind. rewrite H. reflexivity. Qed.

(** Nothing is skipped at the end of the input or in front of a character
    that is neither white space nor a slash. *)
Lemma skip_stays (self : GrammarParser) :
  match position_ self with
  | [] => True
  | c :: _ => isspace c = false /\ Ascii.eqb c char_slash = false
  end ->
  orelse match_whitespace (orelse match_line_comment match_block_comment) self
  = Returns false self.
Proof.
  intros Hp.
  assert (Hw : match_whitespace self = Returns false self).
  { unfold match_whitespace. destruct (position_ self) as [|c rest];
      [reflexivity |]. destruct Hp as [-> _]. reflexivity. }
  assert (Hk : forall k keyword,
             Ascii.eqb k char_slash = true ->
             match_without_skipping_whitespace (k :: keyword) self
             = Returns false self).
  { intros k keyword Hk. apply Ascii.eqb_eq in Hk. subst k.
    destruct (position_ self) as [|c rest] eqn:E.
    - apply keyword_at_end, E.
    - destruct Hp as [_ Hc]. apply (keyword_mismatch self c _ rest _ E Hc). }
  assert (Hl : match_line_comment self = Returns false self).
  { unfold match_line_comment, bind, chars. cbn [list_ascii_of_string].
    rewrite Hk; reflexivity. }
  assert (Hb : match_block_comment self = Returns false self).
  { unfold match_block_comment, bind, chars. cbn [list_ascii_of_string].
    rewrite Hk; reflexivity. }
  unfold orelse, bind. rewrite Hw, Hl, Hb. reflexivity.
Qed.

(** Skipping a run of white space in front of a token. *)
Lemma skip_spaces (self : GrammarParser) (spaces rest : list ascii) :
  position_ self = spaces ++ rest ->
  INT_MIN <= line_ self <= INT_MAX ->
  forallb isspace spaces = true ->
  match rest with
  | [] => True
  | c :: _ => isspace c = false /\ Ascii.eqb c char_slash = false
  end ->
  match_whitespace_and_comments self
  = Returns true
      (set_position rest
         (set_line (int_wrap (line_ self + line_ends spaces)) self)).
Proof.
  intros Hp Hline Hs Hrest.
  unfold match_whitespace_and_comments, bind, while_consuming.
  destruct spaces as [|c spaces].
  - simpl in Hp. rewrite (while_step_false _ _ self self).
    + unfold ret, line_ends. simpl. rewrite Z.add_0_r, int_wrap_small; auto.
      destruct self. simpl in Hp. subst. reflexivity.
    + apply skip_stays. rewrite Hp. exact Hrest.
  - assert (Hfuel : remaining self = S (List.length (spaces ++ rest))).
    { unfold remaining. rewrite Hp. reflexivity. }
    rewrite Hfuel.
    assert (Hrest' : match rest with [] => True | d :: _ => isspace d = false end).
    { destruct rest; [exact I | apply Hrest]. }
    rewrite (while_step_true _ _ self
               (set_position rest
                  (set_line (int_wrap (line_ self + line_ends (c :: spaces)))
                     self))).
    + rewrite (while_step_false _ _ _
                 (set_position rest
                    (set_line
                       (int_wrap (line_ self + line_ends (c :: spaces)))
                       self)));
        [reflexivity |].
      apply skip_stays. exact Hrest.
    + unfold orelse, bind.
      rewrite (whitespace_run self c spaces rest Hp Hline Hs Hrest').
      reflexivity.
Qed.

(** [parse] returns the number of errors counted since it started, and the
    parser it leaves has only advanced from the one it started on. *)
Lemma parse_advances (self : GrammarParser) (source : list ascii)
    (error_policy : option (list error_report))
    (grammar : list grammar_call) (errors : Z) (after : GrammarParser) :
  parse self source error_policy grammar = Returns errors after ->
  errors = errors_ after
  /\ advances
       (mk_GrammarParser error_policy grammar source 1 (lexeme_ self) 0)
       after.
Proof.
  rewrite parse_unfold.
  pose proof (advances_match_grammar
                (set_lexeme (lexeme_ self)
                   (mk_GrammarParser error_policy grammar source 1 [] 0)))
    as Hg.
  destruct (match_grammar _) as [[|] s| |]; try discriminate.
  - intros H. injection H as <- <-. auto.
  - intros H. injection H as <- <-. split; [reflexivity |].
    eapply advances_trans; [exact Hg |].
    exact (advances_error 1 0 LALR_ERROR_SYNTAX "parsing grammar failed" []
             s).
Qed.

Lemma bind_returns {A B : Type} (m : M A) (k : A -> M B)
    (self after : GrammarParser) (b : B) :
  bind m k self = Returns b after ->
  exists a between, m self = Returns a between /\ k a between = Returns b after.
Proof.
  unfold bind. destruct (m self) as [a between| |]; try discriminate.
  intros H. exists a, between. auto.
Qed.

Lemma match_end_true (self after : GrammarParser) :
  match_end self = Returns true after -> position_ after = [].
Proof.
  unfold match_end. intros H.
  apply bind_returns in H as (b & s & _ & H).
  unfold bind, get, ret in H. injection H as H <-.
  destruct (position_ s); [reflexivity | discriminate].
Qed.

Lemma match_grammar_true (self after : GrammarParser) :
  match_grammar self = Returns true after -> position_ after = [].
Proof.
  unfold match_grammar. intros H.
  apply bind_returns in H as ([|] & s1 & _ & H); [| discriminate].
  apply bind_returns in H as (s1' & s2 & _ & H).
  apply bind_returns in H as (u3 & s3 & _ & H).
  apply bind_returns in H as (b4 & s4 & _ & H).
  apply bind_returns in H as (b5 & s5 & _ & H).
  apply bind_returns in H as (b6 & s6 & _ & H).
  exact (match_end_true _ _ H).
Qed.

End Parses.

(** X14.  The value that [parse] returns counts the errors of this call,
    whatever the error policy is: there is one list of reports such that
    the value returned is its length (as an [int], which wraps around), and
    such that under every error policy, a null one included, the same call
    returns the same value and leaves the same parser, the policy having
    been handed exactly these reports behind what it had received before
    and a null policy staying null. *)
Theorem parse_counts_its_reports (self : GrammarParser)
    (source : list ascii) (error_policy : option (list error_report))
    (grammar : list grammar_call) (errors : Z) (after : GrammarParser) :
  parse self source error_policy grammar = Returns errors after ->
  exists reports,
    errors = int_wrap (Z.of_nat (List.length reports))
    /\ errors_ after = errors
    /\ error_policy_ after = handed reports error_policy
    /\ forall policy,
         parse self source policy grammar
         = Returns errors (set_error_policy (handed reports policy) after).
Proof.
  intros H.
  assert (Hrun : exists reports,
             errors = Nat.iter (List.length reports) increment 0
             /\ errors_ after = errors
             /\ forall policy,
                  parse self source policy grammar
                  = Returns errors
                      (set_error_policy (handed reports policy) after)).
  { rewrite parse_unfold in H.
    pose proof (reports_alike_match_grammar
                  (set_lexeme (lexeme_ self)
                     (mk_GrammarParser error_policy grammar source 1 [] 0)))
      as Hg.
    destruct (match_grammar _) as [[|] s| |]; try discriminate.
    - destruct Hg as (reports & He & Hall). injection H as <- <-.
      exists reports. split; [exact He |]. split; [reflexivity |].
      intros policy. rewrite parse_unfold.
      specialize (Hall policy). unfold set_error_policy, set_lexeme in Hall.
      simpl in Hall. unfold set_lexeme. simpl. rewrite Hall. reflexivity.
    - destruct Hg as (reports & He & Hall). injection H as <- <-.
      exists (reports
              ++ [mk_error_report 1 0 LALR_ERROR_SYNTAX
                    "parsing grammar failed" []]).
      rewrite iter_app. simpl in He. simpl.
      split; [rewrite He; reflexivity |]. split; [reflexivity |].
      intros policy. rewrite parse_unfold.
      specialize (Hall policy). unfold set_error_policy, set_lexeme in Hall.
      simpl in Hall. unfold set_lexeme. simpl. rewrite Hall.
      rewrite <- handed_app. destruct (handed reports policy); reflexivity. }
  destruct Hrun as (reports & He & Ha & Hall). exists reports.
  split; [rewrite He, increment_iter; [reflexivity |]; unfold INT_MIN, INT_MAX;
          lia |].
  split; [exact Ha |]. split; [| exact Hall].
  specialize (Hall error_policy). rewrite H in Hall.
  injection Hall as Hall. rewrite Hall at 1. reflexivity.
Qed.

Lemma parse_counts_its_reports_witness :
  let after := mk_GrammarParser None [call_grammar (chars "G")] [] 1
                 (chars "G") 2 in
  exists reports,
    2 = int_wrap (Z.of_nat (List.length reports))
    /\ errors_ after = 2
    /\ error_policy_ after = handed reports None
    /\ forall policy,
         parse GrammarParser_new (chars "G") policy []
         = Returns 2 (set_error_policy (handed reports policy) after).
Proof.
  intros after.
  apply (parse_counts_its_reports GrammarParser_new (chars "G") None []).
  reflexivity.
Defined.

(** X15.  A parse that reports no error has read the whole input: when
    [parse] returns and its error policy has received nothing, it returns 0
    and the position is at the end of the input. *)
Theorem parse_without_errors_reads_all (self : GrammarParser)
    (source : list ascii) (before : list error_report)
    (grammar : list grammar_call) (errors : Z) (after : GrammarParser) :
  parse self source (Some before) grammar = Returns errors after ->
  error_policy_ after = Some before ->
  errors = 0 /\ position_ after = [].
Proof.
  rewrite parse_unfold.
  pose proof (advances_match_grammar
                (set_lexeme (lexeme_ self)
                   (mk_GrammarParser (Some before) grammar source 1 [] 0)))
    as Hg.
  destruct (match_grammar _) as [[|] s| |] eqn:Hm; try discriminate;
    destruct Hg as (reports & calls & He & Hp & _); simpl in He, Hp.
  - intros H Hnone. injection H as <- <-. rewrite Hp in Hnone.
    injection Hnone as Hnone.
    assert (reports = []) as ->.
    { apply (app_inv_head before). rewrite app_nil_r. exact Hnone. }
    split; [exact He | exact (match_grammar_true _ _ Hm)].
  - intros H Hnone. injection H as _ <-. simpl in Hnone. rewrite Hp in Hnone.
    simpl in Hnone. injection Hnone as Hnone. exfalso.
    apply (f_equal (@List.length _)) in Hnone.
    rewrite !List.length_app in Hnone. simpl in Hnone.
    apply Nat2Z.inj_iff in Hnone. rewrite !Nat2Z.inj_add in Hnone.
    simpl in Hnone. lia.
Qed.

Lemma parse_without_errors_reads_all_witness :
  let after :=
    mk_GrammarParser (Some [])
      [call_grammar (chars "G"); call_production (chars "a") 1;
       call_literal (chars "b") 1; call_end_expression 1;
       call_end_production]
      [] 1 (chars "b") 0 in
  0 = 0 /\ position_ after = [].
Proof.
  intros after.
  apply (parse_without_errors_reads_all GrammarParser_new
           (chars "G { a : 'b' ; } // done") [] [] 0 after);
    reflexivity.
Defined.

(** X16.  On an input whose first token cannot start an identifier (white
    space only, the empty input included, or white space in front of such a
    character), [parse] makes no call on the grammar, reports the one syntax
    error that parsing failed, at line 1, and returns 1; the position stays
    at that character. *)
Theorem parse_without_name (self : GrammarParser)
    (spaces rest : list ascii) (error_policy : option (list error_report))
    (grammar : list grammar_call) :
  forallb isspace spaces = true ->
  match rest with
  | [] => True
  | c :: _ =>
      isspace c = false /\ Ascii.eqb c char_slash = false
      /\ identifier_character c = false
  end ->
  parse self (spaces ++ rest) error_policy grammar
  = Returns 1
      (mk_GrammarParser
         (option_map
            (fun before =>
               before
               ++ [mk_error_report 1 0 LALR_ERROR_SYNTAX
                     "parsing grammar failed" []])
            error_policy)
         grammar rest (int_wrap (1 + line_ends spaces)) (lexeme_ self) 1).
Proof.
  intros Hs Hrest. rewrite parse_unfold.
  unfold match_grammar, bind at 1, match_identifier, bind at 1.
  rewrite (skip_spaces
             (set_lexeme (lexeme_ self)
                (mk_GrammarParser error_policy grammar (spaces ++ rest) 1 []
                   0))
             spaces rest eq_refl);
    [| unfold INT_MIN, INT_MAX; simpl; lia | exact Hs |].
  - unfold bind, get. cbn [position_ set_position].
    destruct rest as [|c rest]; [reflexivity |].
    destruct Hrest as (_ & _ & Hc). unfold identifier_character in Hc.
    rewrite Hc. reflexivity.
  - destruct rest as [|c rest]; [exact I |].
    destruct Hrest as (Hspace & Hslash & _). auto.
Qed.

Lemma parse_without_name_witness :
  parse GrammarParser_new (chars " " ++ [char_newline] ++ chars "{ }")
    (Some []) []
  = Returns 1
      (mk_GrammarParser
         (Some [mk_error_report 1 0 LALR_ERROR_SYNTAX
                  "parsing grammar failed" []])
         [] (chars "{ }") (int_wrap (1 + 1)) [] 1).
Proof.
  apply (parse_without_name GrammarParser_new
           (chars " " ++ [char_newline]) (chars "{ }") (Some []) []).
  - reflexivity.
  - repeat split.
Defined.

(** * Further properties of the LR item *)

(** X17.  On items with a production, [operator<] is a strict weak order
    by production index and then dot position: no item is less than itself,
    two items are never less than each other, less is transitive, and two
    items are neither less than the other exactly when they have the same
    production index and the same position, whatever their lookahead
    symbols. *)
Theorem less_strict_weak_order (a b c : Item.Item)
    (pa pb pc : Item.Production) :
  Item.production_ a = Some pa ->
  Item.production_ b = Some pb ->
  Item.production_ c = Some pc ->
  Item.less a a = Some false
  /\ (Item.less a b = Some true -> Item.less b a = Some false)
  /\ (Item.less a b = Some true -> Item.less b c = Some true ->
      Item.less a c = Some true)
  /\ (Item.less a b = Some false /\ Item.less b a = Some false
      <-> Item.index pa = Item.index pb
          /\ Item.position_ a = Item.position_ b).
Proof.
  intros Ha Hb Hc. unfold Item.less. rewrite Ha, Hb, Hc.
  repeat split.
  - f_equal. apply orb_false_iff. split; [apply Z.ltb_irrefl |].
    rewrite Z.ltb_irrefl. apply andb_false_r.
  - intros H. injection H as H. f_equal.
    destruct (Z.ltb_spec (Item.index pa) (Item.index pb)),
      (Z.eqb_spec (Item.index pa) (Item.index pb)),
      (Z.ltb_spec (Item.position_ a) (Item.position_ b)),
      (Z.ltb_spec (Item.index pb) (Item.index pa)),
      (Z.eqb_spec (Item.index pb) (Item.index pa)),
      (Z.ltb_spec (Item.position_ b) (Item.position_ a));
      simpl in *; try reflexivity; try discriminate; lia.
  - intros H1 H2. injection H1 as H1. injection H2 as H2. f_equal.
    destruct (Z.ltb_spec (Item.index pa) (Item.index pb)),
      (Z.eqb_spec (Item.index pa) (Item.index pb)),
      (Z.ltb_spec (Item.position_ a) (Item.position_ b)),
      (Z.ltb_spec (Item.index pb) (Item.index pc)),
      (Z.eqb_spec (Item.index pb) (Item.index pc)),
      (Z.ltb_spec (Item.position_ b) (Item.position_ c)),
      (Z.ltb_spec (Item.index pa) (Item.index pc)),
      (Z.eqb_spec (Item.index pa) (Item.index pc)),
      (Z.ltb_spec (Item.position_ a) (Item.position_ c));
      simpl in *; try reflexivity; try discriminate; lia.
  - destruct H as [H1 H2]. injection H1 as H1. injection H2 as H2.
    destruct (Z.ltb_spec (Item.index pa) (Item.index pb)),
      (Z.eqb_spec (Item.index pa) (Item.index pb)),
      (Z.ltb_spec (Item.index pb) (Item.index pa)),
      (Z.eqb_spec (Item.index pb) (Item.index pa));
      simpl in *; try discriminate; lia.
  - destruct H as [H1 H2]. injection H1 as H1. injection H2 as H2.
    destruct (Z.ltb_spec (Item.index pa) (Item.index pb)),
      (Z.eqb_spec (Item.index pa) (Item.index pb)),
      (Z.ltb_spec (Item.position_ a) (Item.position_ b)),
      (Z.ltb_spec (Item.index pb) (Item.index pa)),
      (Z.eqb_spec (Item.index pb) (Item.index pa)),
      (Z.ltb_spec (Item.position_ b) (Item.position_ a));
      simpl in *; try discriminate; lia.
  - destruct H as [Hi Hp]. rewrite Hi, Hp, Z.ltb_irrefl, Z.ltb_irrefl.
    rewrite andb_false_r. reflexivity.
  - destruct H as [Hi Hp]. rewrite Hi, Hp, Z.ltb_irrefl, Z.ltb_irrefl.
    rewrite andb_false_r. reflexivity.
Qed.

Lemma less_strict_weak_order_witness :
  let p1 := Item.mk_Production 1 7%N [8%N; 9%N] in
  let p2 := Item.mk_Production 2 7%N [8%N] in
  let a := Item.mk_Item (Some p1) 0 {[9%N]} in
  let b := Item.mk_Item (Some p1) 2 ∅ in
  let c := Item.mk_Item (Some p2) 0 ∅ in
  Item.less a a = Some false
  /\ (Item.less a b = Some true -> Item.less b a = Some false)
  /\ (Item.less a b = Some true -> Item.less b c = Some true ->
      Item.less a c = Some true)
  /\ (Item.less a b = Some false /\ Item.less b a = Some false
      <-> Item.index p1 = Item.index p1
          /\ Item.position_ a = Item.position_ b).
Proof.
  intros p1 p2 a b c.
  apply (less_strict_weak_order a b c p1 p1 p2); reflexivity.
Defined.

(** X18.  [add_lookahead_symbols] returns 0 exactly when every symbol of
    its argument is already a lookahead symbol of the item, and the item is
    then left as it was: a return of 0 is the sign that nothing is left to
    propagate. *)
Theorem add_lookahead_symbols_zero (self : Item.Item)
    (lookahead_symbols : gset Item.Symbol_pointer) :
  (fst (Item.add_lookahead_symbols self lookahead_symbols) = 0
   <-> lookahead_symbols ⊆ Item.lookahead_symbols self)
  /\ (fst (Item.add_lookahead_symbols self lookahead_symbols) = 0 ->
      snd (Item.add_lookahead_symbols self lookahead_symbols) = self).
Proof.
  unfold Item.add_lookahead_symbols, Item.lookahead_symbols. simpl.
  rewrite size_union_alt.
  assert (Hzero : Z.of_nat
                    (size (Item.lookahead_symbols_ self)
                     + size (lookahead_symbols ∖ Item.lookahead_symbols_ self))
                  - Z.of_nat (size (Item.lookahead_symbols_ self)) = 0
                  <-> lookahead_symbols ⊆ Item.lookahead_symbols_ self).
  { split.
    - intros H.
      assert (Hs : size (lookahead_symbols ∖ Item.lookahead_symbols_ self)
                   = 0%nat) by lia.
      apply size_empty_iff in Hs. set_solver.
    - intros H.
      assert (Hs : lookahead_symbols ∖ Item.lookahead_symbols_ self = ∅)
        by set_solver.
      rewrite Hs, size_empty. lia. }
  split; [exact Hzero |].
  intros H. apply Hzero in H.
  assert (Hu : Item.lookahead_symbols_ self ∪ lookahead_symbols
               = Item.lookahead_symbols_ self) by set_solver.
  rewrite Hu. destruct self; reflexivity.
Qed.

(** X19.  Calls of [add_lookahead_symbols] compose: adding one set and then
    another leaves the item that adding their union leaves, the two values
    returned add up to the value returned for the union, and the order of
    the two calls does not matter for the item left. *)
Theorem add_lookahead_symbols_compose (self : Item.Item)
    (first second : gset Item.Symbol_pointer) :
  let after_first := snd (Item.add_lookahead_symbols self first) in
  snd (Item.add_lookahead_symbols after_first second)
  = snd (Item.add_lookahead_symbols self (first ∪ second))
  /\ fst (Item.add_lookahead_symbols self first)
     + fst (Item.add_lookahead_symbols after_first second)
     = fst (Item.add_lookahead_symbols self (first ∪ second))
  /\ snd (Item.add_lookahead_symbols after_first second)
     = snd (Item.add_lookahead_symbols
              (snd (Item.add_lookahead_symbols self second)) first).
Proof.
  unfold Item.add_lookahead_symbols. simpl.
  rewrite (assoc_L (∪)). repeat split.
  - lia.
  - f_equal. set_solver.
Qed.

(** ** Accepted input *)

Section Accepted.

Lemma identifier_character_plain (c : ascii) :
  identifier_character c = true ->
  isspace c = false /\ Ascii.eqb c char_slash = false
  /\ Ascii.eqb c char_nul = false.
Proof.
  destruct c as [[|] [|] [|] [|] [|] [|] [|] [|]];
    vm_compute; intros H; try discriminate H; auto.
Qed.

Lemma identifier_loop_run (name : list ascii) :
  forall rest,
    forallb identifier_character name = true ->
    match rest with [] => True | c :: _ => identifier_character c = false end ->
    identifier_loop (name ++ rest) = (name, rest).
Proof.
  induction name as [|x name IH]; intros rest Hn Hrest.
  - destruct rest as [|c rest]; [reflexivity |]. simpl.
    rewrite identifier_loop_condition, Hrest. reflexivity.
  - simpl in Hn. apply andb_prop in Hn as [Hx Hn]. simpl.
    rewrite identifier_loop_condition, Hx, (IH rest Hn Hrest). reflexivity.
Qed.

Lemma c_str_identifier (name : list ascii) :
  forallb identifier_character name = true -> c_str name = name.
Proof.
  induction name as [|x name IH]; intros Hn; [reflexivity |].
  simpl in Hn. apply andb_prop in Hn as [Hx Hn]. simpl.
  destruct (identifier_character_plain x Hx) as (_ & _ & ->).
  rewrite (IH Hn). reflexivity.
Qed.

(** [match_identifier] on an identifier that nothing is skipped in front
    of. *)
Lemma match_identifier_run (self : GrammarParser) (c : ascii)
    (name rest : list ascii) :
  position_ self = (c :: name) ++ rest ->
  forallb identifier_character (c :: name) = true ->
  match rest with [] => True | d :: _ => identifier_character d = false end ->
  match_identifier self
  = Returns true (set_position rest (set_lexeme (c :: name) self)).
Proof.
  intros Hp Hn Hrest. pose proof Hn as Hn'. simpl in Hn'.
  apply andb_prop in Hn' as [Hc Hname].
  destruct (identifier_character_plain c Hc) as (Hspace & Hslash & _).
  rewrite (match_identifier_first_character self c (name ++ rest) Hp
             Hspace Hslash).
  unfold identifier_character in Hc. rewrite Hc.
  rewrite (identifier_loop_run name rest Hname Hrest). reflexivity.
Qed.

Lemma space_not_token (c : ascii) :
  isspace c = true ->
  identifier_character c = false.
Proof.
  destruct c as [[|] [|] [|] [|] [|] [|] [|] [|]];
    vm_compute; intros H; try discriminate H; auto.
Qed.

Lemma line_ends_app (a b : list ascii) :
  line_ends (a ++ b) = line_ends a + line_ends b.
Proof.
  unfold line_ends. rewrite List.filter_app, List.length_app. lia.
Qed.

(** [match_identifier] on an identifier behind white space. *)
Lemma match_identifier_spaced (self : GrammarParser) (spaces : list ascii)
    (c : ascii) (name rest : list ascii) :
  position_ self = spaces ++ (c :: name) ++ rest ->
  INT_MIN <= line_ self <= INT_MAX ->
  forallb isspace spaces = true ->
  forallb identifier_character (c :: name) = true ->
  match rest with [] => True | d :: _ => identifier_character d = false end ->
  match_identifier self
  = Returns true
      (set_position rest
         (set_lexeme (c :: name)
            (set_line (int_wrap (line_ self + line_ends spaces)) self))).
Proof.
  intros Hp Hline Hs Hn Hrest. pose proof Hn as Hn'. simpl in Hn'.
  apply andb_prop in Hn' as [Hc Hname].
  destruct (identifier_character_plain c Hc) as (Hspace & Hslash & _).
  unfold match_identifier. unfold bind at 1.
  rewrite (skip_spaces self spaces ((c :: name) ++ rest) Hp Hline Hs
             (conj Hspace Hslash)).
  unfold bind at 1, get. cbn [position_ set_position app].
  unfold identifier_character in Hc. rewrite Hc.
  rewrite (identifier_loop_run name rest Hname Hrest). reflexivity.
Qed.

(** [expect] on the character it expects behind white space. *)
Lemma expect_spaced (self : GrammarParser) (spaces : list ascii)
    (c : ascii) (rest : list ascii) :
  position_ self = spaces ++ c :: rest ->
  INT_MIN <= line_ self <= INT_MAX ->
  forallb isspace spaces = true ->
  isspace c = false ->
  Ascii.eqb c char_slash = false ->
  expect [c] self
  = Returns true
      (set_position rest (set_line (int_wrap (line_ self + line_ends spaces)) self)).
Proof.
  intros Hp Hline Hs Hspace Hslash. unfold expect, match_.
  unfold bind at 1 2.
  rewrite (skip_spaces self spaces (c :: rest) Hp Hline Hs
             (conj Hspace Hslash)).
  unfold match_without_skipping_whitespace.
  cbn [position_ set_position keyword_loop]. rewrite Ascii.eqb_refl.
  destruct rest; reflexivity.
Qed.

(** In front of a character that starts neither a directive nor an
    identifier there is no statement. *)
Lemma match_statement_none (self : GrammarParser) (c : ascii)
    (rest : list ascii) :
  position_ self = c :: rest ->
  isspace c = false ->
  Ascii.eqb c char_slash = false ->
  Ascii.eqb c "%"%char = false ->
  identifier_character c = false ->
  match_statement self = Returns false self.
Proof.
  intros Hp Hspace Hslash Hpercent Hc.
  assert (Hk : forall keyword,
             match_ ("%"%char :: keyword) self = Returns false self).
  { intros keyword. unfold match_, bind.
    rewrite (nothing_to_skip self c rest Hp Hspace Hslash).
    apply (keyword_mismatch self c _ rest _ Hp Hpercent). }
  assert (Hi : match_identifier self = Returns false self).
  { rewrite (match_identifier_first_character self c rest Hp Hspace Hslash).
    unfold identifier_character in Hc. rewrite Hc. reflexivity. }
  unfold match_statement, orelse, match_associativity_statement,
    match_associativity, match_whitespace_statement,
    match_production_statement, chars.
  cbn [list_ascii_of_string]. unfold bind.
  repeat (rewrite Hk; cbv beta iota delta [ret]). rewrite Hi. reflexivity.
Qed.

Lemma match_statement_spaced_none (self : GrammarParser)
    (spaces : list ascii) (c : ascii) (rest : list ascii) :
  position_ self = spaces ++ c :: rest ->
  INT_MIN <= line_ self <= INT_MAX ->
  forallb isspace spaces = true ->
  isspace c = false ->
  Ascii.eqb c char_slash = false ->
  Ascii.eqb c "%"%char = false ->
  identifier_character c = false ->
  match_statement self
  = Returns false
      (set_position (c :: rest)
         (set_line (int_wrap (line_ self + line_ends spaces)) self)).
Proof.
  intros Hp Hline Hs Hspace Hslash Hpercent Hc.
  pose proof (skip_spaces self spaces (c :: rest) Hp Hline Hs
                (conj Hspace Hslash)) as Hskip.
  pose proof (nothing_to_skip
                (set_position (c :: rest)
                   (set_line (int_wrap (line_ self + line_ends spaces)) self))
                c rest eq_refl Hspace Hslash) as Hstay.
  transitivity
    (match_statement
       (set_position (c :: rest)
          (set_line (int_wrap (line_ self + line_ends spaces)) self)));
    [| apply (match_statement_none _ c rest); auto].
  unfold match_statement, orelse, match_associativity_statement,
    match_associativity, match_, bind.
  rewrite Hskip, Hstay. reflexivity.
Qed.

Lemma forallb_app_true {A : Type} (f : A -> bool) (a b : list A) :
  forallb f (a ++ b) = true -> forallb f a = true /\ forallb f b = true.
Proof. rewrite forallb_app. apply andb_prop. Qed.

End Accepted.

(** X20.  The grammar without statements is accepted under every name and
    in every layout: for a name of letters, digits and underscores, with any
    white space in front of the name, of the braces and of the end, [parse]
    returns 0, reports nothing, makes the one call [grammar(name)], reads
    the whole input and has counted every line end (in an [int], which
    wraps around). *)
Theorem parse_empty_grammar (self : GrammarParser)
    (ws0 ws1 ws2 ws3 : list ascii) (c : ascii) (name : list ascii)
    (error_policy : option (list error_report))
    (grammar : list grammar_call) :
  forallb isspace (ws0 ++ ws1 ++ ws2 ++ ws3) = true ->
  forallb identifier_character (c :: name) = true ->
  parse self
    (ws0 ++ (c :: name) ++ ws1 ++ chars "{" ++ ws2 ++ chars "}" ++ ws3)
    error_policy grammar
  = Returns 0
      (mk_GrammarParser error_policy
         (grammar ++ [call_grammar (c :: name)]) []
         (int_wrap (1 + line_ends (ws0 ++ ws1 ++ ws2 ++ ws3))) (c :: name)
         0).
Proof.
  intros Hs Hn. rename grammar into calls.
  apply forallb_app_true in Hs as [Hs0 Hs].
  apply forallb_app_true in Hs as [Hs1 Hs].
  apply forallb_app_true in Hs as [Hs2 Hs3].
  rewrite !line_ends_app.
  rewrite parse_unfold. unfold match_grammar, bind at 1.
  rewrite (match_identifier_spaced
             (set_lexeme (lexeme_ self)
                (mk_GrammarParser error_policy calls
                   (ws0 ++ (c :: name) ++ ws1 ++ chars "{" ++ ws2
                    ++ chars "}" ++ ws3) 1 [] 0))
             ws0 c name (ws1 ++ chars "{" ++ ws2 ++ chars "}" ++ ws3)
             eq_refl);
    [| unfold INT_MIN, INT_MAX; simpl; lia | exact Hs0 | exact Hn |].
  2:{ destruct ws1 as [|d ws1]; [reflexivity |].
      simpl in Hs1. apply andb_prop in Hs1 as [Hd _].
      apply space_not_token, Hd. }
  unfold bind at 1, get. unfold bind at 1, grammar, modify.
  cbn [lexeme_ line_ error_policy_ grammar_ position_ errors_
       set_position set_lexeme set_line].
  rewrite (c_str_identifier (c :: name) Hn).
  change (chars "{") with ["{"%char]. change (chars "}") with ["}"%char].
  unfold bind at 1.
  rewrite (expect_spaced _ ws1 "{"%char (ws2 ++ ["}"%char] ++ ws3));
    [| reflexivity | apply int_wrap_range | exact Hs1 | reflexivity
     | reflexivity].
  unfold bind at 1, match_statements. unfold bind at 1, while_consuming.
  cbn [lexeme_ line_ error_policy_ grammar_ position_ errors_
       set_position set_lexeme set_line].
  rewrite (while_step_false match_statement _ _
             (set_position ("}"%char :: ws3)
                (set_line
                   (int_wrap
                      (int_wrap (int_wrap (1 + line_ends ws0) + line_ends ws1)
                       + line_ends ws2))
                   (mk_GrammarParser error_policy
                      (calls ++ [call_grammar (c :: name)])
                      (ws2 ++ ["}"%char] ++ ws3)
                      (int_wrap (int_wrap (1 + line_ends ws0) + line_ends ws1))
                      (c :: name) 0))));
    [| exact (match_statement_spaced_none
                (mk_GrammarParser error_policy
                   (calls ++ [call_grammar (c :: name)])
                   (ws2 ++ ["}"%char] ++ ws3)
                   (int_wrap (int_wrap (1 + line_ends ws0) + line_ends ws1))
                   (c :: name) 0)
                ws2 "}"%char ws3 eq_refl (int_wrap_range _) Hs2 eq_refl
                eq_refl eq_refl eq_refl)].
  unfold ret at 1. unfold bind at 1.
  cbn [lexeme_ line_ error_policy_ grammar_ position_ errors_
       set_position set_lexeme set_line].
  rewrite (expect_spaced _ [] "}"%char ws3);
    [| reflexivity | apply int_wrap_range | reflexivity | reflexivity
     | reflexivity].
  unfold match_end, bind.
  cbn [lexeme_ line_ error_policy_ grammar_ position_ errors_
       set_position set_lexeme set_line].
  rewrite (skip_spaces _ ws3 []);
    [| symmetry; apply app_nil_r | apply int_wrap_range | exact Hs3
     | exact I].
  unfold get, ret.
  unfold set_position, set_line.
  cbn [lexeme_ line_ error_policy_ grammar_ position_ errors_].
  change (line_ends []) with 0. rewrite Z.add_0_r.
  repeat (rewrite <- ?Z.add_assoc, int_wrap_add).
  f_equal. f_equal. f_equal. lia.
Qed.

Lemma parse_empty_grammar_witness :
  parse GrammarParser_new
    (chars " " ++ chars "_calc2" ++ [char_newline] ++ chars "{"
     ++ [char_newline; char_newline] ++ chars "}" ++ [char_return])
    (Some []) []
  = Returns 0
      (mk_GrammarParser (Some []) ([] ++ [call_grammar (chars "_calc2")]) []
         (int_wrap
            (1 + line_ends (chars " " ++ [char_newline]
                            ++ [char_newline; char_newline]
                            ++ [char_return])))
         (chars "_calc2") 0).
Proof.
  apply (parse_empty_grammar GrammarParser_new (chars " ") [char_newline]
           [char_newline; char_newline] [char_return]
           "_"%char (chars "calc2") (Some []) []);
    reflexivity.
Defined.

(** ** The calls that the parser makes on the grammar *)

Section Calls.

Lemma respects_returns (R : GrammarParser -> GrammarParser -> Prop)
    {A : Type} (m : M A) (self : GrammarParser) (a : A)
    (self' : GrammarParser) :
  respects R m -> m self = Returns a self' -> R self self'.
Proof. intros H E. specialize (H self). rewrite E in H. exact H. Qed.

Lemma emits_no_call (self self' : GrammarParser) :
  emits no_call self self' -> grammar_ self' = grammar_ self.
Proof.
  intros ([|c calls] & H & A); [| discriminate].
  rewrite H. apply app_nil_r.
Qed.

Lemma match_no_call (keyword : list ascii) (self : GrammarParser) (b : bool)
    (self' : GrammarParser) :
  match_ keyword self = Returns b self' -> grammar_ self' = grammar_ self.
Proof.
  intros H. apply emits_no_call.
  exact (respects_returns _ _ _ _ _ (emits_match_ no_call keyword) H).
Qed.

Lemma match_identifier_no_call (self : GrammarParser) (b : bool)
    (self' : GrammarParser) :
  match_identifier self = Returns b self' -> grammar_ self' = grammar_ self.
Proof.
  intros H. apply emits_no_call.
  exact (respects_returns _ _ _ _ _ (emits_match_identifier no_call) H).
Qed.

Lemma match_identifier_fails_moved (self self' : GrammarParser) :
  match_identifier self = Returns false self' -> moved self self'.
Proof.
  unfold match_identifier. intros H.
  apply bind_returns in H as (b & s1 & H1 & H).
  apply (respects_returns _ _ _ _ _ moved_match_whitespace_and_comments)
    in H1.
  unfold bind, get in H.
  destruct (position_ s1) as [|c position1];
    [unfold ret in H; injection H as <-; exact H1 |].
  destruct (isalnum c || Ascii.eqb c char_underscore)%bool;
    [| unfold ret in H; injection H as <-; exact H1].
  destruct (identifier_loop position1). discriminate.
Qed.

Lemma closes_production_end (body : list grammar_call) :
  forallb expression_call body = true ->
  closes_production (body ++ [call_end_production]) = true.
Proof.
  induction body as [|c body IH]; [reflexivity |].
  simpl forallb. intros H. apply andb_prop in H as [Hc Hb].
  specialize (IH Hb). simpl app.
  destruct (body ++ [call_end_production]) eqn:E.
  - destruct body; discriminate.
  - change (expression_call c && closes_production (g :: l) = true)%bool.
    rewrite Hc. exact IH.
Qed.

(** [match_associativity] makes one call when it matches, none when it
    does not. *)
Lemma match_associativity_calls (self : GrammarParser) (b : bool)
    (self' : GrammarParser) :
  match_associativity self = Returns b self' ->
  if b then
    exists c,
      grammar_ self' = grammar_ self ++ [c]
      /\ forall symbols,
           statement_calls (c :: symbols) = forallb symbol_call symbols
  else grammar_ self' = grammar_ self.
Proof.
  unfold match_associativity. intros H.
  apply bind_returns in H as ([|] & s1 & H1 & H);
    apply match_no_call in H1.
  { unfold grammar_line, grammar, bind, get, modify, ret in H.
    injection H as <- <-. simpl. rewrite H1. eauto. }
  apply bind_returns in H as ([|] & s2 & H2 & H);
    apply match_no_call in H2.
  { unfold grammar_line, grammar, bind, get, modify, ret in H.
    injection H as <- <-. simpl. rewrite H2, H1. eauto. }
  apply bind_returns in H as ([|] & s3 & H3 & H);
    apply match_no_call in H3.
  { unfold grammar_line, grammar, bind, get, modify, ret in H.
    injection H as <- <-. simpl. rewrite H3, H2, H1. eauto. }
  unfold ret in H. injection H as <- <-. congruence.
Qed.

Lemma match_associativity_statement_calls (self : GrammarParser) (b : bool)
    (self' : GrammarParser) :
  match_associativity_statement self = Returns b self' ->
  if b then
    exists calls,
      grammar_ self' = grammar_ self ++ calls
      /\ statement_calls calls = true
  else grammar_ self' = grammar_ self.
Proof.
  unfold match_associativity_statement. intros H.
  apply bind_returns in H as ([|] & s1 & H1 & H);
    apply match_associativity_calls in H1.
  - destruct H1 as (c & Hc & Hs).
    assert (Hrest : respects (emits symbol_call)
                      (match_symbols ;; expect (chars ";") ;; ret true)).
    { apply emits_bind; [apply emits_match_symbols; auto |].
      intros _. apply emits_bind; [apply emits_expect |].
      intros _. apply emits_ret. }
    pose proof (respects_returns _ _ _ _ _ Hrest H) as (symbols & Hg & Ha).
    assert (b = true) as ->.
    { apply bind_returns in H as (? & ? & _ & H).
      apply bind_returns in H as (? & ? & _ & H).
      unfold ret in H. injection H as <- _. reflexivity. }
    exists (c :: symbols). rewrite Hg, Hc, <- app_assoc, Hs. auto.
  - unfold ret in H. injection H as <- <-. exact H1.
Qed.

Lemma match_whitespace_statement_calls (self : GrammarParser) (b : bool)
    (self' : GrammarParser) :
  match_whitespace_statement self = Returns b self' ->
  if b then
    exists calls,
      grammar_ self' = grammar_ self ++ calls
      /\ statement_calls calls = true
  else grammar_ self' = grammar_ self.
Proof.
  unfold match_whitespace_statement. intros H.
  apply bind_returns in H as ([|] & s1 & H1 & H);
    apply match_no_call in H1.
  - apply bind_returns in H as (u & s2 & H2 & H).
    unfold grammar, modify in H2. injection H2 as _ <-.
    apply bind_returns in H as (r & s3 & H3 & H).
    apply (respects_returns _ _ _ _ _ (emits_match_regex no_call)) in H3.
    apply emits_no_call in H3. simpl in H3.
    apply bind_returns in H as (u4 & s4 & H4 & H).
    apply bind_returns in H as (b5 & s5 & H5 & H).
    apply (respects_returns _ _ _ _ _ (emits_expect no_call _)) in H5.
    apply emits_no_call in H5.
    unfold ret in H. injection H as <- <-.
    destruct r.
    + unfold grammar_lexeme, grammar, bind, get, modify in H4.
      injection H4 as _ <-. simpl in H5.
      exists [call_whitespace; call_regex (c_str (lexeme_ s3)) (line_ s3)].
      rewrite H5, H3, H1, <- app_assoc. auto.
    + unfold ret in H4. injection H4 as _ <-.
      exists [call_whitespace]. rewrite H5, H3, H1. auto.
  - unfold ret in H. injection H as <- <-. exact H1.
Qed.

Lemma match_production_statement_calls (self : GrammarParser) (b : bool)
    (self' : GrammarParser) :
  match_production_statement self = Returns b self' ->
  if b then
    exists calls,
      grammar_ self' = grammar_ self ++ calls
      /\ statement_calls calls = true
  else grammar_ self' = grammar_ self.
Proof.
  unfold match_production_statement. intros H.
  apply bind_returns in H as ([|] & s1 & H1 & H);
    apply match_identifier_no_call in H1.
  - apply bind_returns in H as (u & s2 & H2 & H).
    unfold grammar_lexeme, grammar, bind, get, modify in H2.
    injection H2 as _ <-.
    assert (Hbody : respects (emits expression_call)
                      (expect (chars ":") ;; match_expressions ;;
                       expect (chars ";"))).
    { apply emits_bind; [apply emits_expect |].
      intros _. apply emits_bind; [apply emits_match_expressions |].
      intros _. apply emits_expect. }
    assert (Hsplit :
              exists b3 s3,
                (expect (chars ":") ;; match_expressions ;;
                 expect (chars ";")) 
                  (mk_GrammarParser (error_policy_ s1)
                     (grammar_ s1
                      ++ [call_production (c_str (lexeme_ s1)) (line_ s1)])
                     (position_ s1) (line_ s1) (lexeme_ s1) (errors_ s1))
                = Returns b3 s3
                /\ (grammar call_end_production ;; ret true) s3
                   = Returns b self').
    { apply bind_returns in H as (b3 & s3 & E3 & H).
      apply bind_returns in H as (b4 & s4 & E4 & H).
      apply bind_returns in H as (b5 & s5 & E5 & H).
      exists b5, s5. split; [| exact H].
      unfold bind. rewrite E3, E4. exact E5. }
    destruct Hsplit as (b3 & s3 & E & H').
    pose proof (respects_returns _ _ _ _ _ Hbody E) as (body & Hg & Ha).
    simpl in Hg.
    unfold grammar, bind, modify, ret in H'. injection H' as <- <-.
    exists (call_production (c_str (lexeme_ s1)) (line_ s1)
            :: body ++ [call_end_production]).
    simpl grammar_. rewrite Hg, H1, <- !app_assoc. split; [reflexivity |].
    simpl. apply closes_production_end, Ha.
  - unfold ret in H. injection H as <- <-. exact H1.
Qed.

Lemma match_statement_calls (self : GrammarParser) (b : bool)
    (self' : GrammarParser) :
  match_statement self = Returns b self' ->
  if b then
    exists calls,
      grammar_ self' = grammar_ self ++ calls
      /\ statement_calls calls = true
  else grammar_ self' = grammar_ self.
Proof.
  unfold match_statement, orelse. intros H.
  apply bind_returns in H as ([|] & s1 & H1 & H);
    apply match_associativity_statement_calls in H1.
  { unfold ret in H. injection H as <- <-. exact H1. }
  apply bind_returns in H as ([|] & s2 & H2 & H);
    apply match_whitespace_statement_calls in H2.
  { unfold ret in H. injection H as <- <-. rewrite <- H1. exact H2. }
  apply match_production_statement_calls in H.
  rewrite <- H1, <- H2. exact H.
Qed.

Lemma while_match_statement_calls (fuel : nat) :
  forall (self : GrammarParser) (u : unit) (self' : GrammarParser),
    while_ fuel match_statement self = Returns u self' ->
    exists statements,
      grammar_ self' = grammar_ self ++ concat statements
      /\ forallb statement_calls statements = true.
Proof.
  induction fuel as [|fuel IH]; intros self u self' H; [discriminate |].
  simpl in H.
  apply bind_returns in H as ([|] & s1 & H1 & H);
    apply match_statement_calls in H1.
  - destruct H1 as (calls & Hg & Hc).
    apply IH in H as (statements & Hg' & Hs).
    exists (calls :: statements). simpl.
    rewrite Hg', Hg, <- app_assoc, Hc, Hs. auto.
  - unfold ret in H. injection H as _ <-.
    exists []. simpl. rewrite app_nil_r. auto.
Qed.

Lemma match_grammar_calls (self : GrammarParser) (b : bool)
    (self' : GrammarParser) :
  match_grammar self = Returns b self' ->
  (b = false /\ grammar_ self' = grammar_ self
   /\ errors_ self' = errors_ self)
  \/ exists name statements,
       grammar_ self'
       = grammar_ self ++ call_grammar name :: concat statements
       /\ forallb statement_calls statements = true.
Proof.
  unfold match_grammar. intros H.
  apply bind_returns in H as ([|] & s1 & H1 & H);
    [apply match_identifier_no_call in H1
    | apply match_identifier_fails_moved in H1].
  - right.
    apply bind_returns in H as (s1' & s2 & H2 & H).
    unfold get in H2. injection H2 as <- <-.
    apply bind_returns in H as (u3 & s3 & H3 & H).
    unfold grammar, modify in H3. injection H3 as _ <-.
    apply bind_returns in H as (b4 & s4 & H4 & H).
    apply (respects_returns _ _ _ _ _ (emits_expect no_call _)) in H4.
    apply emits_no_call in H4. simpl in H4.
    apply bind_returns in H as (b5 & s5 & H5 & H).
    unfold match_statements in H5.
    apply bind_returns in H5 as (u5 & s5' & H5 & H5').
    unfold ret in H5'. injection H5' as _ <-.
    unfold while_consuming in H5.
    apply while_match_statement_calls in H5 as (statements & Hg & Hs).
    apply bind_returns in H as (b6 & s6 & H6 & H).
    apply (respects_returns _ _ _ _ _ (emits_expect no_call _)) in H6.
    apply emits_no_call in H6.
    assert (Hend : respects (emits no_call) match_end).
    { unfold match_end.
      apply emits_bind; [apply emits_match_whitespace_and_comments |].
      intros _. apply emits_bind; [apply emits_get |].
      intros ?. apply emits_ret. }
    apply (respects_returns _ _ _ _ _ Hend) in H.
    apply emits_no_call in H.
    exists (c_str (lexeme_ s1)), statements.
    rewrite H, H6, Hg, H4, H1, <- app_assoc. auto.
  - left. unfold ret in H. injection H as <- <-. rewrite H1. auto.
Qed.

End Calls.

(** X21.  Whenever [parse] returns (it does unless it reads beyond the
    input inside a block comment), the calls it has made on the grammar are
    whole statements: either the name of the grammar was not found, then no
    call was made and 1 is returned; or the calls are [grammar] with the
    name, followed by statements, each one an associativity with its
    symbols, [whitespace] with at most one regular expression, or
    [production], calls of expressions and the closing [end_production].
    A production that was opened is closed, also when errors are reported
    inside it. *)
Theorem parse_calls_whole_statements (self : GrammarParser)
    (source : list ascii) (error_policy : option (list error_report))
    (grammar : list grammar_call) (errors : Z) (after : GrammarParser) :
  parse self source error_policy grammar = Returns errors after ->
  (grammar_ after = grammar /\ errors = 1)
  \/ exists name statements,
       grammar_ after = grammar ++ call_grammar name :: concat statements
       /\ forallb statement_calls statements = true.
Proof.
  rewrite parse_unfold.
  destruct (match_grammar _) as [b s| |] eqn:Hg; try discriminate.
  apply match_grammar_calls in Hg. simpl in Hg.
  destruct Hg as [(-> & Hg & He) | Hg].
  - intros H. injection H as <- <-. left. simpl. rewrite He. auto.
  - destruct b; intros H; injection H as <- <-; right; exact Hg.
Qed.

Lemma parse_calls_whole_statements_witness :
  let after :=
    mk_GrammarParser None
      [call_grammar (chars "G"); call_left 1; call_literal (chars "+") 1;
       call_production (chars "a") 1; call_identifier (chars "a") 1;
       call_literal (chars "+") 1; call_identifier (chars "a") 1;
       call_action (chars "add") 1; call_literal (chars "x") 1;
       call_end_expression 1; call_end_production]
      [] 1 (chars "x") 2 in
  (grammar_ after = [] /\ 2 = 1)
  \/ exists name statements,
       grammar_ after = [] ++ call_grammar name :: concat statements
       /\ forallb statement_calls statements = true.
Proof.
  intros after.
  apply (parse_calls_whole_statements GrammarParser_new
           (chars "G { %left '+'; a : a '+' a [add] | 'x' }") None []).
  vm_compute. reflexivity.
Defined.
